(** * Chunking, vector index and retrieval of the regulator checker

    A shallow embedding of
    - [document_processing/chunking.py] ([ChunkConfig], [SimpleChunker],
      [RecursiveChunker]),
    - [vector_store/memory_store.py] ([MemoryStore]) and
      [vector_store/memory.py] ([MemoryVectorStore]),
    - [rag/retrieval.py] ([RetrievalConfig], [SemanticRetrieval]),
    followed by the properties established about them.

    Conventions.  A Python [str] is a list of Unicode code points.  Python
    integers are [Z].  A float64 is idealised as a real number: rounding,
    NaN and infinities are outside the model.  A raised exception is a
    value of [exn]; a [while] loop is run with fuel and [Diverge] is the
    answer of a loop that has not finished when the fuel is gone. *)

From Stdlib Require Import ZArith NArith List String Ascii Bool Lia Reals Lra Sorted.
From stdpp Require Import gmap strings list.
Import ListNotations.
Open Scope Z_scope.

(** ** Exceptions and results *)

(** [ValueError] is what this code base raises itself (configuration
    checks, and [range] with a zero step); the [ValueError] numpy raises
    for operands whose shapes do not agree is [ShapeError];
    [ProviderError] is whatever the injected embeddings provider raises;
    [Exception] is the wrapper the dictionary store raises in place of
    what it caught. *)
Inductive exn : Type :=
| ValueError (msg : string)
| IndexError (msg : string)
| KeyError (key : string)
| ShapeError
| ProviderError
| Exception (msg : string).

(** [str(e)].  The text that numpy and the provider put in their errors
    is not modelled: a fixed text stands for it. *)
Definition exn_str (e : exn) : string :=
  match e with
  | ValueError msg | IndexError msg | Exception msg => msg
  | KeyError key => "'" ++ key ++ "'"
  | ShapeError => "shapes not aligned"
  | ProviderError => "embeddings provider failed"
  end.

Inductive result (A : Type) : Type :=
| Ok (a : A)
| Raise (e : exn)
| Diverge.

Arguments Ok {A} a.
Arguments Raise {A} e.
Arguments Diverge {A}.

Definition bind {A B : Type} (r : result A) (k : A -> result B) : result B :=
  match r with
  | Ok a => k a
  | Raise e => Raise e
  | Diverge => Diverge
  end.

#[global] Instance result_bind : MBind result :=
  fun A B k r => bind r k.
#[global] Instance result_ret : MRet result := @Ok.

Definition is_ValueError {A : Type} (r : result A) : Prop :=
  exists msg, r = Raise (ValueError msg).

(** ** Python strings *)

Module Py.

Definition char : Type := N.
Definition str : Type := list char.

(** A literal, for writing concrete inputs. *)
Definition lit (s : string) : str := map N_of_ascii (list_ascii_of_string s).

Definition len {A : Type} (l : list A) : Z := Z.of_nat (length l).

Definition nl : char := 10%N.

(** [str.isspace] on one code point; it is also the class [\s] of [re]
    on [str] patterns. *)
Definition isspace (c : char) : bool :=
  ((9 <=? c) && (c <=? 13) || (28 <=? c) && (c <=? 32)
   || (c =? 133) || (c =? 160) || (c =? 5760)
   || (8192 <=? c) && (c <=? 8202)
   || (c =? 8232) || (c =? 8233) || (c =? 8239) || (c =? 8287)
   || (c =? 12288))%N.

(** The class [[.!?]]. *)
Definition is_terminal (c : char) : bool :=
  ((c =? 46) || (c =? 33) || (c =? 63))%N.

(** The class of the characters that may close a sentence after its
    terminal: white space, the double and the single quote, and the
    closing round, square and curly bracket. *)
Definition is_closing (c : char) : bool :=
  (isspace c || (c =? 34) || (c =? 39) || (c =? 41) || (c =? 93) || (c =? 125))%N.

Fixpoint lstrip (s : str) : str :=
  match s with
  | [] => []
  | c :: s' => if isspace c then lstrip s' else s
  end.

Definition rstrip (s : str) : str := rev (lstrip (rev s)).

(** [s.strip()] *)
Definition strip (s : str) : str := rstrip (lstrip s).

(** [s.split(newline)]: always at least one piece. *)
Fixpoint split_nl (s : str) : list str :=
  match s with
  | [] => [[]]
  | c :: s' =>
      if (c =? nl)%N then [] :: split_nl s'
      else match split_nl s' with
           | [] => [[c]]
           | p :: ps => (c :: p) :: ps
           end
  end.

(** [newline.join(parts)] *)
Fixpoint join_nl (parts : list str) : str :=
  match parts with
  | [] => []
  | [p] => p
  | p :: ps => p ++ nl :: join_nl ps
  end.

(** A slice bound as Python normalises it: a negative bound counts from
    the end, and every bound is clamped to [0, n]. *)
Definition norm_index (n i : Z) : Z :=
  if i <? 0 then Z.max (i + n) 0 else Z.min i n.

(** [s[a:b]] *)
Definition slice {A : Type} (s : list A) (a b : Z) : list A :=
  let n := len s in
  let a' := norm_index n a in
  let b' := norm_index n b in
  firstn (Z.to_nat (b' - a')) (skipn (Z.to_nat a') s).

(** [s[:b]] *)
Definition slice_to {A : Type} (s : list A) (b : Z) : list A := slice s 0 b.

Fixpoint is_prefix (p s : str) : bool :=
  match p, s with
  | [], _ => true
  | _ :: _, [] => false
  | a :: p', b :: s' => (a =? b)%N && is_prefix p' s'
  end.

(** First occurrence of [sub] in [s], reported from offset [i]; [-1] when
    there is none. *)
Fixpoint find_at (s sub : str) (i : Z) : Z :=
  if is_prefix sub s then i
  else match s with
       | [] => -1
       | _ :: s' => find_at s' sub (i + 1)
       end.

(** [text.find(sub, start)] *)
Definition find_from (text sub : str) (start : Z) : Z :=
  let n := len text in
  let st := if start <? 0 then Z.max (start + n) 0 else start in
  if n <? st then -1 else find_at (skipn (Z.to_nat st) text) sub st.

(** [text.find(sub)] *)
Definition find (text sub : str) : Z := find_from text sub 0.

(** [m.start()] of every match of [re.finditer] for the pattern of one
    newline in [s], counted from [i]. *)
Fixpoint newline_starts (s : str) (i : Z) : list Z :=
  match s with
  | [] => []
  | c :: s' =>
      if (c =? nl)%N then i :: newline_starts s' (i + 1)
      else newline_starts s' (i + 1)
  end.

(** [m.end()] of every match of [re.finditer] for the pattern: one
    terminal, then the longest run of closing characters; counted from
    [i].  [inm] says that a match is open: a terminal was read and the
    closing run is being extended. *)
Fixpoint sentence_ends (s : str) (i : Z) (inm : bool) : list Z :=
  match s with
  | [] => if inm then [i] else []
  | c :: s' =>
      if inm && is_closing c then sentence_ends s' (i + 1) true
      else
        let rest := sentence_ends s' (i + 1) (is_terminal c) in
        if inm then i :: rest else rest
  end.

(** State of the scan for [re.split] on the pattern: newline, any white
    space, newline (greedy, so a match ends at the last newline of the
    white run).  [cur] is the piece
    being built.  After a newline the scan is inside a candidate
    separator: [Pending ws] has read the newline and the blanks [ws]
    (none of them a newline); [Confirmed after] has read a second newline,
    so the separator is a match that ends at the last newline read, and
    [after] are the blanks read since. *)
Inductive blank_state : Type :=
| Plain
| Pending (ws : str)
| Confirmed (after : str).

Fixpoint split_blank_lines_go (s : str) (cur : str) (st : blank_state)
  : list str :=
  match s with
  | [] =>
      match st with
      | Plain => [cur]
      | Pending ws => [cur ++ nl :: ws]
      | Confirmed after => [cur; after]
      end
  | c :: s' =>
      match st with
      | Plain =>
          if (c =? nl)%N then split_blank_lines_go s' cur (Pending [])
          else split_blank_lines_go s' (cur ++ [c]) Plain
      | Pending ws =>
          if (c =? nl)%N then split_blank_lines_go s' cur (Confirmed [])
          else if isspace c then split_blank_lines_go s' cur (Pending (ws ++ [c]))
          else split_blank_lines_go s' (cur ++ nl :: ws ++ [c]) Plain
      | Confirmed after =>
          if (c =? nl)%N then split_blank_lines_go s' cur (Confirmed [])
          else if isspace c then split_blank_lines_go s' cur (Confirmed (after ++ [c]))
          else cur :: split_blank_lines_go s' (after ++ [c]) Plain
      end
  end.

(** [re.split] of [s] on blank lines. *)
Definition split_blank_lines (s : str) : list str :=
  split_blank_lines_go s [] Plain.

(** Scan for [re.split] on the pattern: a run of white space that
    follows a terminal (look-behind).  [prev_term] says that the
    character before the current one is a terminal; [insep] that the scan
    is inside a separator. *)
Fixpoint split_sentences_go (s : str) (cur : str) (prev_term insep : bool)
  : list str :=
  match s with
  | [] => [cur]
  | c :: s' =>
      if isspace c && (insep || prev_term) then
        if insep then split_sentences_go s' cur false true
        else cur :: split_sentences_go s' [] false true
      else split_sentences_go s' (cur ++ [c]) (is_terminal c) false
  end.

(** [re.split] of [s] after sentence terminals. *)
Definition split_sentences (s : str) : list str :=
  split_sentences_go s [] false false.

(** [range(0, n, step)]; a zero step raises. *)
Fixpoint range_go (fuel : nat) (i n step : Z) : list Z :=
  match fuel with
  | O => []
  | S f => if i <? n then i :: range_go f (i + step) n step else []
  end.

Definition range0 (n step : Z) : result (list Z) :=
  if step =? 0 then Raise (ValueError "range() arg 3 must not be zero")
  else if step <? 0 then Ok []
  else Ok (range_go (Z.to_nat n) 0 n step).

(** [l[i]] for an index [i >= 0]. *)
Definition item {A : Type} (l : list A) (i : nat) : result A :=
  match l !! i with
  | Some x => Ok x
  | None => Raise (IndexError "list index out of range")
  end.

End Py.


(** ** Metadata values

    A metadata mapping is a [dict] from strings to arbitrary values; the
    code only ever copies a mapping, reads a key and compares values with
    [==], so a small universe of values is enough. *)

Inductive pyval : Type :=
| PNone
| PBool (b : bool)
| PInt (z : Z)
| PStr (s : string).

#[global] Instance pyval_eq_dec : EqDecision pyval.
Proof. solve_decision. Defined.

Abbreviation dict := (gmap string pyval).

(** [d.get(k)]: [None] for a missing key. *)
Definition dict_get (d : dict) (k : string) : pyval := default PNone (d !! k).

(** ** document_processing/chunking.py *)

Module Chunking.
Import Py.

Record ChunkConfig : Type := mkChunkConfig {
  chunk_size : Z;
  chunk_overlap : Z;
  min_chunk_size : Z;
  split_on_newline : bool;
  respect_sentences : bool
}.

(** The defaults of the dataclass fields. *)
Definition default_chunk_size : Z := 512.
Definition default_chunk_overlap : Z := 50.
Definition default_min_chunk_size : Z := 20.
Definition default_split_on_newline : bool := true.
Definition default_respect_sentences : bool := true.

(** [ChunkConfig.__post_init__] *)
Definition __post_init__ (self : ChunkConfig) : result unit :=
  if chunk_size self <=? 0 then
    Raise (ValueError "Chunk size must be positive")
  else if chunk_overlap self <? 0 then
    Raise (ValueError "Chunk overlap must be non-negative")
  else if chunk_overlap self >=? chunk_size self then
    Raise (ValueError "Chunk overlap must be less than chunk size")
  else if min_chunk_size self <=? 0 then
    Raise (ValueError "Minimum chunk size must be positive")
  else if min_chunk_size self >? chunk_size self then
    Raise (ValueError "Minimum chunk size must not exceed chunk size")
  else Ok tt.

(** Construction: the generated [__init__] stores the fields and then
    runs [__post_init__]. *)
Definition new_ChunkConfig (cs co mn : Z) (sn rs : bool) : result ChunkConfig :=
  let self := mkChunkConfig cs co mn sn rs in
  _ ← __post_init__ self; Ok self.

(** [TextChunk].  [M] is the representation of the metadata mapping: the
    chunkers give every chunk a copy of their own, held here by value;
    the in-memory store hands out a reference to a mapping it owns. *)
Record TextChunk (M : Type) : Type := mkTextChunk {
  text : str;
  metadata : M;
  start_char : Z;
  end_char : Z;
  chunk_index : Z
}.

Arguments mkTextChunk {M}.
Arguments text {M}.
Arguments metadata {M}.
Arguments start_char {M}.
Arguments end_char {M}.
Arguments chunk_index {M}.

(** The two locals [chunks] and [chunk_index] of a [chunk_text] call. *)
Record emitter : Type := mkEmitter {
  chunks : list (TextChunk dict);
  next_index : Z
}.

(** [chunks.append(TextChunk(text=t, metadata=metadata.copy(),
    start_char=start, end_char=start + len(t), chunk_index=chunk_index))]
    followed by [chunk_index += 1]. *)
Definition append_chunk (md : dict) (t : str) (start : Z) (e : emitter) : emitter :=
  {| chunks := chunks e ++ [mkTextChunk t md start (start + len t) (next_index e)];
     next_index := next_index e + 1 |}.

Definition nonempty {A : Type} (l : list A) : bool :=
  match l with [] => false | _ => true end.

(** [metadata or {}] *)
Definition metadata_or_empty (md : option dict) : dict := default ∅ md.

Module SimpleChunker.
Section WithConfig.
Variable config : ChunkConfig.

Definition _find_sentence_boundary (text : str) (start_pos end_pos : Z) : Z :=
  let search_text := slice text start_pos end_pos in
  let boundaries :=
    List.filter (fun pos => pos >? start_pos + min_chunk_size config)
      (sentence_ends search_text start_pos false) in
  match boundaries with
  | [] => end_pos
  | _ =>
      match List.find (fun pos => pos <=? end_pos) (rev boundaries) with
      | Some pos => pos
      | None => end_pos
      end
  end.

Definition _find_newline_boundary (text : str) (start_pos end_pos : Z) : Z :=
  let search_text := slice text start_pos end_pos in
  let boundaries :=
    List.filter (fun pos => pos >? start_pos + min_chunk_size config)
      (newline_starts search_text start_pos) in
  match boundaries with
  | [] => end_pos
  | _ =>
      match List.find (fun pos => pos >? start_pos + min_chunk_size config)
              boundaries with
      | Some pos => pos
      | None => end_pos
      end
  end.

(** The end of the window that starts at [current_pos]: the size cut,
    moved to a newline and then to a sentence boundary where one is
    accepted. *)
Definition window_end (text : str) (current_pos : Z) : Z :=
  let chunk_end := Z.min (current_pos + chunk_size config) (len text) in
  let chunk_end :=
    if split_on_newline config && (chunk_end <? len text) then
      let newline_pos := _find_newline_boundary text current_pos chunk_end in
      if newline_pos >? current_pos + min_chunk_size config then newline_pos
      else chunk_end
    else chunk_end in
  if (chunk_end <? len text) && respect_sentences config then
    let sentence_end := _find_sentence_boundary text current_pos chunk_end in
    if sentence_end >? current_pos + min_chunk_size config then sentence_end
    else chunk_end
  else chunk_end.

(** The [for line in lines[:-1]] loop. *)
Definition emit_lines (text : str) (md : dict) (current_pos : Z)
    (lines : list str) (e : emitter) : emitter :=
  fold_left
    (fun e line =>
       let line := strip line in
       if nonempty line then append_chunk md line (find_from text line current_pos) e
       else e)
    lines e.

(** The chunks appended for the window [current_pos, chunk_end). *)
Definition emit_window (text : str) (md : dict) (current_pos chunk_end : Z)
    (e : emitter) : emitter :=
  let chunk_text := strip (slice text current_pos chunk_end) in
  if nonempty chunk_text then
    let '(e, chunk_text) :=
      if split_on_newline config && (chunk_end <? len text) then
        let lines := split_nl chunk_text in
        (emit_lines text md current_pos (removelast lines) e,
         strip (List.last lines []))
      else (e, chunk_text) in
    if nonempty chunk_text then
      append_chunk md chunk_text (find_from text chunk_text current_pos) e
    else e
  else e.

(** The two statements that close the loop body:
    [current_pos = chunk_end - self.config.chunk_overlap] and
    [if current_pos <= current_pos: current_pos = chunk_end]. *)
Definition advance (chunk_end : Z) : Z :=
  let current_pos := chunk_end - chunk_overlap config in
  if current_pos <=? current_pos then chunk_end else current_pos.

(** The [while current_pos < len(text)] loop. *)
Fixpoint chunk_loop (fuel : nat) (text : str) (md : dict) (current_pos : Z)
    (e : emitter) : result emitter :=
  if negb (current_pos <? len text) then Ok e
  else
    match fuel with
    | O => Diverge
    | S fuel' =>
        let chunk_end := window_end text current_pos in
        let e := emit_window text md current_pos chunk_end e in
        chunk_loop fuel' text md (advance chunk_end) e
    end.

(** [SimpleChunker.chunk_text]; the loop is given one unit of fuel for
    each character of the text. *)
Definition chunk_text (text : str) (metadata : option dict)
  : result (list (TextChunk dict)) :=
  if negb (nonempty text) then Ok []
  else
    let metadata := metadata_or_empty metadata in
    e ← chunk_loop (length text) text metadata 0 (mkEmitter [] 0);
    Ok (chunks e).

End WithConfig.
End SimpleChunker.

Module RecursiveChunker.
Section WithConfig.
Variable config : ChunkConfig.
Variable text : str.
Variable md : dict.

(** The locals of the loop over one oversized section, with the emitter. *)
Record acc : Type := mkAcc {
  out : emitter;
  current_chunk : list str;
  current_length : Z
}.

(** Save the current chunk: the buffered pieces joined by a newline, placed
    where [text.find] finds that string; the buffer is then reset. *)
Definition flush (a : acc) : acc :=
  let chunk_text := join_nl (current_chunk a) in
  let start_char := find text chunk_text in
  mkAcc (append_chunk md chunk_text start_char (out a)) [] 0.

(** [current_chunk.append(piece)] and [current_length += len(piece)]. *)
Definition buffer (piece : str) (a : acc) : acc :=
  mkAcc (out a) (current_chunk a ++ [piece]) (current_length a + len piece).

(** The split of one oversized sentence at fixed offsets. *)
Definition hard_split (sentence : str) (a : acc) : result acc :=
  offsets ← range0 (len sentence) (chunk_size config);
  Ok (fold_left
        (fun a i =>
           let chunk_text := slice sentence i (i + chunk_size config) in
           let start_char := find text chunk_text in
           mkAcc (append_chunk md chunk_text start_char (out a))
                 (current_chunk a) (current_length a))
        offsets a).

Definition sentence_step (sentence : str) (a : acc) : result acc :=
  if len sentence >? chunk_size config then hard_split sentence a
  else
    let a := buffer sentence a in
    Ok (if current_length a >? chunk_size config then flush a else a).

Fixpoint sentence_loop (sentences : list str) (a : acc) : result acc :=
  match sentences with
  | [] => Ok a
  | sentence :: rest => a' ← sentence_step sentence a; sentence_loop rest a'
  end.

Definition subsection_step (subsection : str) (a : acc) : result acc :=
  let subsection := strip subsection in
  if negb (nonempty subsection) then Ok a
  else
    let a :=
      if (current_length a + len subsection >? chunk_size config)
         && nonempty (current_chunk a)
      then flush a else a in
    if len subsection >? chunk_size config then
      sentence_loop (split_sentences subsection) a
    else Ok (buffer subsection a).

Fixpoint subsection_loop (subsections : list str) (a : acc) : result acc :=
  match subsections with
  | [] => Ok a
  | subsection :: rest =>
      a' ← subsection_step subsection a; subsection_loop rest a'
  end.

Definition section_step (section : str) (e : emitter) : result emitter :=
  let section := strip section in
  if negb (nonempty section) then Ok e
  else if len section <=? chunk_size config then
    Ok (append_chunk md section (find text section) e)
  else
    a ← subsection_loop (split_nl section) (mkAcc e [] 0);
    Ok (out (if nonempty (current_chunk a) then flush a else a)).

Fixpoint section_loop (sections : list str) (e : emitter) : result emitter :=
  match sections with
  | [] => Ok e
  | section :: rest => e' ← section_step section e; section_loop rest e'
  end.

End WithConfig.

(** [RecursiveChunker.chunk_text] *)
Definition chunk_text (config : ChunkConfig) (text : str)
    (metadata : option dict) : result (list (TextChunk dict)) :=
  if negb (nonempty text) then Ok []
  else
    let metadata := metadata_or_empty metadata in
    e ← section_loop config text metadata (split_blank_lines text)
          (mkEmitter [] 0);
    Ok (chunks e).

End RecursiveChunker.

End Chunking.

(** ** numpy on one-dimensional float arrays

    [float64] is idealised as the real numbers: the operations are exact,
    and there is no rounding, overflow, infinity or NaN.  A division by a
    zero norm, which numpy answers with NaN, is outside this model: the
    statements about [MemoryStore.search] take a query of positive
    norm. *)

Module Np.
Open Scope R_scope.

Abbreviation vec := (list R).

Definition Rltb (a b : R) : bool := if Rlt_dec a b then true else false.
Definition Rleb (a b : R) : bool := if Rle_dec a b then true else false.

Fixpoint dot (a b : vec) : R :=
  match a, b with
  | x :: a', y :: b' => x * y + dot a' b'
  | _, _ => 0
  end.

(** [np.dot(a, b)] *)
Definition np_dot (a b : vec) : result R :=
  if decide (length a = length b) then Ok (dot a b) else Raise ShapeError.

(** [np.linalg.norm(a)] *)
Definition norm (a : vec) : R := sqrt (dot a a).

(** [a / c] *)
Definition div (a : vec) (c : R) : vec := map (fun x => x / c) a.

Fixpoint sub (a b : vec) : vec :=
  match a, b with
  | x :: a', y :: b' => (x - y) :: sub a' b'
  | _, _ => []
  end.

(** [a - b], with the broadcast of a one-element operand. *)
Definition np_sub (a b : vec) : result vec :=
  if decide (length a = length b) then Ok (sub a b)
  else match a, b with
       | [x], _ => Ok (map (fun y => x - y) b)
       | _, [y] => Ok (map (fun x => x - y) a)
       | _, _ => Raise ShapeError
       end.

(** [np.dot(np.array(rows), q)]: the rows must all have the length of
    [q]. *)
Definition np_matvec (rows : list vec) (q : vec) : result (list R) :=
  if forallb (fun row => bool_decide (length row = length q)) rows
  then Ok (map (fun row => dot row q) rows)
  else Raise ShapeError.

Section Sort.
Context {A : Type} (key : A -> R).

(** [l.sort(key=key)]: ascending and stable. *)
Fixpoint insert_asc (x : A) (l : list A) : list A :=
  match l with
  | [] => [x]
  | y :: l' => if Rltb (key y) (key x) then y :: insert_asc x l' else x :: l
  end.

Definition sort_asc (l : list A) : list A := foldr insert_asc [] l.

(** [l.sort(key=key, reverse=True)]: descending and stable. *)
Fixpoint insert_desc (x : A) (l : list A) : list A :=
  match l with
  | [] => [x]
  | y :: l' => if Rltb (key x) (key y) then y :: insert_desc x l' else x :: l
  end.

Definition sort_desc (l : list A) : list A := foldr insert_desc [] l.

End Sort.

End Np.

(** [a == b] on these values.  [bool] is a subclass of [int], so
    [True == 1] and [False == 0] hold; [None] equals only [None], a string
    only the same string, and values of different kinds are otherwise
    unequal. *)
Definition py_eq (a b : pyval) : bool :=
  match a, b with
  | PNone, PNone => true
  | PBool x, PBool y => Bool.eqb x y
  | PInt x, PInt y => (x =? y)%Z
  | PBool x, PInt y => (Z.b2z x =? y)%Z
  | PInt x, PBool y => (x =? Z.b2z y)%Z
  | PStr x, PStr y => String.eqb x y
  | _, _ => false
  end.

(** [all(metadata.get(k) == v for k, v in filters.items())] *)
Definition matches (filters metadata : dict) : bool :=
  bool_decide
    (map_Forall (fun k v => py_eq (dict_get metadata k) v = true) filters).

(** Truth value of an optional mapping: [None] and the empty mapping are
    false. *)
Definition truthy (d : option dict) : bool :=
  match d with
  | Some m => negb (bool_decide (m = ∅))
  | None => false
  end.

(** ** vector_store/memory_store.py *)

Module MemoryStore.
Import Py Np.

(** A [dict] whose iteration order matters: insertion order, and an
    assignment to a present key keeps its place. *)
Definition odict (V : Type) : Type := list (string * V).

Fixpoint od_get {V : Type} (d : odict V) (k : string) : option V :=
  match d with
  | [] => None
  | (k', v) :: d' => if String.eqb k' k then Some v else od_get d' k
  end.

Fixpoint od_set {V : Type} (d : odict V) (k : string) (v : V) : odict V :=
  match d with
  | [] => [(k, v)]
  | (k', v') :: d' =>
      if String.eqb k' k then (k, v) :: d' else (k', v') :: od_set d' k v
  end.

(** [d.pop(k, None)] *)
Fixpoint od_pop {V : Type} (d : odict V) (k : string) : odict V :=
  match d with
  | [] => []
  | (k', v') :: d' => if String.eqb k' k then d' else (k', v') :: od_pop d' k
  end.

(** [d[k]] *)
Definition od_item {V : Type} (d : odict V) (k : string) : result V :=
  match od_get d k with
  | Some v => Ok v
  | None => Raise (KeyError k)
  end.

Record VectorStoreConfig : Type := mkVectorStoreConfig {
  collection_name : string;
  embedding_dimension : Z;
  distance_metric : string
}.

(** [VectorSearchResult], without its time stamp. *)
Record VectorSearchResult : Type := mkVectorSearchResult {
  id : string;
  text : str;
  metadata : dict;
  score : R;
  embedding : vec
}.

Record MemoryStore : Type := mkMemoryStore {
  config : VectorStoreConfig;
  _texts : odict str;
  _embeddings : odict vec;
  _metadata : odict dict
}.

(** [MemoryStore(config)], once [_validate_config] has passed. *)
Definition empty (config : VectorStoreConfig) : MemoryStore :=
  mkMemoryStore config [] [] [].

(** The array stored for a supplied embedding: divided by its norm when
    the norm is positive, unchanged otherwise. *)
Definition normalized (embedding : vec) : vec :=
  let norm := Np.norm embedding in
  if Rltb 0 norm then div embedding norm else embedding.

(** One pass of the insertion loop, for position [i] and identifier
    [id]. *)
Definition store_one (self : MemoryStore) (i : nat) (id : string) (text : str)
    (embedding : vec) (metadata : option (list dict)) : MemoryStore :=
  let md :=
    match metadata with
    | Some l => default ∅ (l !! i)
    | None => ∅
    end in
  mkMemoryStore (config self)
    (od_set (_texts self) id text)
    (od_set (_embeddings self) id (normalized embedding))
    (od_set (_metadata self) id md).

(** The loop [for i, (text, embedding) in enumerate(zip(texts,
    embeddings))], from position [i] on.  The store is returned with the
    outcome because a failure leaves the earlier insertions in place. *)
Fixpoint add_loop (self : MemoryStore) (i : nat) (pairs : list (str * vec))
    (metadata : option (list dict)) (ids : list string)
  : MemoryStore * result unit :=
  match pairs with
  | [] => (self, Ok tt)
  | (text, embedding) :: rest =>
      match ids !! i with
      | None => (self, Raise (IndexError "list index out of range"))
      | Some id =>
          add_loop (store_one self i id text embedding metadata) (S i)
            rest metadata ids
      end
  end.

(** [MemoryStore.add_texts].  [uuid4 i] is the identifier the [i]-th call
    of [uuid4()] yields in this call. *)
Definition add_texts (self : MemoryStore) (texts : list str)
    (embeddings : list vec) (metadata : option (list dict))
    (ids : option (list string)) (uuid4 : nat -> string)
  : MemoryStore * result (list string) :=
  let ids :=
    match ids with
    | Some ids => ids
    | None => map uuid4 (seq 0 (length texts))
    end in
  match add_loop self 0 (zip texts embeddings) metadata ids with
  | (self', Ok _) => (self', Ok ids)
  | (self', Raise e) =>
      (self', Raise (Exception ("Failed to add texts to memory store: " ++ exn_str e)))
  | (self', Diverge) => (self', Diverge)
  end.

(** The score of one stored embedding under the configured metric. *)
Definition score_of (metric : string) (query_array e : vec) : result R :=
  if String.eqb metric "cosine" then
    d ← np_dot query_array e; Ok (1 - d)
  else if String.eqb metric "euclidean" then
    diff ← np_sub query_array e; Ok (norm diff)
  else
    d ← np_dot query_array e; Ok (- d).

(** The loop [for id in self._embeddings] of [search]. *)
Fixpoint search_loop (self : MemoryStore) (query_array : vec)
    (filter_metadata : option dict) (entries : odict vec)
  : result (list VectorSearchResult) :=
  match entries with
  | [] => Ok []
  | (id, e) :: rest =>
      let skip :=
        match filter_metadata with
        | Some f =>
            truthy filter_metadata
            && negb (matches f (default ∅ (od_get (_metadata self) id)))
        | None => false
        end in
      if skip then search_loop self query_array filter_metadata rest
      else
        score ← score_of (distance_metric (config self)) query_array e;
        text ← od_item (_texts self) id;
        metadata ← od_item (_metadata self) id;
        results ← search_loop self query_array filter_metadata rest;
        Ok (mkVectorSearchResult id text metadata score e :: results)
  end.

(** [MemoryStore.search].  The query is divided by its norm without a
    guard; what the code computes for a query of norm zero (NaN scores)
    is not modelled. *)
Definition search (self : MemoryStore) (query_embedding : vec) (k : Z)
    (filter_metadata : option dict) : result (list VectorSearchResult) :=
  let query_array := div query_embedding (norm query_embedding) in
  match search_loop self query_array filter_metadata (_embeddings self) with
  | Ok results => Ok (slice_to (sort_asc score results) k)
  | Raise e =>
      Raise (Exception ("Failed to search in memory store: " ++ exn_str e))
  | Diverge => Diverge
  end.

(** [MemoryStore.delete] *)
Definition delete (self : MemoryStore) (ids : list string) : MemoryStore :=
  fold_left
    (fun self id =>
       mkMemoryStore (config self) (od_pop (_texts self) id)
         (od_pop (_embeddings self) id) (od_pop (_metadata self) id))
    ids self.

(** [MemoryStore.clear] *)
Definition clear (self : MemoryStore) : MemoryStore :=
  mkMemoryStore (config self) [] [] [].

End MemoryStore.

(** ** embeddings/provider.py *)

Module Embeddings.
Import Py Np.

(** An [EmbeddingsProvider], an injected capability: the embeddings of a
    list of texts, or [None] when the provider raises.  The synchronous
    and the awaited call are not told apart. *)
Definition provider : Type := list str -> option (list vec).

(** [provider.get_embeddings_sync(texts)] and
    [await provider.get_embeddings(texts)]. *)
Definition call (p : provider) (texts : list str) : result (list vec) :=
  match p texts with
  | Some embeddings => Ok embeddings
  | None => Raise ProviderError
  end.

End Embeddings.

(** ** vector_store/base.py *)

Module VectorStoreBase.
Import Py Np.

(** A reference to a metadata mapping that lives on the heap. *)
Definition loc : Type := positive.

(** The mappings that are shared by reference. *)
Abbreviation heap := (gmap loc dict).

(** A new mapping object. *)
Definition alloc (h : heap) (d : dict) : loc * heap :=
  let l := fresh (dom h) in (l, <[l := d]> h).

(** [SearchResult] *)
Record SearchResult : Type := mkSearchResult {
  chunk : Chunking.TextChunk loc;
  score : R
}.

(** The part of the abstract [VectorStore] that retrieval calls. *)
Class VectorStore (S : Type) : Type := {
  similarity_search :
    S -> vec -> Z -> R -> option dict -> result (list SearchResult);
  get_embedding : S -> str -> result vec
}.

End VectorStoreBase.

(** ** vector_store/memory.py *)

Module MemoryVectorStore.
Import Py Np Embeddings VectorStoreBase.

Record MemoryVectorStore : Type := mkMemoryVectorStore {
  embeddings_provider : provider;
  texts : list str;
  embeddings : list vec;
  metadatas : list loc
}.

(** [metadata or {}]: the caller's own mapping when it has an entry, a new
    empty mapping otherwise. *)
Definition metadata_or_new (h : heap) (metadata : option loc) : loc * heap :=
  match metadata with
  | Some l =>
      if truthy (h !! l) then (l, h) else alloc h ∅
  | None => alloc h ∅
  end.

(** [MemoryVectorStore.add_text] *)
Definition add_text (self : MemoryVectorStore) (h : heap) (text : str)
    (metadata : option loc) (embedding : option vec)
  : result (MemoryVectorStore * heap) :=
  embedding ←
    match embedding with
    | Some e => Ok e
    | None =>
        es ← call (embeddings_provider self) [text]; item es 0
    end;
  let '(l, h) := metadata_or_new h metadata in
  Ok (mkMemoryVectorStore (embeddings_provider self)
        (texts self ++ [text]) (embeddings self ++ [embedding])
        (metadatas self ++ [l]), h).

(** [[{} for _ in texts]] *)
Fixpoint alloc_empty (h : heap) (n : nat) : list loc * heap :=
  match n with
  | O => ([], h)
  | S n' =>
      let '(l, h) := alloc h ∅ in
      let '(ls, h) := alloc_empty h n' in
      (l :: ls, h)
  end.

(** [MemoryVectorStore.add_texts] *)
Definition add_texts (self : MemoryVectorStore) (h : heap) (new_texts : list str)
    (new_metadatas : option (list loc)) (new_embeddings : option (list vec))
  : result (MemoryVectorStore * heap) :=
  new_embeddings ←
    match new_embeddings with
    | Some es => Ok es
    | None => call (embeddings_provider self) new_texts
    end;
  let '(new_metadatas, h) :=
    match new_metadatas with
    | Some ms => (ms, h)
    | None => alloc_empty h (length new_texts)
    end in
  Ok (mkMemoryVectorStore (embeddings_provider self)
        (texts self ++ new_texts) (embeddings self ++ new_embeddings)
        (metadatas self ++ new_metadatas), h).

(** The loop that collects the [(index, similarity)] pairs, from position
    [i] on. *)
Fixpoint collect (self : MemoryVectorStore) (h : heap) (min_score : R)
    (filters : option dict) (i : nat) (similarities : list R)
  : result (list (nat * R)) :=
  match similarities with
  | [] => Ok []
  | similarity :: rest =>
      keep ←
        (if truthy filters then
           l ← item (metadatas self) i;
           Ok (matches (default ∅ filters) (default ∅ (h !! l)))
         else Ok true);
      results ← collect self h min_score filters (S i) rest;
      Ok (if keep && Rleb min_score similarity
          then (i, similarity) :: results else results)
  end.

(** The loop that turns the ranked pairs into [SearchResult]s, from rank
    [i] on. *)
Fixpoint to_results (self : MemoryVectorStore) (i : nat)
    (ranked : list (nat * R)) : result (list SearchResult) :=
  match ranked with
  | [] => Ok []
  | (idx, score) :: rest =>
      text ← item (texts self) idx;
      metadata ← item (metadatas self) idx;
      let chunk :=
        Chunking.mkTextChunk text metadata 0 (len text) (Z.of_nat i) in
      search_results ← to_results self (S i) rest;
      Ok (mkSearchResult chunk score :: search_results)
  end.

(** [MemoryVectorStore.similarity_search] *)
Definition similarity_search (self : MemoryVectorStore) (h : heap)
    (query_embedding : vec) (k : Z) (min_score : R) (filters : option dict)
  : result (list SearchResult) :=
  if negb (Chunking.nonempty (embeddings self)) then Ok []
  else
    similarities ← np_matvec (embeddings self) query_embedding;
    results ← collect self h min_score filters 0 similarities;
    let results := sort_desc snd results in
    let results := slice_to results k in
    to_results self 0 results.

(** [MemoryVectorStore.get_embedding] *)
Definition get_embedding (self : MemoryVectorStore) (text : str) : result vec :=
  es ← call (embeddings_provider self) [text]; item es 0.

(** [MemoryVectorStore.clear] *)
Definition clear (self : MemoryVectorStore) : MemoryVectorStore :=
  mkMemoryVectorStore (embeddings_provider self) [] [] [].

(** The store, seen with the heap its references point into, is a
    [VectorStore]. *)
#[global] Instance memory_vector_store : VectorStore (MemoryVectorStore * heap) := {
  similarity_search '(self, h) := similarity_search self h;
  get_embedding '(self, _) := get_embedding self
}.

End MemoryVectorStore.

(** ** rag/retrieval.py *)

Module Retrieval.
Import Py Np VectorStoreBase.

Record RetrievalConfig : Type := mkRetrievalConfig {
  top_k : Z;
  min_similarity : R;
  rerank_results : bool;
  filter_duplicates : bool;
  duplicate_threshold : R
}.

(** [RetrievalConfig.__post_init__] *)
Definition __post_init__ (self : RetrievalConfig) : result unit :=
  if (top_k self <=? 0)%Z then
    Raise (ValueError "top_k must be positive")
  else if negb (Rleb 0 (min_similarity self) && Rleb (min_similarity self) 1) then
    Raise (ValueError "min_similarity must be between 0 and 1")
  else if negb (Rleb 0 (duplicate_threshold self)
                && Rleb (duplicate_threshold self) 1) then
    Raise (ValueError "duplicate_threshold must be between 0 and 1")
  else Ok tt.

Definition new_RetrievalConfig (top_k : Z) (min_similarity : R)
    (rerank_results filter_duplicates : bool) (duplicate_threshold : R)
  : result RetrievalConfig :=
  let self := mkRetrievalConfig top_k min_similarity rerank_results
                filter_duplicates duplicate_threshold in
  _ ← __post_init__ self; Ok self.

Record RetrievedChunk : Type := mkRetrievedChunk {
  chunk : Chunking.TextChunk loc;
  similarity : R;
  rank : Z
}.

(** [for i, chunk in enumerate(chunks): chunk.rank = i + 1], from
    position [i] on. *)
Fixpoint ranks_from (i : Z) (chunks : list RetrievedChunk) : list RetrievedChunk :=
  match chunks with
  | [] => []
  | c :: rest =>
      mkRetrievedChunk (chunk c) (similarity c) (i + 1) :: ranks_from (i + 1) rest
  end.

Definition update_ranks (chunks : list RetrievedChunk) : list RetrievedChunk :=
  ranks_from 0 chunks.

Section WithStore.
Context {S : Type} `{VectorStore S}.
Variable vector_store : S.
Variable embeddings_provider : Embeddings.provider.
Variable config : RetrievalConfig.

(** The inner loop of [_filter_duplicates]: is [chunk_embedding] too
    similar to an embedding seen before? *)
Fixpoint is_duplicate (chunk_embedding : vec) (seen_embeddings : list vec)
  : result bool :=
  match seen_embeddings with
  | [] => Ok false
  | seen_embedding :: rest =>
      similarity ← np_dot chunk_embedding seen_embedding;
      if Rltb (duplicate_threshold config) similarity then Ok true
      else is_duplicate chunk_embedding rest
  end.

(** The outer loop of [_filter_duplicates]; the result is what is
    appended to [filtered] from here on. *)
Fixpoint filter_loop (chunks : list RetrievedChunk) (seen_embeddings : list vec)
  : result (list RetrievedChunk) :=
  match chunks with
  | [] => Ok []
  | c :: rest =>
      chunk_embedding ← get_embedding vector_store (Chunking.text (chunk c));
      let chunk_embedding := div chunk_embedding (norm chunk_embedding) in
      dup ← is_duplicate chunk_embedding seen_embeddings;
      if dup : bool then filter_loop rest seen_embeddings
      else
        filtered ← filter_loop rest (seen_embeddings ++ [chunk_embedding]);
        Ok (c :: filtered)
  end.

(** [RetrievalStrategy._filter_duplicates] *)
Definition _filter_duplicates (chunks : list RetrievedChunk)
  : result (list RetrievedChunk) :=
  if negb (Chunking.nonempty chunks) then Ok chunks
  else filter_loop chunks [].

(** [SemanticRetrieval._rerank_results] *)
Definition _rerank_results (chunks : list RetrievedChunk) : list RetrievedChunk :=
  let reranked := sort_desc similarity chunks in
  update_ranks reranked.

(** [SemanticRetrieval.retrieve] *)
Definition retrieve (query : str) (filters : option dict)
  : result (list RetrievedChunk) :=
  query_embedding ← Embeddings.call embeddings_provider [query];
  query_embedding ← item query_embedding 0;
  results ←
    similarity_search vector_store query_embedding
      (if filter_duplicates config then top_k config * 2 else top_k config)%Z
      (min_similarity config) filters;
  let chunks :=
    imap (fun i result =>
            mkRetrievedChunk (VectorStoreBase.chunk result) (score result)
              (Z.of_nat i + 1))
      results in
  chunks ←
    (if filter_duplicates config then
       chunks ← _filter_duplicates chunks; Ok (update_ranks chunks)
     else Ok chunks);
  let chunks :=
    if rerank_results config then update_ranks (_rerank_results chunks)
    else chunks in
  Ok (slice_to chunks (top_k config)).

End WithStore.

End Retrieval.

(** ** vector_store/memory_store.py: construction, [get_by_id] and
    [get_stats]; vector_store/embeddings_factory.py: [create_store] *)

Module MemoryStoreOps.
Import Py Np MemoryStore.

(** [MemoryStore._validate_config] *)
Definition _validate_config (config : VectorStoreConfig) : result unit :=
  match collection_name config with
  | EmptyString => Raise (ValueError "Collection name is required")
  | String _ _ =>
      if embedding_dimension config <=? 0 then
        Raise (ValueError "Embedding dimension must be positive")
      else Ok tt
  end.

(** [MemoryStore(config)]: [BaseVectorStore.__init__] stores the
    configuration and validates it, then the three dictionaries are
    created empty. *)
Definition new_MemoryStore (config : VectorStoreConfig) : result MemoryStore :=
  _ ← _validate_config config; Ok (empty config).

(** [MemoryStore.get_by_id] *)
Definition get_by_id (self : MemoryStore) (id : string)
  : result (option VectorSearchResult) :=
  let body :=
    match od_get (_texts self) id with
    | None => Ok None
    | Some _ =>
        text ← od_item (_texts self) id;
        let metadata := default ∅ (od_get (_metadata self) id) in
        embedding ← od_item (_embeddings self) id;
        Ok (Some (mkVectorSearchResult id text metadata 0 embedding))
    end in
  match body with
  | Ok r => Ok r
  | Raise e =>
      Raise (Exception ("Failed to get text from memory store: " ++ exn_str e))
  | Diverge => Diverge
  end.

(** [MemoryStore.get_stats] *)
Definition get_stats (self : MemoryStore) : dict :=
  {[ "total_texts"%string := PInt (len (_texts self));
     "total_embeddings"%string := PInt (len (_embeddings self));
     "collection_name"%string := PStr (collection_name (config self));
     "embedding_dimension"%string := PInt (embedding_dimension (config self)) ]}.

(** [EmbeddingsFactory.create_store]; the two directories it also passes
    on are not read by the in-memory store. *)
Definition create_store (collection_name : string) (embedding_dimension : Z)
    (distance_metric : string) : result MemoryStore :=
  let config :=
    mkVectorStoreConfig collection_name embedding_dimension distance_metric in
  new_MemoryStore config.

End MemoryStoreOps.

(** * Vocabulary of the properties

    The predicates in which the properties below are stated, and the
    concrete stores and configurations they are tried on. *)

Module ChunkingSpec.
Import Py Chunking.

(** What [__post_init__] accepts. *)
Definition valid (c : ChunkConfig) : Prop :=
  0 < chunk_size c /\ 0 <= chunk_overlap c < chunk_size c
  /\ 0 < min_chunk_size c <= chunk_size c.

(** The index discipline of the emitter: the next index is the number of
    chunks, and the chunks carry 0, 1, ... in order. *)
Definition indexed (e : emitter) : Prop :=
  next_index e = len (chunks e)
  /\ map chunk_index (chunks e) = map Z.of_nat (seq 0 (length (chunks e))).

(** [sub] occurs in [s] as a contiguous piece. *)
Definition occurs (sub s : str) : Prop :=
  exists pre post, s = pre ++ sub ++ post.

(** The chunk has at most [chunk_size] characters. *)
Definition within_size (config : ChunkConfig) (c : TextChunk dict) : Prop :=
  len (text c) <= chunk_size config.

(** The offsets of the chunk are positions of [t] between which [t] reads
    the text of the chunk. *)
Definition located (t : str) (c : TextChunk dict) : Prop :=
  0 <= start_char c <= end_char c /\ end_char c <= len t
  /\ slice t (start_char c) (end_char c) = text c.

End ChunkingSpec.

Module NpSpec.
Import Np.
Open Scope R_scope.

Section Order.
Context {A : Type} (key : A -> R).

(** Best score first. *)
Definition descending (l : list A) : Prop :=
  Sorted (fun x y => key y <= key x) l.

Definition ascending (l : list A) : Prop :=
  Sorted (fun x y => key x <= key y) l.

End Order.

End NpSpec.

Module MemoryStoreSpec.
Import Py Np MemoryStore.
Open Scope R_scope.




(** The three dictionaries of [self'] agree with those of [self] at
    [id]. *)
Definition same_at (self self' : MemoryStore) (id : string) : Prop :=
  od_get (_texts self') id = od_get (_texts self) id
  /\ od_get (_embeddings self') id = od_get (_embeddings self) id
  /\ od_get (_metadata self') id = od_get (_metadata self) id.


End MemoryStoreSpec.

Module RetrievalSpec.
Import Py Np VectorStoreBase Retrieval.
Open Scope R_scope.

Section Greedy.
Context {S : Type} `{VectorStore S}.
Variable vector_store : S.
Variable config : RetrievalConfig.

(** The normalized embedding of a candidate: the embedding the store
    gives for its text, divided by its norm. *)
Definition unit_embedding (c : RetrievedChunk) : vec :=
  match get_embedding vector_store (Chunking.text (chunk c)) with
  | Ok e => div e (norm e)
  | _ => []
  end.

(** Duplicate suppression as the specification words it: the candidates
    are visited in order, next to the list of the normalized embeddings
    accepted so far; a candidate is dropped when its cosine similarity
    to one of them exceeds the threshold, and is accepted otherwise; the
    accepted candidates keep their order. *)
Inductive spec_greedy_filter
  : list vec -> list RetrievedChunk -> list RetrievedChunk -> Prop :=
| greedy_done accepted : spec_greedy_filter accepted [] []
| greedy_drop accepted c rest out :
    (exists a, a ∈ accepted
               /\ duplicate_threshold config < dot (unit_embedding c) a) ->
    spec_greedy_filter accepted rest out ->
    spec_greedy_filter accepted (c :: rest) out
| greedy_keep accepted c rest out :
    ~ (exists a, a ∈ accepted
                 /\ duplicate_threshold config < dot (unit_embedding c) a) ->
    spec_greedy_filter (accepted ++ [unit_embedding c]) rest out ->
    spec_greedy_filter accepted (c :: rest) (c :: out).

(** The candidates whose text the store can embed, in dimension [d]. *)
Definition embeddable (d : nat) (c : RetrievedChunk) : Prop :=
  exists e, get_embedding vector_store (Chunking.text (chunk c)) = Ok e
            /\ length e = d.

End Greedy.

(** The candidates that [retrieve] builds from the results of the index. *)
Definition candidates (results : list SearchResult) : list RetrievedChunk :=
  imap (fun i result =>
          mkRetrievedChunk (VectorStoreBase.chunk result) (score result)
            (Z.of_nat i + 1))
    results.

(** The outcome is not the [ValueError] of a configuration check. *)
Definition no_config_error {A : Type} (r : result A) : Prop :=
  forall msg, r <> Raise (ValueError msg).

End RetrievalSpec.

Module Examples.
Import Py Np VectorStoreBase.
Open Scope R_scope.

Definition cosine_config : MemoryStore.VectorStoreConfig :=
  MemoryStore.mkVectorStoreConfig "regulations" 3 "cosine".

Definition no_provider : Embeddings.provider := fun _ => None.

Definition empty_list_store : MemoryVectorStore.MemoryVectorStore :=
  MemoryVectorStore.mkMemoryVectorStore no_provider [] [] [].

(** A store with the two records of the test suite. *)
Definition two_records (p : Embeddings.provider)
  : MemoryVectorStore.MemoryVectorStore :=
  MemoryVectorStore.mkMemoryVectorStore p [lit "Text 1"; lit "Text 2"]
    [[1; 0; 0]; [0; 1; 0]] [1%positive; 2%positive].


(** A dictionary store holding one record, inserted with the embedding
    [3, 4]. *)
Definition one_record : MemoryStore.MemoryStore :=
  fst (MemoryStore.add_texts (MemoryStore.empty cosine_config)
         [lit "a"] [[3; 4]] None (Some ["a"%string]) (fun _ => ""%string)).

(** Two texts whose embeddings are unit vectors at cosine 0.99. *)
Definition near (t : str) : vec :=
  if decide (t = lit "Test chunk 2") then [99 / 100; sqrt 199 / 100] else [1; 0].

Definition near_provider : Embeddings.provider :=
  fun texts => Some (map near texts).

Definition near_store : MemoryVectorStore.MemoryVectorStore :=
  MemoryVectorStore.mkMemoryVectorStore near_provider
    [lit "Test chunk 1"; lit "Test chunk 2"]
    [[1; 0]; [99 / 100; sqrt 199 / 100]] [1%positive; 2%positive].

Definition near_config : Retrieval.RetrievalConfig :=
  Retrieval.mkRetrievalConfig 1 (6 / 10) false true (95 / 100).

Definition near_1 : SearchResult :=
  mkSearchResult (Chunking.mkTextChunk (lit "Test chunk 1") 1%positive 0 12 0)
    (1 * 1 + (0 * 0 + 0)).

Definition near_2 : SearchResult :=
  mkSearchResult (Chunking.mkTextChunk (lit "Test chunk 2") 2%positive 0 12 1)
    (99 / 100 * 1 + (sqrt 199 / 100 * 0 + 0)).

End Examples.

Module ChunkingSpec2.
Import Py Chunking.

(** A text without white space at either end, and not empty. *)
Definition trimmed (t : str) : Prop := t <> [] /\ strip t = t.

(** The characters of [s] that are not white space, in order. *)
Definition non_space (s : str) : str :=
  List.filter (fun c => negb (isspace c)) s.

(** The texts of the chunks, read one after the other. *)
Definition texts_of (cs : list (TextChunk dict)) : str :=
  concat (map text cs).


(** A text of white space only. *)
Definition all_space (s : str) : Prop := Forall (fun c => isspace c = true) s.

(** The blanks that the scan for blank lines holds back are white space. *)
Definition blank_state_all_space (st : blank_state) : Prop :=
  match st with
  | Plain => True
  | Pending ws => all_space ws
  | Confirmed after => all_space after
  end.

(** The non-blank characters that an accumulator holds: those of the
    chunks already made, then those of the buffered pieces. *)
Definition kept (a : RecursiveChunker.acc) : str :=
  non_space (texts_of (chunks (RecursiveChunker.out a)))
  ++ non_space (concat (RecursiveChunker.current_chunk a)).

End ChunkingSpec2.

Module MemoryStoreSpec2.
Import Py Np MemoryStore MemoryStoreOps.
Open Scope R_scope.

(** The keys of a dictionary, in iteration order. *)
Definition keys {V : Type} (d : odict V) : list string := map fst d.

(** The metadata stored for position [i] of an [add_texts] call:
    [metadata[i]] when a non-empty list was passed and has that position,
    the empty mapping otherwise. *)
Definition metadata_at (metadata : option (list dict)) (i : nat) : dict :=
  match metadata with
  | Some l => default ∅ (l !! i)
  | None => ∅
  end.

(** The stores that [add_texts] (failed calls included), [delete] and
    [clear] build from a new store. *)
Inductive built (config : VectorStoreConfig) : MemoryStore -> Prop :=
| built_new : built config (empty config)
| built_add self texts embeddings metadata ids uuid4 :
    built config self ->
    built config (fst (add_texts self texts embeddings metadata ids uuid4))
| built_delete self ids :
    built config self -> built config (delete self ids)
| built_clear self :
    built config self -> built config (clear self).

(** The three dictionaries hold the same keys in the same order, each key
    once. *)
Definition same_keys (self : MemoryStore) : Prop :=
  keys (_texts self) = keys (_embeddings self)
  /\ keys (_metadata self) = keys (_embeddings self)
  /\ NoDup (keys (_embeddings self)).

(** The stores that a sequence of [add_texts] calls, failed ones included,
    builds from the empty store, next to the embeddings that were supplied
    to these calls. *)
Inductive supplied (config : VectorStoreConfig)
  : list vec -> MemoryStore -> Prop :=
| supplied_empty : supplied config [] (empty config)
| supplied_add given self texts embeddings metadata ids uuid4 :
    supplied config given self ->
    supplied config (given ++ embeddings)
      (fst (add_texts self texts embeddings metadata ids uuid4)).


(** The record of the store under [id]. *)
Definition holds (self : MemoryStore) (id : string) (text : str)
    (metadata : dict) (embedding : vec) : Prop :=
  od_get (_texts self) id = Some text
  /\ od_get (_metadata self) id = Some metadata
  /\ od_get (_embeddings self) id = Some embedding.

(** What [search] says of one result: it is the record of the store under
    its identifier, scored under the configured metric, and it passes the
    filter when one is given. *)
Definition search_result_ok (self : MemoryStore) (qa : vec)
    (filter : option dict) (r : VectorSearchResult) : Prop :=
  holds self (id r) (text r) (metadata r) (embedding r)
  /\ score_of (distance_metric (config self)) qa (embedding r) = Ok (score r)
  /\ (forall f, filter = Some f -> f <> ∅ -> matches f (metadata r) = true).

End MemoryStoreSpec2.

Module MemoryVectorStoreSpec2.
Import Py Np VectorStoreBase MemoryVectorStore.
Open Scope R_scope.

(** The record at [idx] passes the filters: with a non-empty filter
    mapping, the mapping its metadata reference points to has every entry
    of the filter. *)
Definition passes (self : MemoryVectorStore) (h : heap) (filters : option dict)
    (idx : nat) : Prop :=
  truthy filters = true ->
  exists l, metadatas self !! idx = Some l
            /\ matches (default ∅ filters) (default ∅ (h !! l)) = true.

(** The record at [idx] is a candidate of a search, with similarity [s]:
    [s] is the dot product of its embedding with the query, it is not
    below the minimum score, and the record passes the filters. *)
Definition candidate (self : MemoryVectorStore) (h : heap) (q : vec)
    (min_score : R) (filters : option dict) (idx : nat) (s : R) : Prop :=
  exists e, embeddings self !! idx = Some e /\ s = dot e q
            /\ min_score <= s /\ passes self h filters idx.

(** The three lists have one entry for each record, and every embedding
    has the length of [q]. *)
Definition aligned_for (self : MemoryVectorStore) (q : vec) : Prop :=
  Forall (fun e => length e = length q) (embeddings self)
  /\ length (texts self) = length (embeddings self)
  /\ length (metadatas self) = length (embeddings self).

End MemoryVectorStoreSpec2.

Module RetrievalSpec2.
Import Py Np VectorStoreBase Retrieval.
Open Scope R_scope.

(** The ranks are 1, 2, ... in the order of the list. *)
Definition ranked (chunks : list RetrievedChunk) : Prop :=
  map rank chunks = map (fun i => (Z.of_nat i + 1)%Z) (seq 0 (length chunks)).

(** What a retrieved chunk keeps of the search result it was made from. *)
Definition content (c : RetrievedChunk) : Chunking.TextChunk loc * R :=
  (chunk c, similarity c).

Definition result_content (sr : SearchResult) : Chunking.TextChunk loc * R :=
  (VectorStoreBase.chunk sr, score sr).

(** The number of results [retrieve] asks the index for. *)
Definition requested (config : RetrievalConfig) : Z :=
  if filter_duplicates config then (top_k config * 2)%Z else top_k config.

End RetrievalSpec2.

Module Examples2.
Import Py Np VectorStoreBase Retrieval.
Open Scope R_scope.

(** The mock vector store of the retrieval tests: [similarity_search]
    returns one fixed list whatever it is asked, [get_embedding] is a
    table. *)
Record MockVectorStore : Type := mkMockVectorStore {
  return_value : list SearchResult;
  embedding_of : str -> result vec
}.

#[global] Instance mock_vector_store : VectorStore MockVectorStore := {
  similarity_search store _ _ _ _ := Ok (return_value store);
  get_embedding store text := embedding_of store text
}.

(** The two results that the reranking test gives the mock, in
    non-optimal order, and a third one between them. *)
Definition unordered_store : MockVectorStore :=
  mkMockVectorStore
    [mkSearchResult
       (Chunking.mkTextChunk (lit "Lower score") 1%positive 0 11 0) (7 / 10);
     mkSearchResult
       (Chunking.mkTextChunk (lit "Higher score") 2%positive 12 24 1) (9 / 10);
     mkSearchResult
       (Chunking.mkTextChunk (lit "Middle score") 3%positive 25 37 2) (8 / 10)]
    (fun _ => Raise ProviderError).

Definition mock_provider : Embeddings.provider :=
  fun _ => Some [[1 / 10; 2 / 10; 3 / 10]].

(** Two results wanted, reranking on, no duplicate filtering. *)
Definition rerank_config : RetrievalConfig :=
  mkRetrievalConfig 2 (6 / 10) true false (95 / 100).

(** A list store of three records whose metadata mappings hold a flag:
    [True], [0] and [1]. *)
Definition flag_provider : Embeddings.provider :=
  fun _ => Some [[9 / 10; 5 / 10; 2 / 10]].

Definition flagged_store : MemoryVectorStore.MemoryVectorStore :=
  MemoryVectorStore.mkMemoryVectorStore flag_provider
    [lit "one"; lit "two"; lit "three"]
    [[1; 0; 0]; [0; 1; 0]; [0; 0; 1]]
    [1%positive; 2%positive; 3%positive].

Definition flagged_heap : heap :=
  {[ 1%positive := {[ "flag"%string := PBool true ]};
     2%positive := {[ "flag"%string := PInt 0 ]};
     3%positive := {[ "flag"%string := PInt 1 ]} ]}.

Definition flag_filter : dict := {[ "flag"%string := PInt 1 ]}.

Definition flag_config : RetrievalConfig :=
  mkRetrievalConfig 5 (15 / 100) false false (95 / 100).

End Examples2.

(** * Properties of the string and list helpers *)

Module PyFacts.
Import Py ChunkingSpec.

Lemma occurs_refl s : occurs s s.
Proof. exists [], []. now rewrite app_nil_r. Qed.

Lemma occurs_trans a b c : occurs a b -> occurs b c -> occurs a c.
Proof.
  intros (p1 & q1 & ->) (p2 & q2 & ->).
  exists (p2 ++ p1), (q1 ++ q2). now rewrite <- !app_assoc.
Qed.

Lemma occurs_length sub s : occurs sub s -> (length sub <= length s)%nat.
Proof. intros (pre & post & ->). rewrite !length_app. lia. Qed.

Lemma occurs_nil s : occurs [] s.
Proof. now exists [], s. Qed.

Lemma occurs_cons sub c s : occurs sub s -> occurs sub (c :: s).
Proof. intros (pre & post & ->). now exists (c :: pre), post. Qed.

Lemma lstrip_suffix s : exists pre, s = pre ++ lstrip s.
Proof.
  induction s as [|c s [pre IH]]; cbn; [now exists []|].
  destruct (isspace c); [|now exists []].
  exists (c :: pre). cbn. now rewrite <- IH.
Qed.

Lemma rstrip_prefix s : exists post, s = rstrip s ++ post.
Proof.
  unfold rstrip. destruct (lstrip_suffix (rev s)) as [pre Hpre].
  exists (rev pre). rewrite <- rev_app_distr, <- Hpre. now rewrite rev_involutive.
Qed.

Lemma strip_occurs s : occurs (strip s) s.
Proof.
  unfold strip. destruct (lstrip_suffix s) as [pre Hpre].
  destruct (rstrip_prefix (lstrip s)) as [post Hpost].
  exists pre, post. now rewrite <- Hpost.
Qed.

(** The pieces of [s.split(newline)]: the first is a prefix of [s], and
    every one occurs in [s]. *)
Lemma split_nl_pieces s :
  exists p ps, split_nl s = p :: ps
    /\ (exists post, s = p ++ post)
    /\ Forall (fun q => occurs q s) ps.
Proof.
  induction s as [|c s (p & ps & Hs & [post Hp] & Hps)]; cbn.
  - exists [], []. split; [reflexivity|]. split; [now exists []|constructor].
  - destruct (c =? nl)%N.
    + exists [], (split_nl s). split; [reflexivity|].
      split; [now exists (c :: s)|]. rewrite Hs. constructor.
      * apply occurs_cons. now exists [], post.
      * eapply Forall_impl; [exact Hps|]. intros q. apply occurs_cons.
    + rewrite Hs. exists (c :: p), ps. split; [reflexivity|].
      split; [exists post; cbn; now rewrite <- Hp|].
      eapply Forall_impl; [exact Hps|]. intros q. apply occurs_cons.
Qed.

Lemma split_nl_occurs s : Forall (fun q => occurs q s) (split_nl s).
Proof.
  destruct (split_nl_pieces s) as (p & ps & -> & [post Hp] & Hps).
  constructor; [|assumption]. now exists [], post.
Qed.

Lemma Forall_removelast {A : Type} (P : A -> Prop) (l : list A) :
  Forall P l -> Forall P (removelast l).
Proof.
  induction 1 as [|x l Hx Hl IH]; cbn; [constructor|].
  destruct l; [constructor|]. now constructor.
Qed.

Lemma Forall_last {A : Type} (P : A -> Prop) (l : list A) d :
  Forall P l -> P d -> P (List.last l d).
Proof.
  induction 1 as [|x l Hx Hl IH]; cbn; [auto|].
  intros Hd. destruct l; [assumption|]. now apply IH.
Qed.

(** A slice from a position [a >= 0] is a prefix of what follows [a]. *)
Lemma slice_prefix {A : Type} (s : list A) (a b : Z) :
  (0 <= a)%Z ->
  exists post, skipn (Z.to_nat a) s = slice s a b ++ post.
Proof.
  intros Ha. unfold slice.
  assert (Hskip : skipn (Z.to_nat (norm_index (len s) a)) s
                  = skipn (Z.to_nat a) s).
  { unfold norm_index, len. destruct (a <? 0)%Z eqn:E; [lia|].
    destruct (Z.le_ge_cases a (Z.of_nat (length s))) as [Hle|Hge].
    - now rewrite Z.min_l by lia.
    - rewrite Z.min_r by lia. rewrite Nat2Z.id.
      rewrite !skipn_all2; [reflexivity|lia|lia]. }
  rewrite Hskip.
  exists (skipn (Z.to_nat (norm_index (len s) b - norm_index (len s) a))
            (skipn (Z.to_nat a) s)).
  now rewrite firstn_skipn.
Qed.

Lemma slice_len_le {A : Type} (s : list A) (a b : Z) :
  (0 <= a)%Z -> (0 <= b)%Z -> (len (slice s a b) <= Z.max 0 (b - a))%Z.
Proof.
  intros Ha Hb. unfold slice, len.
  rewrite length_firstn.
  assert (norm_index (len s) b - norm_index (len s) a <= Z.max 0 (b - a))%Z.
  { unfold norm_index, len. destruct (a <? 0)%Z eqn:Ea; [lia|].
    destruct (b <? 0)%Z eqn:Eb; lia. }
  unfold len in *. lia.
Qed.

Lemma is_prefix_spec p s : is_prefix p s = true <-> exists post, s = p ++ post.
Proof.
  revert s. induction p as [|a p IH]; intros s; cbn.
  - split; [now exists s|reflexivity].
  - destruct s as [|b s].
    + split; [discriminate|]. intros [post Hp]. discriminate.
    + rewrite andb_true_iff, N.eqb_eq, IH. split.
      * intros [-> [post ->]]. now exists post.
      * intros [post [= -> ->]]. split; [reflexivity|now exists post].
Qed.

(** When [sub] occurs in [s], [find_at] reports the offset of an
    occurrence. *)
Lemma find_at_occurs s sub : forall i,
  occurs sub s ->
  exists pre post,
    s = pre ++ sub ++ post /\ find_at s sub i = (i + len pre)%Z.
Proof.
  induction s as [|c s IH]; intros i Hocc; cbn.
  - destruct Hocc as (pre & post & Heq).
    symmetry in Heq. apply app_eq_nil in Heq as [-> Heq].
    apply app_eq_nil in Heq as [-> ->].
    exists [], []. split; [reflexivity|]. cbn. unfold len. cbn. lia.
  - destruct (is_prefix sub (c :: s)) eqn:E.
    + apply is_prefix_spec in E as [post Hp]. exists [], post.
      split; [exact Hp|]. unfold len. cbn. lia.
    + assert (Hocc' : occurs sub s).
      { destruct Hocc as ([|c' pre] & post & Heq).
        - assert (is_prefix sub (c :: s) = true)
            by (apply is_prefix_spec; now exists post).
          congruence.
        - injection Heq as _ ->. now exists pre, post. }
      destruct (IH (i + 1)%Z Hocc') as (pre & post & -> & Hf).
      exists (c :: pre), post. split; [reflexivity|].
      rewrite Hf. unfold len. cbn [length]. lia.
Qed.

(** [text.find(sub, start)] for a [sub] that occurs from [start] on: the
    answer is a position at or after [start] where [text] reads [sub]. *)
Lemma find_from_occurs text sub start :
  (0 <= start <= len text)%Z ->
  occurs sub (skipn (Z.to_nat start) text) ->
  let r := find_from text sub start in
  (start <= r)%Z /\ (r + len sub <= len text)%Z
  /\ slice text r (r + len sub) = sub.
Proof.
  intros Hstart Hocc. unfold find_from.
  destruct (start <? 0)%Z eqn:E1; [lia|].
  destruct (len text <? start)%Z eqn:E2; [lia|].
  destruct (find_at_occurs _ sub start Hocc) as (pre & post & Hs & ->).
  cbv zeta.
  assert (Htext : text = (firstn (Z.to_nat start) text ++ pre) ++ sub ++ post).
  { rewrite <- app_assoc, <- Hs. now rewrite firstn_skipn. }
  assert (Hl : length (firstn (Z.to_nat start) text ++ pre)
               = Z.to_nat (start + len pre)).
  { rewrite length_app, length_firstn. unfold len in *. lia. }
  assert (Hn : (start + len pre + len sub <= len text)%Z).
  { pose proof (f_equal (@length _) Htext) as Hlen.
    rewrite !length_app in Hlen. rewrite length_app in Hl.
    unfold len in *. lia. }
  split; [unfold len; lia|]. split; [exact Hn|].
  unfold slice, norm_index.
  destruct (start + len pre <? 0)%Z eqn:E3; [unfold len in *; lia|].
  destruct (start + len pre + len sub <? 0)%Z eqn:E4; [unfold len in *; lia|].
  rewrite !Z.min_l by (unfold len in *; lia).
  replace (start + len pre + len sub - (start + len pre))%Z with (len sub) by lia.
  rewrite Htext at 1. rewrite <- Hl, skipn_app, skipn_all, Nat.sub_diag.
  cbn. unfold len. rewrite Nat2Z.id.
  change (drop 0 (sub ++ post)) with (sub ++ post).
  now rewrite take_app_length.
Qed.

Lemma newline_starts_bound s : forall i p,
  In p (newline_starts s i) -> (i <= p < i + len s)%Z.
Proof.
  unfold len. induction s as [|c s IH]; intros i p; cbn; [contradiction|].
  destruct (c =? nl)%N; cbn.
  - intros [<-|Hin]; [lia|]. apply IH in Hin. lia.
  - intros Hin. apply IH in Hin. lia.
Qed.

(** [l[:k]] is a prefix of [l], whatever the sign of [k]. *)
Lemma slice_to_prefix {A : Type} (l : list A) (k : Z) :
  slice_to l k = take (Z.to_nat (norm_index (len l) k)) l.
Proof.
  unfold slice_to, slice.
  assert (H0 : norm_index (len l) 0 = 0%Z).
  { unfold norm_index, len. change (0 <? 0)%Z with false. cbv iota. lia. }
  rewrite H0, Z.sub_0_r. reflexivity.
Qed.

Lemma slice_to_take {A : Type} (l : list A) (k : Z) :
  (0 <= k)%Z -> slice_to l k = take (Z.to_nat k) l.
Proof.
  intros Hk. rewrite slice_to_prefix.
  assert (Hk' : norm_index (len l) k = Z.min k (len l)).
  { unfold norm_index. destruct (k <? 0)%Z eqn:E; [lia|reflexivity]. }
  rewrite Hk'. unfold len.
  destruct (Z.le_ge_cases k (Z.of_nat (length l))) as [Hle|Hge].
  - now rewrite Z.min_l by lia.
  - rewrite Z.min_r by lia. rewrite Nat2Z.id.
    rewrite (firstn_all2 (n:=Z.to_nat k)) by lia.
    now rewrite firstn_all.
Qed.

End PyFacts.

(** * Properties of the chunkers *)

Module ChunkingFacts.
Import Py PyFacts Chunking ChunkingSpec.

Lemma new_ChunkConfig_Ok cs co mn sn rs c :
  new_ChunkConfig cs co mn sn rs = Ok c ->
  c = mkChunkConfig cs co mn sn rs /\ valid c.
Proof.
  unfold new_ChunkConfig, __post_init__, valid; cbn.
  destruct (cs <=? 0) eqn:E1; [discriminate|].
  destruct (co <? 0) eqn:E2; [discriminate|].
  destruct (co >=? cs) eqn:E3; [discriminate|].
  destruct (mn <=? 0) eqn:E4; [discriminate|].
  destruct (mn >? cs) eqn:E5; [discriminate|].
  cbn. intros [= <-]. cbn. split; [reflexivity|]. lia.
Qed.

Lemma new_ChunkConfig_valid c :
  valid c ->
  new_ChunkConfig (chunk_size c) (chunk_overlap c) (min_chunk_size c)
    (split_on_newline c) (respect_sentences c) = Ok c.
Proof.
  destruct c as [cs co mn sn rs]; unfold valid, new_ChunkConfig, __post_init__; cbn.
  intros (H1 & H2 & H3).
  destruct (cs <=? 0) eqn:E1; [lia|].
  destruct (co <? 0) eqn:E2; [lia|].
  destruct (co >=? cs) eqn:E3; [lia|].
  destruct (mn <=? 0) eqn:E4; [lia|].
  destruct (mn >? cs) eqn:E5; [lia|].
  reflexivity.
Qed.

(** ** The index discipline of the emitter *)

Lemma indexed_init : indexed (mkEmitter [] 0).
Proof. split; reflexivity. Qed.

Lemma append_chunk_indexed md t start e :
  indexed e -> indexed (append_chunk md t start e).
Proof.
  intros [Hn Hm]. unfold indexed, append_chunk, len in *; cbn.
  rewrite !length_app; cbn. split; [lia|].
  rewrite map_app, Hm, Nat.add_1_r, seq_S, map_app; cbn.
  now rewrite Hn.
Qed.

Create HintDb chunking.
#[local] Hint Resolve indexed_init append_chunk_indexed : chunking.

(** ** The simple chunker *)

Section Simple.
Variable config : ChunkConfig.

(** The guard of the last statement of the loop body compares the cursor
    with itself, so the branch is always taken. *)
Lemma advance_is_chunk_end chunk_end :
  SimpleChunker.advance config chunk_end = chunk_end.
Proof. unfold SimpleChunker.advance. now rewrite Z.leb_refl. Qed.

Lemma window_end_progress text current_pos :
  0 < chunk_size config -> 0 <= min_chunk_size config ->
  current_pos < len text ->
  current_pos < SimpleChunker.window_end config text current_pos.
Proof.
  intros HS Hm Hlt. unfold SimpleChunker.window_end.
  repeat match goal with
         | |- context [if ?b then _ else _] => destruct b eqn:?
         end; lia.
Qed.

Lemma emit_lines_indexed text md pos lines e :
  indexed e -> indexed (SimpleChunker.emit_lines text md pos lines e).
Proof.
  unfold SimpleChunker.emit_lines. revert e.
  induction lines as [|l lines IH]; intros e He; cbn; [assumption|].
  apply IH. destruct (nonempty _); auto with chunking.
Qed.

Lemma emit_window_indexed text md pos chunk_end e :
  indexed e -> indexed (SimpleChunker.emit_window config text md pos chunk_end e).
Proof.
  intros He. unfold SimpleChunker.emit_window.
  destruct (nonempty _); [|assumption].
  destruct (_ && _).
  - destruct (nonempty _); auto using emit_lines_indexed with chunking.
  - destruct (nonempty _); auto with chunking.
Qed.

Lemma chunk_loop_indexed fuel text md pos e e' :
  indexed e ->
  SimpleChunker.chunk_loop config fuel text md pos e = Ok e' -> indexed e'.
Proof.
  revert pos e. induction fuel as [|fuel IH]; intros pos e He; cbn.
  - destruct (negb _); [intros [= <-]; assumption|discriminate].
  - destruct (negb _); [intros [= <-]; assumption|].
    apply IH. now apply emit_window_indexed.
Qed.

(** With a positive chunk size every pass moves the cursor forward, so the
    loop is over before the fuel is. *)
Lemma chunk_loop_terminates fuel text md pos e :
  0 < chunk_size config -> 0 <= min_chunk_size config ->
  len text <= pos + Z.of_nat fuel ->
  exists e', SimpleChunker.chunk_loop config fuel text md pos e = Ok e'.
Proof.
  intros HS Hm. revert pos e.
  induction fuel as [|fuel IH]; intros pos e Hf; cbn.
  - destruct (pos <? len text) eqn:E; cbn; [lia|eauto].
  - destruct (pos <? len text) eqn:E; cbn; [|eauto].
    apply IH. rewrite advance_is_chunk_end.
    pose proof (window_end_progress text pos HS Hm ltac:(lia)). lia.
Qed.

Lemma simple_chunk_text_total text metadata :
  valid config ->
  exists cs, SimpleChunker.chunk_text config text metadata = Ok cs
             /\ map chunk_index cs = map Z.of_nat (seq 0 (length cs)).
Proof.
  intros (HS & _ & Hm & _). unfold SimpleChunker.chunk_text.
  destruct (nonempty text); cbn; [|exists []; split; reflexivity].
  destruct (chunk_loop_terminates (length text) text
              (metadata_or_empty metadata) 0 (mkEmitter [] 0) HS)
    as [e' He']; [lia|unfold len; lia|].
  rewrite He'. cbn. exists (chunks e'). split; [reflexivity|].
  eapply chunk_loop_indexed in He'; [apply He'|apply indexed_init].
Qed.

(** ** The size and the offsets of the chunks of the simple chunker *)

Lemma find_newline_boundary_le text start_pos end_pos :
  0 <= start_pos <= end_pos ->
  SimpleChunker._find_newline_boundary config text start_pos end_pos <= end_pos.
Proof.
  intros Hse. unfold SimpleChunker._find_newline_boundary.
  destruct (List.filter _ _) as [|b bs] eqn:Hb; [lia|].
  destruct (List.find _ (b :: bs)) as [p|] eqn:Hf; [|lia].
  apply find_some in Hf as [Hin _]. rewrite <- Hb in Hin.
  apply filter_In in Hin as [Hin _].
  apply newline_starts_bound in Hin.
  pose proof (slice_len_le text start_pos end_pos ltac:(lia) ltac:(lia)). lia.
Qed.

Lemma find_sentence_boundary_le text start_pos end_pos :
  SimpleChunker._find_sentence_boundary config text start_pos end_pos <= end_pos.
Proof.
  unfold SimpleChunker._find_sentence_boundary.
  destruct (List.filter _ _) as [|b bs]; [lia|].
  destruct (List.find _ _) as [p|] eqn:Hf; [|lia].
  apply find_some in Hf as [_ Hle]. lia.
Qed.

Lemma window_end_le text current_pos :
  0 < chunk_size config -> 0 <= current_pos < len text ->
  SimpleChunker.window_end config text current_pos
  <= current_pos + chunk_size config.
Proof.
  intros HS Hpos. unfold SimpleChunker.window_end.
  set (e0 := Z.min _ _). assert (He0 : current_pos <= e0 <= current_pos + chunk_size config)
    by (subst e0; lia).
  pose proof (find_newline_boundary_le text current_pos e0 ltac:(lia)) as Hnb.
  set (e1 := if split_on_newline config && (e0 <? len text) then _ else e0).
  assert (He1 : e1 <= e0).
  { subst e1. destruct (_ && _); [|lia]. destruct (_ >? _); lia. }
  clearbody e1.
  pose proof (find_sentence_boundary_le text current_pos e1) as Hsb.
  destruct (_ && _); [|lia]. destruct (_ >? _); lia.
Qed.

(** What is known of a piece before it is appended: it occurs in the text
    from the cursor on, and it is not longer than a chunk may be. *)
#[local] Abbreviation fits text pos :=
  (fun piece : str =>
     occurs piece (skipn (Z.to_nat pos) text) /\ len piece <= chunk_size config).

#[local] Abbreviation sound text :=
  (fun c : TextChunk dict => within_size config c /\ located text c).

Lemma fits_strip text pos piece : fits text pos piece -> fits text pos (strip piece).
Proof.
  intros [Hocc Hlen]. pose proof (strip_occurs piece) as Hs. split.
  - eapply occurs_trans; eassumption.
  - apply occurs_length in Hs. unfold len in *. lia.
Qed.

Lemma fits_occurs text pos piece piece' :
  fits text pos piece -> occurs piece' piece -> fits text pos piece'.
Proof.
  intros [Hocc Hlen] Hs. split.
  - eapply occurs_trans; eassumption.
  - apply occurs_length in Hs. unfold len in *. lia.
Qed.

Lemma append_chunk_sound text md pos piece e :
  0 <= pos <= len text -> fits text pos piece ->
  Forall (sound text) (chunks e) ->
  Forall (sound text)
    (chunks (append_chunk md piece (find_from text piece pos) e)).
Proof.
  intros Hpos [Hocc Hlen] He. cbn. apply Forall_app. split; [assumption|].
  destruct (find_from_occurs text piece pos Hpos Hocc) as (Hr & Hend & Hslice).
  repeat constructor; cbn; try assumption; unfold len in *; lia.
Qed.

Lemma emit_lines_sound text md pos lines : forall e,
  0 <= pos <= len text -> Forall (fits text pos) lines ->
  Forall (sound text) (chunks e) ->
  Forall (sound text) (chunks (SimpleChunker.emit_lines text md pos lines e)).
Proof.
  unfold SimpleChunker.emit_lines.
  induction lines as [|l lines IH]; intros e Hpos Hl He; cbn; [assumption|].
  apply Forall_cons in Hl as [Hl Hls]. apply IH; [assumption|assumption|].
  destruct (nonempty _); [|assumption].
  apply append_chunk_sound; auto using fits_strip.
Qed.

Lemma emit_window_sound text md pos chunk_end e :
  0 < chunk_size config -> 0 <= pos <= len text ->
  0 <= chunk_end <= pos + chunk_size config ->
  Forall (sound text) (chunks e) ->
  Forall (sound text)
    (chunks (SimpleChunker.emit_window config text md pos chunk_end e)).
Proof.
  intros HS Hpos Hend He. unfold SimpleChunker.emit_window.
  assert (Hw : fits text pos (slice text pos chunk_end)).
  { split.
    - destruct (slice_prefix text pos chunk_end ltac:(lia)) as [post Hp].
      exists [], post. exact Hp.
    - pose proof (slice_len_le text pos chunk_end ltac:(lia) ltac:(lia)). lia. }
  apply fits_strip in Hw. set (chunk_text := strip _) in *.
  destruct (nonempty chunk_text); [|assumption].
  assert (Hlines : Forall (fits text pos) (split_nl chunk_text)).
  { eapply Forall_impl; [apply split_nl_occurs|]. cbn. intros q Hq.
    eapply fits_occurs; eassumption. }
  assert (Hnil : fits text pos []).
  { split; [apply occurs_nil|unfold len; cbn; lia]. }
  destruct (_ && _).
  - destruct (nonempty _) eqn:Hne.
    + apply append_chunk_sound; [assumption| |].
      * apply fits_strip. now apply Forall_last.
      * apply emit_lines_sound; auto using Forall_removelast.
    + apply emit_lines_sound; auto using Forall_removelast.
  - destruct (nonempty _); [|assumption].
    now apply append_chunk_sound.
Qed.

Lemma window_end_nonneg text current_pos :
  0 < chunk_size config -> 0 <= min_chunk_size config ->
  0 <= current_pos < len text ->
  0 <= SimpleChunker.window_end config text current_pos.
Proof.
  intros HS Hm Hpos.
  pose proof (window_end_progress text current_pos HS Hm ltac:(lia)). lia.
Qed.

Lemma chunk_loop_sound fuel text md : forall pos e e',
  0 < chunk_size config -> 0 <= min_chunk_size config ->
  0 <= pos -> Forall (sound text) (chunks e) ->
  SimpleChunker.chunk_loop config fuel text md pos e = Ok e' ->
  Forall (sound text) (chunks e').
Proof.
  induction fuel as [|fuel IH]; intros pos e e' HS Hm Hpos He; cbn.
  - destruct (negb _); [intros [= <-]; assumption|discriminate].
  - destruct (pos <? len text) eqn:E; cbn; [|intros [= <-]; assumption].
    pose proof (window_end_progress text pos HS Hm ltac:(lia)) as Hprog.
    pose proof (window_end_le text pos HS ltac:(lia)) as Hle.
    apply IH; try assumption.
    + rewrite advance_is_chunk_end. lia.
    + apply emit_window_sound; try assumption; lia.
Qed.

(** Every chunk of the simple chunker is within the size and carries
    offsets of the source. *)
Lemma simple_chunks_sound text metadata chunks :
  valid config ->
  SimpleChunker.chunk_text config text metadata = Ok chunks ->
  Forall (fun c => within_size config c /\ located text c) chunks.
Proof.
  intros (HS & _ & Hm & _). unfold SimpleChunker.chunk_text.
  destruct (nonempty text); cbn; [|intros [= <-]; constructor].
  destruct (SimpleChunker.chunk_loop _ _ _ _ _ _) as [e'| |] eqn:Hloop; cbn;
    try discriminate.
  intros [= <-].
  eapply chunk_loop_sound in Hloop; try eassumption; try lia. constructor.
Qed.

End Simple.

(** ** The recursive chunker *)

Section Recursive.
Variable config : ChunkConfig.
Variable text : str.
Variable md : dict.
Hypothesis size_pos : 0 < chunk_size config.

#[local] Abbreviation acc_ok a := (indexed (RecursiveChunker.out a)).

Lemma flush_indexed a : acc_ok a -> acc_ok (RecursiveChunker.flush text md a).
Proof. intros; cbn; auto with chunking. Qed.

Lemma hard_split_total sentence a :
  acc_ok a ->
  exists a', RecursiveChunker.hard_split config text md sentence a = Ok a'
             /\ acc_ok a'.
Proof.
  intros Ha. unfold RecursiveChunker.hard_split, range0.
  destruct (chunk_size config =? 0) eqn:E0; [lia|].
  destruct (chunk_size config <? 0) eqn:E1; [lia|]. cbn.
  eexists; split; [reflexivity|].
  generalize (range_go (Z.to_nat (len sentence)) 0 (len sentence) (chunk_size config)).
  intros offs. revert a Ha.
  induction offs as [|i offs IH]; intros a Ha; cbn; [assumption|].
  apply IH; cbn; auto with chunking.
Qed.

Lemma sentence_step_total sentence a :
  acc_ok a ->
  exists a', RecursiveChunker.sentence_step config text md sentence a = Ok a'
             /\ acc_ok a'.
Proof.
  intros Ha. unfold RecursiveChunker.sentence_step.
  destruct (_ >? _); [now apply hard_split_total|].
  eexists; split; [reflexivity|].
  destruct (_ >? _); [apply flush_indexed|]; cbn; assumption.
Qed.

Lemma sentence_loop_total sentences a :
  acc_ok a ->
  exists a', RecursiveChunker.sentence_loop config text md sentences a = Ok a'
             /\ acc_ok a'.
Proof.
  revert a. induction sentences as [|s ss IH]; intros a Ha; cbn; [eauto|].
  destruct (sentence_step_total s a Ha) as (a1 & -> & Ha1). cbn. now apply IH.
Qed.

Lemma subsection_step_total subsection a :
  acc_ok a ->
  exists a', RecursiveChunker.subsection_step config text md subsection a = Ok a'
             /\ acc_ok a'.
Proof.
  intros Ha. unfold RecursiveChunker.subsection_step.
  destruct (negb _); [eauto|].
  set (a1 := if _ && _ then _ else a).
  assert (Ha1 : acc_ok a1) by (subst a1; destruct (_ && _); auto using flush_indexed).
  clearbody a1.
  destruct (_ >? _); [now apply sentence_loop_total|].
  eexists; split; [reflexivity|]. cbn. assumption.
Qed.

Lemma subsection_loop_total subsections a :
  acc_ok a ->
  exists a', RecursiveChunker.subsection_loop config text md subsections a = Ok a'
             /\ acc_ok a'.
Proof.
  revert a. induction subsections as [|s ss IH]; intros a Ha; cbn; [eauto|].
  destruct (subsection_step_total s a Ha) as (a1 & -> & Ha1). cbn. now apply IH.
Qed.

Lemma section_step_total section e :
  indexed e ->
  exists e', RecursiveChunker.section_step config text md section e = Ok e'
             /\ indexed e'.
Proof.
  intros He. unfold RecursiveChunker.section_step.
  destruct (negb _); [eauto|].
  destruct (_ <=? _); [eauto with chunking|].
  destruct (subsection_loop_total (split_nl (strip section))
              (RecursiveChunker.mkAcc e [] 0) He) as (a & -> & Ha).
  cbn. eexists; split; [reflexivity|].
  destruct (nonempty _); auto using flush_indexed.
Qed.

Lemma section_loop_total sections e :
  indexed e ->
  exists e', RecursiveChunker.section_loop config text md sections e = Ok e'
             /\ indexed e'.
Proof.
  revert e. induction sections as [|s ss IH]; intros e He; cbn; [eauto|].
  destruct (section_step_total s e He) as (e1 & -> & He1). cbn. now apply IH.
Qed.

End Recursive.

Lemma recursive_chunk_text_total config text metadata :
  valid config ->
  exists cs, RecursiveChunker.chunk_text config text metadata = Ok cs
             /\ map chunk_index cs = map Z.of_nat (seq 0 (length cs)).
Proof.
  intros (HS & _). unfold RecursiveChunker.chunk_text.
  destruct (nonempty text); cbn; [|exists []; split; reflexivity].
  destruct (section_loop_total config text (metadata_or_empty metadata) HS
              (split_blank_lines text) (mkEmitter [] 0) indexed_init)
    as (e & -> & He).
  cbn. exists (chunks e). split; [reflexivity|apply He].
Qed.

(** ** The claims about the chunkers *)

(** C6.  For a configuration that passed construction, and for every text
    and metadata, each of the two strategies returns a list of chunks
    whose [chunk_index] values are 0, 1, ..., n-1 in list order. *)
Theorem chunk_indices_contiguous cs co mn sn rs config text metadata :
  new_ChunkConfig cs co mn sn rs = Ok config ->
  (exists chunks,
      SimpleChunker.chunk_text config text metadata = Ok chunks
      /\ map chunk_index chunks = map Z.of_nat (seq 0 (length chunks)))
  /\ (exists chunks,
      RecursiveChunker.chunk_text config text metadata = Ok chunks
      /\ map chunk_index chunks = map Z.of_nat (seq 0 (length chunks))).
Proof.
  intros Hc. apply new_ChunkConfig_Ok in Hc as [_ Hv]. split.
  - now apply simple_chunk_text_total.
  - now apply recursive_chunk_text_total.
Qed.

Lemma chunk_indices_contiguous_witness :
  let config := mkChunkConfig 6 2 1 true true in
  let text := lit "One. Two three four." ++ [nl; nl] ++ lit "Five" in
  (exists chunks,
      SimpleChunker.chunk_text config text None = Ok chunks
      /\ map chunk_index chunks = map Z.of_nat (seq 0 (length chunks)))
  /\ (exists chunks,
      RecursiveChunker.chunk_text config text None = Ok chunks
      /\ map chunk_index chunks = map Z.of_nat (seq 0 (length chunks))).
Proof.
  exact (chunk_indices_contiguous 6 2 1 true true _ _ None eq_refl).
Defined.

(** C2.  The cursor of [SimpleChunker.chunk_text] is meant to move to
    [end - chunk_overlap] whenever that is past the previous cursor.  On
    the text below the first window is [0, 8) and [8 - 3 = 5] is past the
    previous cursor 0, yet the next cursor is 8: the overlap is dropped,
    and the second chunk starts at 8. *)
Theorem simple_cursor_drops_overlap :
  let config := mkChunkConfig 8 3 1 false false in
  let text := lit "abcdefghijklmnop" in
  new_ChunkConfig 8 3 1 false false = Ok config
  /\ SimpleChunker.window_end config text 0 = 8
  /\ 0 < 8 - chunk_overlap config
  /\ SimpleChunker.advance config 8 = 8
  /\ SimpleChunker.advance config 8 <> 8 - chunk_overlap config
  /\ SimpleChunker.chunk_text config text None
     = Ok [mkTextChunk (lit "abcdefgh") ∅ 0 8 0;
           mkTextChunk (lit "ijklmnop") ∅ 8 16 1].
Proof. cbv zeta. repeat split; try reflexivity; vm_compute; congruence. Qed.

(** C1.  [RecursiveChunker.chunk_text] returns a chunk longer than
    [chunk_size] without any sentence being longer than [chunk_size]: two
    lines of two characters are buffered (their lengths add up to 4, the
    chunk size) and saved joined by a newline, five characters in all. *)
Theorem recursive_chunk_exceeds_chunk_size :
  let config := mkChunkConfig 4 0 1 true true in
  let text := lit "ab" ++ [nl] ++ lit "cd" in
  new_ChunkConfig 4 0 1 true true = Ok config
  /\ Forall (fun line => len line <= chunk_size config) (split_nl text)
  /\ RecursiveChunker.chunk_text config text None
     = Ok [mkTextChunk text ∅ 0 5 0]
  /\ chunk_size config < len text.
Proof.
  cbv zeta. split; [reflexivity|]. split.
  - vm_compute. repeat constructor; discriminate.
  - split; [reflexivity|]. vm_compute. reflexivity.
Qed.

(** C9.  [RecursiveChunker.chunk_text] returns a chunk whose offsets are
    not positions of the text: the lines are stripped before they are
    joined, so the chunk text does not occur in the source, [text.find]
    answers -1, and the chunk carries [start_char = -1] and
    [end_char = 4]. *)
Theorem recursive_chunk_offsets_not_in_source :
  let config := mkChunkConfig 4 0 1 true true in
  let text := lit "ab " ++ [nl] ++ lit "cd" in
  let chunk := mkTextChunk (lit "ab" ++ [nl] ++ lit "cd") ∅ (-1) 4 0 in
  new_ChunkConfig 4 0 1 true true = Ok config
  /\ RecursiveChunker.chunk_text config text None = Ok [chunk]
  /\ start_char chunk < 0
  /\ slice text (start_char chunk) (end_char chunk) <> Chunking.text chunk.
Proof.
  cbv zeta. repeat split; try reflexivity. vm_compute. discriminate.
Qed.

End ChunkingFacts.

(** * Properties of the numeric helpers *)

Module NpFacts.
Import Np NpSpec.
Open Scope R_scope.

Lemma Rltb_true a b : a < b -> Rltb a b = true.
Proof. unfold Rltb; destruct (Rlt_dec a b); [reflexivity|contradiction]. Qed.

Lemma Rltb_false a b : ~ a < b -> Rltb a b = false.
Proof. unfold Rltb; destruct (Rlt_dec a b); [contradiction|reflexivity]. Qed.

Lemma Rleb_true a b : a <= b -> Rleb a b = true.
Proof. unfold Rleb; destruct (Rle_dec a b); [reflexivity|contradiction]. Qed.

Lemma Rleb_false a b : ~ a <= b -> Rleb a b = false.
Proof. unfold Rleb; destruct (Rle_dec a b); [contradiction|reflexivity]. Qed.

Lemma Rltb_spec a b : Rltb a b = true <-> a < b.
Proof. unfold Rltb; destruct (Rlt_dec a b); split; auto; discriminate. Qed.

Lemma Rleb_spec a b : Rleb a b = true <-> a <= b.
Proof. unfold Rleb; destruct (Rle_dec a b); split; auto; discriminate. Qed.





Lemma dot_div a b c d : dot (div a c) (div b d) = dot a b / (c * d).
Proof.
  unfold div.
  revert b; induction a as [|x a IH]; intros [|y b]; cbn;
    try (unfold Rdiv; ring).
  rewrite IH. unfold Rdiv.
  destruct (Req_dec c 0) as [->|Hc].
  { rewrite !Rmult_0_l, Rinv_0. ring. }
  destruct (Req_dec d 0) as [->|Hd].
  { rewrite !Rmult_0_r, Rinv_0. ring. }
  field. split; assumption.
Qed.

Lemma length_div a c : length (div a c) = length a.
Proof. apply length_map. Qed.











(** ** The stable sorts *)

Section SortFacts.
Context {A : Type} (key : A -> R).

#[local] Abbreviation descending := (NpSpec.descending key).
#[local] Abbreviation ascending := (NpSpec.ascending key).

Lemma insert_desc_perm x l : insert_desc key x l ≡ₚ x :: l.
Proof.
  induction l as [|y l IH]; cbn; [reflexivity|].
  destruct (Rltb _ _); [|reflexivity].
  rewrite IH. apply Permutation_swap.
Qed.

Lemma sort_desc_perm l : sort_desc key l ≡ₚ l.
Proof.
  induction l as [|x l IH]; cbn; [reflexivity|].
  rewrite insert_desc_perm. now constructor.
Qed.

Lemma insert_asc_perm x l : insert_asc key x l ≡ₚ x :: l.
Proof.
  induction l as [|y l IH]; cbn; [reflexivity|].
  destruct (Rltb _ _); [|reflexivity].
  rewrite IH. apply Permutation_swap.
Qed.

Lemma sort_asc_perm l : sort_asc key l ≡ₚ l.
Proof.
  induction l as [|x l IH]; cbn; [reflexivity|].
  rewrite insert_asc_perm. now constructor.
Qed.

Lemma insert_desc_sorted x l : descending l -> descending (insert_desc key x l).
Proof.
  unfold descending. induction l as [|y l IH]; cbn; intros Hs.
  - repeat constructor.
  - destruct (Rltb (key x) (key y)) eqn:E.
    + apply Sorted_inv in Hs as [Hs Hh]. constructor; [now apply IH|].
      apply Rltb_spec in E.
      destruct l as [|z l]; cbn; [constructor; lra|].
      destruct (Rltb (key x) (key z)); constructor; [|lra].
      now inversion Hh.
    + constructor; [assumption|]. constructor.
      destruct (Rlt_dec (key x) (key y)) as [Hlt|Hge]; [|lra].
      apply Rltb_true in Hlt. congruence.
Qed.

Lemma sort_desc_sorted l : descending (sort_desc key l).
Proof.
  induction l as [|x l IH]; cbn; [constructor|now apply insert_desc_sorted].
Qed.

Lemma insert_asc_sorted x l : ascending l -> ascending (insert_asc key x l).
Proof.
  unfold ascending. induction l as [|y l IH]; cbn; intros Hs.
  - repeat constructor.
  - destruct (Rltb (key y) (key x)) eqn:E.
    + apply Sorted_inv in Hs as [Hs Hh]. constructor; [now apply IH|].
      apply Rltb_spec in E.
      destruct l as [|z l]; cbn; [constructor; lra|].
      destruct (Rltb (key z) (key x)); constructor; [|lra].
      now inversion Hh.
    + constructor; [assumption|]. constructor.
      destruct (Rlt_dec (key y) (key x)) as [Hlt|Hge]; [|lra].
      apply Rltb_true in Hlt. congruence.
Qed.

Lemma sort_asc_sorted l : ascending (sort_asc key l).
Proof.
  induction l as [|x l IH]; cbn; [constructor|now apply insert_asc_sorted].
Qed.

(** The head of a descending list dominates the list. *)
Lemma descending_head x l y : descending (x :: l) -> y ∈ x :: l -> key y <= key x.
Proof.
  intros Hs Hy. apply Sorted_StronglySorted in Hs; [|intros a b c Hab Hbc; cbn in *; lra].
  apply StronglySorted_inv in Hs as [_ Hall].
  apply elem_of_cons in Hy as [->|Hy]; [lra|].
  rewrite Forall_forall in Hall. now apply Hall.
Qed.


Lemma descending_take (l : list A) n : descending l -> descending (take n l).
Proof.
  unfold descending. revert n; induction l as [|x l IH]; intros [|n] Hs; cbn;
    try constructor.
  - apply IH. now inversion Hs.
  - inversion Hs as [|? ? _ Hh]; subst.
    destruct l, n; cbn; constructor. now inversion Hh.
Qed.

Lemma ascending_take (l : list A) n : ascending l -> ascending (take n l).
Proof.
  unfold ascending. revert n; induction l as [|x l IH]; intros [|n] Hs; cbn;
    try constructor.
  - apply IH. now inversion Hs.
  - inversion Hs as [|? ? _ Hh]; subst.
    destruct l, n; cbn; constructor. now inversion Hh.
Qed.

(** A stable descending sort leaves a descending list as it is. *)
Lemma sort_desc_id l : descending l -> sort_desc key l = l.
Proof.
  unfold descending. induction 1 as [|x l Hs IH Hh]; [reflexivity|].
  change (sort_desc key (x :: l)) with (insert_desc key x (sort_desc key l)).
  rewrite IH. destruct Hh as [|y l Hyx]; cbn; [reflexivity|].
  rewrite Rltb_false by lra. reflexivity.
Qed.

Lemma descending_sublist l l' :
  l' `sublist_of` l -> descending l -> descending l'.
Proof.
  unfold descending. intros Hsub Hs.
  apply Sorted_StronglySorted in Hs; [|intros a b c Hab Hbc; cbn in *; lra].
  apply StronglySorted_Sorted.
  induction Hsub as [|x l1 l2 Hsub IH|x l1 l2 Hsub IH].
  - constructor.
  - apply StronglySorted_inv in Hs as [Hs Hall]. constructor; [auto|].
    rewrite Forall_forall in Hall |- *. intros y Hy. apply Hall.
    now apply (elem_of_sublist _ _ y Hy Hsub).
  - apply StronglySorted_inv in Hs as [Hs _]. auto.
Qed.

End SortFacts.

(** Two lists with the same keys are sorted together. *)
Lemma descending_map {A B : Type} (f : A -> R) (g : B -> R) l l' :
  map f l = map g l' -> descending g l' -> descending f l.
Proof.
  unfold descending. revert l'.
  induction l as [|x l IH]; intros [|y l']; cbn; intros Hm Hs;
    try discriminate; [constructor|].
  injection Hm as Hxy Hm. inversion Hs as [|? ? Hs' Hh]; subst.
  constructor; [now apply (IH l')|].
  destruct l as [|x' l], l' as [|y' l']; try discriminate; constructor.
  cbn in Hm. injection Hm as Hxy' _. inversion Hh; subst. lra.
Qed.

Lemma ascending_map {A B : Type} (f : A -> R) (g : B -> R) l l' :
  map f l = map g l' -> ascending g l' -> ascending f l.
Proof.
  unfold ascending. revert l'.
  induction l as [|x l IH]; intros [|y l']; cbn; intros Hm Hs;
    try discriminate; [constructor|].
  injection Hm as Hxy Hm. inversion Hs as [|? ? Hs' Hh]; subst.
  constructor; [now apply (IH l')|].
  destruct l as [|x' l], l' as [|y' l']; try discriminate; constructor.
  cbn in Hm. injection Hm as Hxy' _. inversion Hh; subst. lra.
Qed.

End NpFacts.

(** * The first element of a stable sort *)

Module NpFacts2.
Import Np NpSpec NpFacts.
Open Scope R_scope.

Section SortFirst.
Context {A : Type} (key : A -> R).



End SortFirst.

End NpFacts2.

(** * Properties of the dictionary store *)

Module MemoryStoreFacts.
Import Py PyFacts Np NpSpec NpFacts MemoryStore MemoryStoreSpec.
Open Scope R_scope.

Lemma od_get_set_eq {V : Type} (d : odict V) k v : od_get (od_set d k v) k = Some v.
Proof.
  induction d as [|[k' v'] d IH]; cbn.
  - now rewrite String.eqb_refl.
  - destruct (String.eqb k' k) eqn:E; cbn; [now rewrite String.eqb_refl|].
    now rewrite E.
Qed.

Lemma od_get_set_ne {V : Type} (d : odict V) k k' v :
  k <> k' -> od_get (od_set d k v) k' = od_get d k'.
Proof.
  intros Hne. induction d as [|[k0 v0] d IH]; cbn.
  - apply String.eqb_neq in Hne. now rewrite Hne.
  - destruct (String.eqb k0 k) eqn:E; cbn.
    + apply String.eqb_eq in E as ->.
      apply String.eqb_neq in Hne. now rewrite Hne.
    + now rewrite IH.
Qed.

Lemma od_set_Forall {V : Type} (P : V -> Prop) (d : odict V) k v :
  Forall (fun kv => P (snd kv)) d -> P v ->
  Forall (fun kv => P (snd kv)) (od_set d k v).
Proof.
  intros Hd Hv. induction Hd as [|[k' v'] d Hkv Hd IH]; cbn.
  - now repeat constructor.
  - destruct (String.eqb k' k); constructor; auto.
Qed.

Lemma od_get_Forall {V : Type} (P : V -> Prop) (d : odict V) k v :
  Forall (fun kv => P (snd kv)) d -> od_get d k = Some v -> P v.
Proof.
  intros Hd. induction Hd as [|[k' v'] d Hkv Hd IH]; cbn; [discriminate|].
  destruct (String.eqb k' k); [intros [= <-]; exact Hkv|exact IH].
Qed.

(** ** What insertion stores *)







(** ** What the insertion loop does to the three dictionaries *)

Lemma add_loop_spec pairs : forall self i metadata (ids : list string),
  (i + length pairs <= length ids)%nat ->
  exists self',
    add_loop self i pairs metadata ids = (self', Ok tt)
    /\ (forall j text e id,
          pairs !! j = Some (text, e) -> ids !! (i + j)%nat = Some id ->
          (forall j', (j < j' < length pairs)%nat -> ids !! (i + j')%nat <> Some id) ->
          od_get (_texts self') id = Some text
          /\ od_get (_embeddings self') id = Some (normalized e))
    /\ (forall id,
          (forall j, (j < length pairs)%nat -> ids !! (i + j)%nat <> Some id) ->
          same_at self self' id).
Proof.
  induction pairs as [|[text0 e0] pairs IH]; intros self i metadata ids Hlen.
  - exists self. cbn. split; [reflexivity|]. split.
    + intros j text e id Hj. now rewrite lookup_nil in Hj.
    + intros id _. repeat split.
  - cbn in Hlen |- *.
    destruct (ids !! i) as [id0|] eqn:Hid0;
      [|apply lookup_ge_None in Hid0; lia].
    destruct (IH (store_one self i id0 text0 e0 metadata) (S i) metadata ids
                ltac:(lia)) as (self' & -> & Hstored & Hsame).
    exists self'. split; [reflexivity|]. split.
    + intros [|j] text e id Hj Hid Hlater; cbn in Hj.
      * injection Hj as <- <-. rewrite Nat.add_0_r, Hid0 in Hid.
        injection Hid as <-.
        destruct (Hsame id0) as (Ht & He & _).
        { intros j Hjlt. replace (S i + j)%nat with (i + S j)%nat by lia.
          apply Hlater. lia. }
        rewrite Ht, He. cbn. now rewrite !od_get_set_eq.
      * apply (Hstored j text e id Hj).
        { now replace (S i + j)%nat with (i + S j)%nat by lia. }
        intros j' Hj'. replace (S i + j')%nat with (i + S j')%nat by lia.
        apply Hlater. lia.
    + intros id Hfresh.
      assert (Hne : id0 <> id).
      { intros ->. apply (Hfresh 0%nat); [lia|]. now rewrite Nat.add_0_r. }
      destruct (Hsame id) as (Ht & He & Hm).
      { intros j Hjlt. replace (S i + j)%nat with (i + S j)%nat by lia.
        apply Hfresh. lia. }
      unfold same_at. rewrite Ht, He, Hm. cbn.
      now rewrite !od_get_set_ne by assumption.
Qed.

(** ** Searching with the embedding of a stored record *)



Lemma od_get_set {V : Type} (d : odict V) k k' v :
  is_Some (od_get d k') -> is_Some (od_get (od_set d k v) k').
Proof.
  intros Hs. destruct (String.eqb k k') eqn:E.
  - apply String.eqb_eq in E as ->. rewrite od_get_set_eq. eauto.
  - apply String.eqb_neq in E. now rewrite od_get_set_ne.
Qed.



Lemma add_loop_config pairs : forall self i metadata ids,
  config (fst (add_loop self i pairs metadata ids)) = config self.
Proof.
  induction pairs as [|[text e] pairs IH]; intros self i metadata ids; cbn;
    [reflexivity|].
  destruct (ids !! i); [|reflexivity]. now rewrite IH.
Qed.

Lemma add_texts_fst self texts embeddings metadata ids uuid4 :
  exists ids',
    fst (add_texts self texts embeddings metadata ids uuid4)
    = fst (add_loop self 0 (zip texts embeddings) metadata ids').
Proof.
  unfold add_texts.
  match goal with
  | |- context [add_loop ?s ?i ?p ?m ?l] =>
      exists l; destruct (add_loop s i p m l) as [self' [ | | ]]
  end; reflexivity.
Qed.





End MemoryStoreFacts.

(** * Properties of the list store *)

Module MemoryVectorStoreFacts.
Import Py PyFacts Np NpSpec NpFacts Embeddings VectorStoreBase MemoryVectorStore.
Import Examples.
Open Scope R_scope.

Lemma item_Some {A : Type} (l : list A) i x : l !! i = Some x -> item l i = Ok x.
Proof. unfold item. now intros ->. Qed.

Lemma add_text_as_given self h text metadata e :
  exists l h',
    add_text self h text metadata (Some e)
    = Ok (mkMemoryVectorStore (embeddings_provider self) (texts self ++ [text])
            (embeddings self ++ [e]) (metadatas self ++ [l]), h').
Proof.
  unfold add_text. cbn. destruct (metadata_or_new h metadata) as [l h'].
  now exists l, h'.
Qed.

Lemma add_texts_as_given self h new_texts ms es :
  add_texts self h new_texts (Some ms) (Some es)
  = Ok (mkMemoryVectorStore (embeddings_provider self) (texts self ++ new_texts)
          (embeddings self ++ es) (metadatas self ++ ms), h).
Proof. reflexivity. Qed.

(** ** The shape of the search results *)

Lemma to_results_spec self ranked : forall i results,
  to_results self i ranked = Ok results ->
  forall j sr, results !! j = Some sr ->
  exists idx sc t l,
    ranked !! j = Some (idx, sc)
    /\ texts self !! idx = Some t /\ metadatas self !! idx = Some l
    /\ sr = mkSearchResult
              (Chunking.mkTextChunk t l 0 (len t) (Z.of_nat (i + j))) sc.
Proof.
  induction ranked as [|[idx sc] ranked IH]; intros i results; cbn.
  - intros [= <-] j sr Hj. now rewrite lookup_nil in Hj.
  - unfold item.
    destruct (texts self !! idx) as [t|] eqn:Ht; cbn; [|discriminate].
    destruct (metadatas self !! idx) as [l|] eqn:Hl; cbn; [|discriminate].
    destruct (to_results self (S i) ranked) as [rs| |] eqn:Hrs; cbn;
      try discriminate.
    intros [= <-] [|j] sr Hj; cbn in Hj.
    + injection Hj as <-. exists idx, sc, t, l. rewrite Nat.add_0_r. auto.
    + destruct (IH _ _ Hrs j sr Hj) as (idx' & sc' & t' & l' & H1 & H2 & H3 & H4).
      exists idx', sc', t', l'. replace (i + S j)%nat with (S i + j)%nat by lia.
      auto.
Qed.

Lemma to_results_total self ranked : forall i,
  Forall (fun p => (fst p < length (texts self))%nat
                   /\ (fst p < length (metadatas self))%nat) ranked ->
  exists results,
    to_results self i ranked = Ok results /\ map score results = map snd ranked.
Proof.
  induction ranked as [|[idx sc] ranked IH]; intros i Hall; cbn.
  - now exists [].
  - apply Forall_cons in Hall as [[Ht Hm] Hall]. cbn in Ht, Hm.
    apply lookup_lt_is_Some_2 in Ht as [t Ht], Hm as [l Hl].
    unfold item. rewrite Ht, Hl. cbn.
    destruct (IH (S i) Hall) as (rs & -> & Hsc). cbn.
    eexists; split; [reflexivity|]. cbn. now rewrite Hsc.
Qed.


Lemma np_matvec_Ok rows q :
  Forall (fun row => length row = length q) rows ->
  np_matvec rows q = Ok (map (fun row => dot row q) rows).
Proof.
  intros Hall. unfold np_matvec.
  replace (forallb _ rows) with true; [reflexivity|].
  symmetry. apply forallb_forall. intros row Hin.
  apply bool_decide_eq_true. rewrite Forall_forall in Hall.
  apply Hall. now apply list_elem_of_In.
Qed.

Lemma to_results_scores self ranked : forall i results,
  to_results self i ranked = Ok results -> map score results = map snd ranked.
Proof.
  induction ranked as [|[idx sc] ranked IH]; intros i results; cbn.
  - now intros [= <-].
  - destruct (item (texts self) idx); cbn; try discriminate.
    destruct (item (metadatas self) idx); cbn; try discriminate.
    destruct (to_results self (Datatypes.S i) ranked) as [rs| |] eqn:Hrs; cbn;
      try discriminate.
    intros [= <-]. cbn. f_equal. now apply (IH (Datatypes.S i)).
Qed.

(** The results of a search are in descending order of score. *)
Lemma memory_search_descending self h q k min_score filters results :
  similarity_search self h q k min_score filters = Ok results ->
  descending score results.
Proof.
  unfold similarity_search. destruct (negb _).
  { intros [= <-]. constructor. }
  destruct (np_matvec _ _) as [sims| |]; cbn; try discriminate.
  destruct (collect _ _ _ _ _ _) as [res| |]; cbn; try discriminate.
  intros Hres. apply to_results_scores in Hres.
  eapply descending_map; [exact Hres|].
  rewrite slice_to_prefix. apply descending_take, sort_desc_sorted.
Qed.

(** Decide the comparisons of concrete reals left in a goal. *)
Ltac decide_R :=
  repeat match goal with
         | |- context [Rltb ?a ?b] =>
             first [rewrite (Rltb_true a b) by lra
                   |rewrite (Rltb_false a b) by lra]
         | |- context [Rleb ?a ?b] =>
             first [rewrite (Rleb_true a b) by lra
                   |rewrite (Rleb_false a b) by lra]
         end.

(** Evaluate a closed term that computes with reals: everything but the
    arithmetic of the reals is reduced, the comparisons are decided. *)
Ltac eval_R :=
  repeat (progress (cbv -[Rplus Rmult Rdiv Rinv Rminus Ropp IZR Rltb Rleb sqrt];
                    decide_R)).

Lemma two_records_search p h :
  similarity_search (two_records p) h [9 / 10; 1 / 10; 0] 2 0 None
  = Ok [mkSearchResult (Chunking.mkTextChunk (lit "Text 1") 1%positive 0 6 0)
          (1 * (9 / 10) + (0 * (1 / 10) + (0 * 0 + 0)));
        mkSearchResult (Chunking.mkTextChunk (lit "Text 2") 2%positive 0 6 1)
          (0 * (9 / 10) + (1 * (1 / 10) + (0 * 0 + 0)))].
Proof.
  eval_R. reflexivity.
Qed.

(** C10.  Every result of [MemoryVectorStore.similarity_search] carries a
    chunk that starts at 0, ends at the length of the stored text, holds
    the very reference the store keeps for that record, and whose
    [chunk_index] is the position of the result in the returned list. *)
Theorem search_chunk_is_rank_indexed self h query_embedding k min_score filters
    results :
  similarity_search self h query_embedding k min_score filters = Ok results ->
  forall i sr, results !! i = Some sr ->
    Chunking.start_char (chunk sr) = 0%Z
    /\ Chunking.chunk_index (chunk sr) = Z.of_nat i
    /\ Chunking.end_char (chunk sr) = len (Chunking.text (chunk sr))
    /\ exists idx,
         texts self !! idx = Some (Chunking.text (chunk sr))
         /\ metadatas self !! idx = Some (Chunking.metadata (chunk sr)).
Proof.
  unfold similarity_search. destruct (negb _).
  { intros [= <-] i sr Hi. now rewrite lookup_nil in Hi. }
  destruct (np_matvec _ _) as [sims| |]; cbn; try discriminate.
  destruct (collect _ _ _ _ _ _) as [res| |]; cbn; try discriminate.
  intros Hres i sr Hi.
  destruct (to_results_spec _ _ _ _ Hres i sr Hi)
    as (idx & sc & t & l & _ & Ht & Hl & ->).
  cbn. repeat split. eauto.
Qed.

Lemma search_chunk_is_rank_indexed_witness :
  let sr := mkSearchResult (Chunking.mkTextChunk (lit "Text 2") 2%positive 0 6 1)
              (0 * (9 / 10) + (1 * (1 / 10) + (0 * 0 + 0))) in
  Chunking.start_char (chunk sr) = 0%Z
  /\ Chunking.chunk_index (chunk sr) = Z.of_nat 1
  /\ Chunking.end_char (chunk sr) = len (Chunking.text (chunk sr))
  /\ exists idx,
       texts (two_records (fun _ => None)) !! idx = Some (Chunking.text (chunk sr))
       /\ metadatas (two_records (fun _ => None)) !! idx
          = Some (Chunking.metadata (chunk sr)).
Proof.
  exact (search_chunk_is_rank_indexed _ _ _ _ _ _ _
           (two_records_search (fun _ => None) ∅) 1%nat _ eq_refl).
Defined.

End MemoryVectorStoreFacts.

(** * Further properties of the dictionary store *)

Module MemoryStoreExtras.
Import Py PyFacts Np NpSpec NpFacts MemoryStore MemoryStoreSpec MemoryStoreFacts.
Import MemoryStoreOps MemoryStoreSpec2.
Open Scope R_scope.

(** ** Keys *)

Lemma od_get_keys {V : Type} (d : odict V) k :
  is_Some (od_get d k) <-> k ∈ keys d.
Proof.
  unfold keys.
  induction d as [|[k' v'] d IH]; cbn.
  - split; [intros [? [=]]|intros H; inversion H].
  - destruct (String.eqb_spec k' k) as [->|Hne].
    + split; [intros _; constructor|eauto].
    + rewrite IH. split; [now constructor|].
      intros H. inversion H; subst; [contradiction|assumption].
Qed.

Lemma od_get_None_keys {V : Type} (d : odict V) k :
  od_get d k = None <-> k ∉ keys d.
Proof.
  rewrite <- od_get_keys. split.
  - intros H [v Hv]. congruence.
  - intros H. destruct (od_get d k) eqn:E; [|reflexivity].
    exfalso. apply H. eauto.
Qed.

Lemma keys_od_set {V : Type} (d : odict V) k v :
  keys (od_set d k v) = if bool_decide (k ∈ keys d) then keys d else keys d ++ [k].
Proof.
  unfold keys.
  induction d as [|[k' v'] d IH]; cbn; [reflexivity|].
  destruct (String.eqb_spec k' k) as [->|Hne]; cbn.
  - rewrite bool_decide_eq_true_2 by constructor. reflexivity.
  - rewrite IH. destruct (bool_decide (k ∈ map fst d)) eqn:E.
    + apply bool_decide_eq_true_1 in E.
      rewrite bool_decide_eq_true_2 by now constructor. reflexivity.
    + apply bool_decide_eq_false_1 in E.
      rewrite bool_decide_eq_false_2; [reflexivity|].
      intros H. inversion H; subst; congruence.
Qed.

Lemma keys_od_pop {V : Type} (d : odict V) k :
  NoDup (keys d) -> keys (od_pop d k) = List.filter (fun k' => negb (String.eqb k' k)) (keys d).
Proof.
  unfold keys.
  induction d as [|[k' v'] d IH]; cbn; intros Hnd; [reflexivity|].
  inversion Hnd as [|? ? Hnotin Hnd']; subst.
  destruct (String.eqb_spec k' k) as [->|Hne]; cbn.
  - symmetry. clear IH Hnd Hnd'. induction (map fst d) as [|k0 l IHl]; cbn; [reflexivity|].
    destruct (String.eqb_spec k0 k) as [->|Hne0]; cbn.
    + exfalso. apply Hnotin. constructor.
    + f_equal. apply IHl. intros H. apply Hnotin. now constructor.
  - now rewrite IH.
Qed.

Lemma NoDup_filter_keys (f : string -> bool) (l : list string) :
  NoDup l -> NoDup (List.filter f l).
Proof.
  induction 1 as [|x l Hx Hl IH]; cbn; [constructor|].
  destruct (f x); [|assumption].
  constructor; [|assumption].
  intros H. apply Hx. apply list_elem_of_In in H.
  apply filter_In in H as [H _]. now apply list_elem_of_In.
Qed.

Lemma od_get_pop_eq {V : Type} (d : odict V) k :
  NoDup (keys d) -> od_get (od_pop d k) k = None.
Proof.
  intros Hnd. apply od_get_None_keys. rewrite keys_od_pop by assumption.
  intros H. apply list_elem_of_In, filter_In in H as [_ H].
  now rewrite String.eqb_refl in H.
Qed.

Lemma od_get_pop_ne {V : Type} (d : odict V) k k' :
  k <> k' -> od_get (od_pop d k) k' = od_get d k'.
Proof.
  intros Hne. induction d as [|[k0 v0] d IH]; cbn; [reflexivity|].
  destruct (String.eqb_spec k0 k) as [->|Hne0]; cbn.
  - apply String.eqb_neq in Hne. now rewrite Hne.
  - now rewrite IH.
Qed.

Lemma od_get_of_elem {V : Type} (d : odict V) k v :
  NoDup (keys d) -> (k, v) ∈ d -> od_get d k = Some v.
Proof.
  unfold keys.
  induction d as [|[k' v'] d IH]; cbn; intros Hnd Hin; [inversion Hin|].
  inversion Hnd as [|? ? Hnotin Hnd']; subst.
  destruct (String.eqb_spec k' k) as [->|Hne].
  - inversion Hin as [|? ? ? Hin']; subst; [reflexivity|].
    exfalso. apply Hnotin. change k with (fst (k, v)).
    now apply list_elem_of_fmap_2.
  - inversion Hin; subst; [contradiction|]. now apply IH.
Qed.

(** ** The stores that the operations build *)

Lemma same_keys_set self i id text e metadata :
  same_keys self -> same_keys (store_one self i id text e metadata).
Proof.
  intros (Ht & Hm & Hnd). unfold same_keys, store_one.
  cbn [_texts _embeddings _metadata].
  rewrite !keys_od_set, Ht, Hm. repeat split.
  destruct (bool_decide (id ∈ keys (_embeddings self))) eqn:E; [assumption|].
  apply bool_decide_eq_false_1 in E.
  apply NoDup_app. repeat split; [assumption| |apply NoDup_singleton].
  intros x Hx Hx'. apply list_elem_of_singleton in Hx' as ->. contradiction.
Qed.

Lemma same_keys_add_loop pairs : forall self i metadata ids,
  same_keys self -> same_keys (fst (add_loop self i pairs metadata ids)).
Proof.
  induction pairs as [|[text e] pairs IH]; intros self i metadata ids Hs; cbn;
    [assumption|].
  destruct (ids !! i); [|assumption].
  apply IH. now apply same_keys_set.
Qed.

Lemma same_keys_pop self id :
  same_keys self ->
  same_keys (mkMemoryStore (config self) (od_pop (_texts self) id)
               (od_pop (_embeddings self) id) (od_pop (_metadata self) id)).
Proof.
  intros (Ht & Hm & Hnd). unfold same_keys.
  cbn [_texts _embeddings _metadata].
  rewrite !keys_od_pop by congruence. rewrite Ht, Hm. repeat split.
  now apply NoDup_filter_keys.
Qed.

Lemma same_keys_delete ids : forall self,
  same_keys self -> same_keys (delete self ids).
Proof.
  unfold delete. induction ids as [|id ids IH]; intros self Hs; cbn;
    [assumption|].
  apply IH. now apply same_keys_pop.
Qed.

Lemma built_same_keys config self : built config self -> same_keys self.
Proof.
  induction 1 as [|self texts embeddings metadata ids uuid4 _ IH
                  |self ids _ IH|self _ IH].
  - repeat split. constructor.
  - destruct (add_texts_fst self texts embeddings metadata ids uuid4) as [ids' ->].
    now apply same_keys_add_loop.
  - now apply same_keys_delete.
  - repeat split. constructor.
Qed.

Lemma delete_config ids : forall self, config (delete self ids) = config self.
Proof.
  unfold delete. induction ids as [|id ids IH]; intros self; cbn; [reflexivity|].
  now rewrite IH.
Qed.

Lemma built_config config self : built config self -> MemoryStore.config self = config.
Proof.
  induction 1 as [|self texts embeddings metadata ids uuid4 _ IH
                  |self ids _ IH|self _ IH]; cbn; try assumption.
  - reflexivity.
  - destruct (add_texts_fst self texts embeddings metadata ids uuid4) as [ids' ->].
    now rewrite add_loop_config.
  - now rewrite delete_config.
Qed.

(** ** Reading a record back *)

Lemma get_by_id_holds self id text md e :
  holds self id text md e ->
  get_by_id self id = Ok (Some (mkVectorSearchResult id text md 0 e)).
Proof.
  intros (Ht & Hm & He). unfold get_by_id, od_item.
  now rewrite Ht, Hm, He.
Qed.

Lemma get_by_id_absent self id :
  od_get (_texts self) id = None -> get_by_id self id = Ok None.
Proof. intros H. unfold get_by_id. now rewrite H. Qed.

Lemma add_loop_metadata pairs : forall self i metadata (ids : list string) j text e id,
  (i + length pairs <= length ids)%nat ->
  pairs !! j = Some (text, e) -> ids !! (i + j)%nat = Some id ->
  (forall j', (j < j' < length pairs)%nat -> ids !! (i + j')%nat <> Some id) ->
  od_get (_metadata (fst (add_loop self i pairs metadata ids))) id
  = Some (metadata_at metadata (i + j)).
Proof.
  induction pairs as [|[text0 e0] pairs IH];
    intros self i metadata ids j text e id Hlen Hj Hid Hlater.
  - now rewrite lookup_nil in Hj.
  - cbn in Hlen |- *. cbn [length] in Hlater.
    destruct (ids !! i) as [id0|] eqn:Hid0;
      [|apply lookup_ge_None in Hid0; lia].
    destruct j as [|j]; cbn in Hj.
    + rewrite Nat.add_0_r in Hid |- *. rewrite Hid0 in Hid. injection Hid as <-.
      destruct (add_loop_spec pairs (store_one self i id0 text0 e0 metadata)
                  (S i) metadata ids ltac:(lia)) as (self' & Heq & _ & Hsame).
      rewrite Heq. cbn [fst].
      destruct (Hsame id0) as (_ & _ & Hm).
      { intros j Hjlt. replace (S i + j)%nat with (i + S j)%nat by lia.
        apply Hlater. lia. }
      rewrite Hm. cbn. now rewrite od_get_set_eq.
    + replace (i + S j)%nat with (S i + j)%nat in * by lia.
      apply (IH _ _ _ _ _ text e); [lia|assumption|assumption|].
      intros j' Hj'. replace (S i + j')%nat with (i + S j')%nat by lia.
      apply Hlater. lia.
Qed.

Lemma add_loop_holds pairs self metadata (ids : list string) j text e id :
  NoDup ids -> (length pairs <= length ids)%nat ->
  pairs !! j = Some (text, e) -> ids !! j = Some id ->
  add_loop self 0 pairs metadata ids
  = (fst (add_loop self 0 pairs metadata ids), Ok tt)
  /\ holds (fst (add_loop self 0 pairs metadata ids)) id text
       (metadata_at metadata j) (normalized e).
Proof.
  intros Hnd Hlen Hj Hid.
  assert (Hlater : forall j', (j < j' < length pairs)%nat ->
                     ids !! (0 + j')%nat <> Some id).
  { intros j' Hj' Hid'. cbn in Hid'.
    pose proof (NoDup_lookup _ _ _ _ Hnd Hid Hid'). lia. }
  pose proof (add_loop_metadata pairs self 0 metadata ids j text e id
                ltac:(cbn; lia) Hj Hid Hlater) as Hm.
  destruct (add_loop_spec pairs self 0 metadata ids ltac:(cbn; lia))
    as (self' & Heq & Hstored & _).
  rewrite Heq in *. cbn [fst] in *. split; [reflexivity|].
  destruct (Hstored j text e id Hj Hid Hlater) as [Ht He].
  repeat split; assumption.
Qed.

Lemma zip_lookup {A B : Type} (l : list A) (k : list B) j x y :
  l !! j = Some x -> k !! j = Some y -> zip l k !! j = Some (x, y).
Proof.
  intros Hx Hy. rewrite lookup_zip_with, Hx. cbn. now rewrite Hy.
Qed.

(** X11.  [add_texts] followed by [get_by_id]: when the call is given
    distinct identifiers, at least as many as texts, it returns them, and
    afterwards [get_by_id] of the [j]-th identifier returns the [j]-th
    text with its metadata (the empty mapping when none was passed for
    it), score 0, and the [j]-th embedding divided by its norm when that
    is positive.  Records already stored under these identifiers are
    replaced. *)
Theorem added_text_is_found self texts embeddings metadata ids uuid4 j id text e :
  NoDup ids -> (length texts <= length ids)%nat ->
  ids !! j = Some id -> texts !! j = Some text -> embeddings !! j = Some e ->
  let out := add_texts self texts embeddings metadata (Some ids) uuid4 in
  snd out = Ok ids
  /\ get_by_id (fst out) id
     = Ok (Some (mkVectorSearchResult id text (metadata_at metadata j) 0
                   (normalized e))).
Proof.
  intros Hnd Hlen Hid Ht He out. subst out. unfold add_texts.
  destruct (add_loop_holds (zip texts embeddings) self metadata ids j text e id
              Hnd) as [Heq Hh]; [|now apply zip_lookup|assumption|].
  { rewrite length_zip_with. lia. }
  rewrite Heq. cbn [fst snd]. split; [reflexivity|].
  now apply get_by_id_holds.
Qed.

Lemma added_text_is_found_witness :
  let out :=
    add_texts (empty Examples.cosine_config) [lit "one"; lit "two"]
      [[3; 4]; [0; 0]] (Some [{[ "page"%string := PInt 7 ]}])
      (Some ["a"; "b"]%string) (fun _ => "u"%string) in
  snd out = Ok ["a"; "b"]%string
  /\ get_by_id (fst out) "b"
     = Ok (Some (mkVectorSearchResult "b" (lit "two")
                   (metadata_at (Some [{[ "page"%string := PInt 7 ]}]) 1) 0
                   (normalized [0; 0]))).
Proof.
  apply (added_text_is_found (empty Examples.cosine_config)
           [lit "one"; lit "two"] [[3; 4]; [0; 0]]
           (Some [{[ "page"%string := PInt 7 ]}]) ["a"; "b"]%string
           (fun _ => "u"%string) 1 "b"%string (lit "two") [0; 0]).
  - apply (bool_decide_unpack _). vm_compute. exact I.
  - cbn. lia.
  - reflexivity.
  - reflexivity.
  - reflexivity.
Defined.

(** X12.  On a store built by [add_texts], [delete] and [clear],
    [get_by_id] never raises: it returns [None] for an identifier without
    a text, and otherwise the stored text, metadata and embedding of the
    identifier with score 0. *)
Theorem get_by_id_returns_the_record config self id :
  built config self ->
  match od_get (_texts self) id with
  | None => get_by_id self id = Ok None
  | Some text =>
      exists md e,
        holds self id text md e
        /\ get_by_id self id = Ok (Some (mkVectorSearchResult id text md 0 e))
  end.
Proof.
  intros Hb. apply built_same_keys in Hb as (Ht & Hm & _).
  destruct (od_get (_texts self) id) as [text|] eqn:Hget.
  - assert (Hk : id ∈ keys (_texts self)) by (apply od_get_keys; eauto).
    assert (He : is_Some (od_get (_embeddings self) id))
      by (apply od_get_keys; congruence).
    assert (Hmd : is_Some (od_get (_metadata self) id))
      by (apply od_get_keys; congruence).
    destruct He as [e He], Hmd as [md Hmd].
    exists md, e. assert (Hh : holds self id text md e) by (repeat split; assumption).
    split; [exact Hh|now apply get_by_id_holds].
  - now apply get_by_id_absent.
Qed.

Lemma get_by_id_returns_the_record_witness :
  match od_get (_texts (delete Examples.one_record ["b"]%string)) "a" with
  | None => get_by_id (delete Examples.one_record ["b"]%string) "a" = Ok None
  | Some text =>
      exists md e,
        holds (delete Examples.one_record ["b"]%string) "a" text md e
        /\ get_by_id (delete Examples.one_record ["b"]%string) "a"
           = Ok (Some (mkVectorSearchResult "a" text md 0 e))
  end.
Proof.
  apply (get_by_id_returns_the_record Examples.cosine_config).
  apply built_delete.
  exact (built_add Examples.cosine_config _ _ _ _ _ _
           (built_new Examples.cosine_config)).
Defined.

(** ** Deleting *)

Lemma od_pop_absent {V : Type} (d : odict V) k : od_get d k = None -> od_pop d k = d.
Proof.
  induction d as [|[k' v'] d IH]; cbn; [reflexivity|].
  destruct (String.eqb k' k); [discriminate|]. intros H. now rewrite IH.
Qed.

Lemma od_get_pop_None {V : Type} (d : odict V) k k' :
  od_get d k = None -> od_get (od_pop d k') k = None.
Proof.
  intros H. destruct (String.eqb_spec k' k) as [->|Hne].
  - now rewrite od_pop_absent.
  - now rewrite od_get_pop_ne.
Qed.

Lemma delete_same_at ids id : forall self,
  id ∉ ids -> same_at self (delete self ids) id.
Proof.
  unfold delete. induction ids as [|id0 ids IH]; intros self Hid; cbn.
  - repeat split.
  - apply not_elem_of_cons in Hid as [Hne Hid].
    destruct (IH (mkMemoryStore (config self) (od_pop (_texts self) id0)
                    (od_pop (_embeddings self) id0) (od_pop (_metadata self) id0))
                Hid) as (Ht & He & Hm).
    unfold same_at. rewrite Ht, He, Hm. cbn.
    rewrite !od_get_pop_ne by congruence. repeat split.
Qed.

Lemma delete_texts_None ids id : forall self,
  od_get (_texts self) id = None -> od_get (_texts (delete self ids)) id = None.
Proof.
  unfold delete. induction ids as [|id0 ids IH]; intros self H; cbn;
    [assumption|].
  apply IH. cbn. now apply od_get_pop_None.
Qed.

Lemma delete_texts_gone ids id : forall self,
  same_keys self -> id ∈ ids -> od_get (_texts (delete self ids)) id = None.
Proof.
  induction ids as [|id0 ids IH]; intros self Hs Hid; [inversion Hid|].
  change (delete self (id0 :: ids))
    with (delete (mkMemoryStore (config self) (od_pop (_texts self) id0)
                    (od_pop (_embeddings self) id0) (od_pop (_metadata self) id0))
            ids).
  destruct (decide (id = id0)) as [->|Hne].
  - apply delete_texts_None. cbn. apply od_get_pop_eq.
    destruct Hs as (Ht & _ & Hnd). congruence.
  - apply IH; [now apply same_keys_pop|].
    apply elem_of_cons in Hid as [|]; [contradiction|assumption].
Qed.

Lemma get_by_id_same_at self self' id :
  same_at self self' id -> get_by_id self' id = get_by_id self id.
Proof.
  intros (Ht & He & Hm). unfold get_by_id, od_item. now rewrite Ht, He, Hm.
Qed.

(** X13.  After [delete(ids)] on a store built by [add_texts], [delete]
    and [clear], [get_by_id] returns [None] for every identifier of
    [ids], stored before or not, and what it returned before for every
    other identifier. *)
Theorem deleted_text_is_gone config self ids :
  built config self ->
  (forall id, id ∈ ids -> get_by_id (delete self ids) id = Ok None)
  /\ (forall id, id ∉ ids -> get_by_id (delete self ids) id = get_by_id self id).
Proof.
  intros Hb. split; intros id Hid.
  - apply get_by_id_absent, delete_texts_gone; [|assumption].
    now apply (built_same_keys config).
  - now apply get_by_id_same_at, delete_same_at.
Qed.

Lemma deleted_text_is_gone_witness :
  (forall id, id ∈ ["a"; "z"]%string ->
     get_by_id (delete Examples.one_record ["a"; "z"]%string) id = Ok None)
  /\ (forall id, id ∉ ["a"; "z"]%string ->
        get_by_id (delete Examples.one_record ["a"; "z"]%string) id
        = get_by_id Examples.one_record id).
Proof.
  apply (deleted_text_is_gone Examples.cosine_config).
  exact (built_add Examples.cosine_config _ _ _ _ _ _
           (built_new Examples.cosine_config)).
Defined.

(** ** Statistics and construction *)

(** X14.  On a store built by [add_texts], [delete] and [clear],
    [get_stats] reports the same number under [total_texts] and
    [total_embeddings], the number of stored identifiers, and the
    collection name and embedding dimension of the configuration the
    store was made with. *)
Theorem stats_of_a_built_store config self :
  built config self ->
  get_stats self
  = {[ "total_texts"%string := PInt (len (keys (_embeddings self)));
       "total_embeddings"%string := PInt (len (keys (_embeddings self)));
       "collection_name"%string := PStr (collection_name config);
       "embedding_dimension"%string := PInt (embedding_dimension config) ]}.
Proof.
  intros Hb. unfold get_stats.
  rewrite (built_config config self Hb).
  apply built_same_keys in Hb as (Ht & _ & _).
  assert (Hlt : len (_texts self) = len (keys (_embeddings self))).
  { rewrite <- Ht. unfold len, keys. now rewrite length_map. }
  assert (Hle : len (_embeddings self) = len (keys (_embeddings self))).
  { unfold len, keys. now rewrite length_map. }
  now rewrite Hlt, Hle.
Qed.

Lemma stats_of_a_built_store_witness :
  get_stats Examples.one_record
  = {[ "total_texts"%string :=
         PInt (len (keys (_embeddings Examples.one_record)));
       "total_embeddings"%string :=
         PInt (len (keys (_embeddings Examples.one_record)));
       "collection_name"%string :=
         PStr (collection_name Examples.cosine_config);
       "embedding_dimension"%string :=
         PInt (embedding_dimension Examples.cosine_config) ]}.
Proof.
  apply (stats_of_a_built_store Examples.cosine_config).
  exact (built_add Examples.cosine_config _ _ _ _ _ _
           (built_new Examples.cosine_config)).
Defined.

(** X15.  [EmbeddingsFactory.create_store] raises [ValueError] exactly
    when the collection name is empty or the embedding dimension is not
    positive; otherwise it returns a store without records that holds the
    three settings. *)
Theorem create_store_checks_the_configuration name dim metric :
  match create_store name dim metric with
  | Ok self =>
      name <> EmptyString /\ (0 < dim)%Z
      /\ self = mkMemoryStore (mkVectorStoreConfig name dim metric) [] [] []
  | Raise e =>
      (exists msg, e = ValueError msg) /\ (name = EmptyString \/ (dim <= 0)%Z)
  | Diverge => False
  end.
Proof.
  unfold create_store, new_MemoryStore, _validate_config. cbn.
  destruct name as [|c name]; cbn; [split; [eauto|now left]|].
  destruct (Z.leb_spec dim 0) as [Hle|Hgt]; cbn.
  - split; [eauto|now right].
  - repeat split; [discriminate|assumption].
Qed.

(** ** Too few identifiers *)

Lemma add_loop_short pairs : forall self i metadata (ids : list string),
  (length ids < i + length pairs)%nat -> (i <= length ids)%nat ->
  snd (add_loop self i pairs metadata ids)
  = Raise (IndexError "list index out of range").
Proof.
  induction pairs as [|[text e] pairs IH]; intros self i metadata ids Hlt Hle;
    cbn in Hlt |- *; [lia|].
  destruct (ids !! i) as [id|] eqn:Hid; [|reflexivity].
  apply lookup_lt_Some in Hid. apply IH; lia.
Qed.

Lemma add_loop_take pairs : forall self i metadata (ids : list string),
  fst (add_loop self i pairs metadata ids)
  = fst (add_loop self i (take (length ids - i) pairs) metadata ids).
Proof.
  induction pairs as [|[text e] pairs IH]; intros self i metadata ids.
  - now rewrite take_nil.
  - cbn. destruct (ids !! i) as [id|] eqn:Hid.
    + apply lookup_lt_Some in Hid as Hlt.
      replace (length ids - i)%nat with (S (length ids - S i)) by lia.
      cbn. rewrite Hid. apply IH.
    + apply lookup_ge_None in Hid.
      replace (length ids - i)%nat with 0%nat by lia. reflexivity.
Qed.

(** X16.  When [add_texts] is given distinct identifiers but fewer than
    texts and embeddings, it raises the exception that wraps the index
    error, and the records for which there was an identifier stay stored:
    [get_by_id] finds each of them. *)
Theorem too_few_ids_fail_after_storing self texts embeddings metadata ids uuid4 :
  NoDup ids ->
  (length ids < length texts)%nat -> (length ids < length embeddings)%nat ->
  let out := add_texts self texts embeddings metadata (Some ids) uuid4 in
  snd out
  = Raise (Exception
             "Failed to add texts to memory store: list index out of range")
  /\ forall j id text e,
       ids !! j = Some id -> texts !! j = Some text ->
       embeddings !! j = Some e ->
       get_by_id (fst out) id
       = Ok (Some (mkVectorSearchResult id text (metadata_at metadata j) 0
                     (normalized e))).
Proof.
  intros Hnd Ht He out. subst out. unfold add_texts.
  set (pairs := zip texts embeddings).
  assert (Hlen : (length ids < length pairs)%nat).
  { unfold pairs. rewrite length_zip_with. lia. }
  pose proof (add_loop_short pairs self 0 metadata ids ltac:(cbn; lia)
                ltac:(lia)) as Hsnd.
  pose proof (add_loop_take pairs self 0 metadata ids) as Hfst.
  rewrite Nat.sub_0_r in Hfst.
  destruct (add_loop self 0 pairs metadata ids) as [self' r].
  cbn [fst snd] in Hsnd, Hfst. subst r. cbn [fst snd exn_str].
  split; [reflexivity|].
  intros j id text e Hid Htj Hej. rewrite Hfst.
  apply get_by_id_holds.
  apply lookup_lt_Some in Hid as Hj.
  apply add_loop_holds; try assumption.
  - rewrite length_take. lia.
  - rewrite lookup_take_lt by assumption. now apply zip_lookup.
Qed.

Lemma too_few_ids_fail_after_storing_witness :
  let out :=
    add_texts (empty Examples.cosine_config) [lit "one"; lit "two"]
      [[3; 4]; [1; 0]] None (Some ["a"]%string) (fun _ => "u"%string) in
  snd out
  = Raise (Exception
             "Failed to add texts to memory store: list index out of range")
  /\ forall j id text e,
       ["a"]%string !! j = Some id -> [lit "one"; lit "two"] !! j = Some text ->
       [[3; 4]; [1; 0]] !! j = Some e ->
       get_by_id (fst out) id
       = Ok (Some (mkVectorSearchResult id text (metadata_at None j) 0
                     (normalized e))).
Proof.
  apply (too_few_ids_fail_after_storing (empty Examples.cosine_config)
           [lit "one"; lit "two"] [[3; 4]; [1; 0]] None ["a"]%string
           (fun _ => "u"%string)).
  - apply (bool_decide_unpack _). vm_compute. exact I.
  - cbn. lia.
  - cbn. lia.
Defined.

(** ** Searching *)

Lemma length_normalized e : length (normalized e) = length e.
Proof.
  unfold normalized. destruct (Rltb 0 (norm e)); [apply length_div|reflexivity].
Qed.

Lemma score_of_total metric qa e :
  length qa = length e -> exists s, score_of metric qa e = Ok s.
Proof.
  intros H. unfold score_of, np_dot, np_sub.
  destruct (decide (length qa = length e)); [|contradiction].
  destruct (String.eqb metric "cosine"); [cbn; eauto|].
  destruct (String.eqb metric "euclidean"); cbn; eauto.
Qed.

Lemma search_loop_spec self qa filter entries :
  same_keys self ->
  (forall id e, (id, e) ∈ entries -> od_get (_embeddings self) id = Some e) ->
  Forall (fun kv => length (snd kv) = length qa) entries ->
  exists results,
    search_loop self qa filter entries = Ok results
    /\ Forall (search_result_ok self qa filter) results
    /\ map id results `sublist_of` map fst entries.
Proof.
  intros (Hkt & Hkm & Hnd).
  induction entries as [|[id0 e0] rest IH]; intros Hin Hlen.
  - exists []. cbn. repeat split; constructor.
  - inversion Hlen as [|? ? Hl0 Hlrest]; subst. cbn in Hl0.
    destruct IH as (rs & Hrs & Hall & Hsub);
      [intros id e H; apply Hin; now constructor|assumption|].
    cbn [search_loop].
    match goal with
    | |- context [if ?b then _ else _] => destruct b eqn:Hskip
    end.
    + exists rs. split; [exact Hrs|]. split; [exact Hall|].
      cbn. now apply sublist_cons.
    + pose proof (Hin id0 e0 ltac:(constructor)) as He.
      assert (Hk : id0 ∈ keys (_embeddings self)) by (apply od_get_keys; eauto).
      destruct (proj2 (od_get_keys (_texts self) id0)) as [text Ht];
        [congruence|].
      destruct (proj2 (od_get_keys (_metadata self) id0)) as [md Hm];
        [congruence|].
      destruct (score_of_total (distance_metric (config self)) qa e0)
        as [s Hs]; [congruence|].
      exists (mkVectorSearchResult id0 text md s e0 :: rs).
      unfold od_item. rewrite Hs, Ht, Hm. cbn. rewrite Hrs. cbn.
      split; [reflexivity|]. split; [|now apply sublist_skip].
      constructor; [|exact Hall].
      split; [repeat split; assumption|]. split; [exact Hs|].
      intros f -> Hf. cbn. rewrite Hm in Hskip. cbn in Hskip.
      rewrite bool_decide_eq_false_2 in Hskip by assumption. cbn in Hskip.
      now apply negb_false_iff in Hskip.
Qed.

Lemma search_spec self q k filter :
  same_keys self ->
  Forall (fun kv => length (snd kv) = length q) (_embeddings self) ->
  exists results,
    search self q k filter = Ok results
    /\ ascending score results
    /\ ((0 <= k)%Z -> (len results <= k)%Z)
    /\ NoDup (map id results)
    /\ Forall (search_result_ok self (div q (norm q)) filter) results.
Proof.
  intros Hs Hlen.
  destruct (search_loop_spec self (div q (norm q)) filter (_embeddings self) Hs)
    as (rs & Hrs & Hall & Hsub).
  { intros id e Hin. apply od_get_of_elem; [apply Hs|assumption]. }
  { eapply Forall_impl; [exact Hlen|]. intros kv H. now rewrite length_div. }
  unfold search. rewrite Hrs. eexists. split; [reflexivity|].
  rewrite slice_to_prefix.
  set (n := Z.to_nat (norm_index (len (sort_asc score rs)) k)).
  repeat split.
  - apply ascending_take, sort_asc_sorted.
  - intros Hk. unfold len. rewrite length_take.
    subst n. unfold norm_index, len.
    destruct (k <? 0)%Z eqn:E; lia.
  - rewrite <- firstn_map.
    apply (sublist_NoDup _ (map id (sort_asc score rs)));
      [|apply sublist_take].
    rewrite (Permutation_map id (sort_asc_perm score rs)).
    apply (sublist_NoDup _ (map fst (_embeddings self))); [apply Hs|exact Hsub].
  - apply Forall_take.
    rewrite (sort_asc_perm score rs). exact Hall.
Qed.

(** X17.  On a store built by [add_texts], [delete] and [clear] whose
    embeddings all have the length of the query, [search] with a query of
    positive norm returns a list that is sorted by ascending score, has at
    most [k] results for [k >= 0], names no identifier twice, and consists
    of records of the store: each result has the text, metadata and
    embedding stored under its identifier, and with a non-empty filter its
    metadata has, for every key of the filter, a value equal (Python's
    [==], so [True] equals [1]) to the filter's. *)
Theorem search_returns_stored_records config self q k filter :
  built config self ->
  Forall (fun kv => length (snd kv) = length q) (_embeddings self) ->
  0 < norm q ->
  exists results,
    search self q k filter = Ok results
    /\ ascending score results
    /\ ((0 <= k)%Z -> (len results <= k)%Z)
    /\ NoDup (map id results)
    /\ Forall (fun r =>
                 holds self (id r) (text r) (metadata r) (embedding r)
                 /\ forall f, filter = Some f -> f <> ∅ ->
                      map_Forall
                        (fun key v => py_eq (dict_get (metadata r) key) v = true)
                        f)
         results.
Proof.
  intros Hb Hlen _.
  destruct (search_spec self q k filter (built_same_keys config self Hb) Hlen)
    as (results & Hs & Hasc & Hk & Hnd & Hall).
  exists results. repeat split; try assumption.
  eapply Forall_impl; [exact Hall|].
  intros r (Hh & _ & Hf). split; [exact Hh|].
  intros f Hfilter Hne. specialize (Hf f Hfilter Hne).
  unfold matches in Hf. now apply bool_decide_eq_true_1 in Hf.
Qed.

Lemma search_returns_stored_records_witness :
  let flag v : dict := {[ "flag"%string := v ]} in
  let self :=
    fst (add_texts (empty Examples.cosine_config)
           [lit "one"; lit "two"; lit "three"] [[3; 4]; [1; 0]; [0; 2]]
           (Some [flag (PBool true); flag (PInt 0); flag (PInt 1)])
           (Some ["a"; "b"; "c"]%string) (fun _ => "u"%string)) in
  exists results,
    search self [1; 0] 5 (Some (flag (PInt 1))) = Ok results
    /\ ascending score results
    /\ ((0 <= 5)%Z -> (len results <= 5)%Z)
    /\ NoDup (map id results)
    /\ Forall (fun r =>
                 holds self (id r) (text r) (metadata r) (embedding r)
                 /\ forall f : dict, Some (flag (PInt 1)) = Some f -> f <> ∅ ->
                      map_Forall
                        (fun key v => py_eq (dict_get (metadata r) key) v = true)
                        f)
         results.
Proof.
  intros flag self.
  apply (search_returns_stored_records Examples.cosine_config).
  - exact (built_add Examples.cosine_config _ _ _ _ _ _
             (built_new Examples.cosine_config)).
  - constructor; [exact (length_normalized [3; 4])|].
    constructor; [exact (length_normalized [1; 0])|].
    constructor; [exact (length_normalized [0; 2])|constructor].
  - unfold norm. cbn. apply sqrt_lt_R0. lra.
Defined.

(** ** Which record a cosine search returns first *)




(** ** The embeddings a store holds are those supplied, normalized *)

Lemma add_loop_stored (P : vec -> Prop) pairs : forall self i metadata ids,
  (forall text e, (text, e) ∈ pairs -> P (normalized e)) ->
  Forall (fun kv => P (snd kv)) (_embeddings self) ->
  Forall (fun kv => P (snd kv))
    (_embeddings (fst (add_loop self i pairs metadata ids))).
Proof.
  induction pairs as [|[text e] pairs IH]; intros self i metadata ids Hp Hs; cbn;
    [assumption|].
  destruct (ids !! i); [|assumption].
  apply IH.
  - intros t e' H. apply (Hp t). now constructor.
  - cbn. apply od_set_Forall; [exact Hs|]. apply (Hp text). constructor.
Qed.

Lemma supplied_stored config given self :
  supplied config given self ->
  Forall (fun kv => exists e0, e0 ∈ given /\ snd kv = normalized e0)
    (_embeddings self).
Proof.
  induction 1 as [|given self texts embeddings metadata ids uuid4 _ IH].
  - constructor.
  - destruct (add_texts_fst self texts embeddings metadata ids uuid4)
      as [ids' ->].
    apply (add_loop_stored
             (fun e => exists e0, e0 ∈ given ++ embeddings /\ e = normalized e0)).
    + intros text e Hin. exists e. split; [|reflexivity].
      apply elem_of_app. right.
      apply list_elem_of_lookup_1 in Hin as [n Hn].
      rewrite lookup_zip_with in Hn.
      destruct (texts !! n); cbn in Hn; [|discriminate].
      destruct (embeddings !! n) as [e'|] eqn:He; cbn in Hn; [|discriminate].
      injection Hn as _ <-. eapply list_elem_of_lookup_2. exact He.
    + eapply Forall_impl; [exact IH|]. cbn.
      intros kv (e0 & Hin & Heq). exists e0. split; [|exact Heq].
      apply elem_of_app. now left.
Qed.

End MemoryStoreExtras.

(** * Further properties of the list store *)

Module MemoryVectorStoreExtras.
Import Py PyFacts Np NpSpec NpFacts VectorStoreBase MemoryVectorStore.
Import MemoryVectorStoreFacts MemoryVectorStoreSpec2.
Open Scope R_scope.

Lemma collect_sound self h min_score filters sims : forall i results,
  collect self h min_score filters i sims = Ok results ->
  forall idx s,
    (idx, s) ∈ results <->
    exists j, idx = (i + j)%nat /\ sims !! j = Some s
              /\ min_score <= s /\ passes self h filters idx.
Proof.
  induction sims as [|s0 sims IH]; intros i results Hc idx s.
  - cbn in Hc. injection Hc as <-. split; [intros H; inversion H|].
    intros (j & _ & Hj & _). now rewrite lookup_nil in Hj.
  - cbn [collect] in Hc.
    set (keep_r := if truthy filters then _ else _) in Hc.
    destruct keep_r as [keep| |] eqn:Hkeep; cbn in Hc; try discriminate.
    destruct (collect self h min_score filters (S i) sims) as [rs| |] eqn:Hrs;
      cbn in Hc; try discriminate.
    injection Hc as <-. specialize (IH (S i) rs Hrs).
    assert (Hk : keep = true <-> passes self h filters i).
    { subst keep_r. unfold passes. destruct (truthy filters).
      - unfold item in Hkeep.
        destruct (metadatas self !! i) as [l|] eqn:Hl; cbn in Hkeep;
          [|discriminate].
        injection Hkeep as <-. split.
        + intros Hm _. eauto.
        + intros Hp. destruct (Hp eq_refl) as (l' & [= <-] & Hm). exact Hm.
      - injection Hkeep as <-. split; [discriminate|reflexivity]. }
    assert (Hhead : keep && Rleb min_score s0 = true
                    <-> min_score <= s0 /\ passes self h filters i).
    { rewrite andb_true_iff, Rleb_spec, Hk. tauto. }
    assert (Hrest : (idx, s) ∈ rs <->
              exists j, idx = (i + S j)%nat /\ sims !! j = Some s
                        /\ min_score <= s /\ passes self h filters idx).
    { rewrite IH. split; intros (j & -> & Hj); exists j;
        (split; [lia|]);
        [replace (i + S j)%nat with (S i + j)%nat by lia
        |replace (S i + j)%nat with (i + S j)%nat by lia]; exact Hj. }
    split.
    + intros Hin.
      assert (Hcase : ((idx, s) = (i, s0) /\ keep && Rleb min_score s0 = true)
                      \/ (idx, s) ∈ rs).
      { destruct (keep && Rleb min_score s0); [|now right].
        apply elem_of_cons in Hin as [Heq|Hin]; [left; now split|now right]. }
      destruct Hcase as [[[= -> ->] Hh]|Hin'].
      * apply Hhead in Hh as [Hs Hp]. exists 0%nat.
        rewrite Nat.add_0_r. repeat split; assumption.
      * apply Hrest in Hin' as (j & -> & Hj). exists (S j). split; [reflexivity|].
        exact Hj.
    + intros ([|j] & -> & Hj & Hs & Hp).
      * cbn in Hj. injection Hj as ->. rewrite Nat.add_0_r in *.
        rewrite (proj2 Hhead (conj Hs Hp)). constructor.
      * assert (Hin : (i + S j, s)%nat ∈ rs) by (apply Hrest; eauto).
        destruct (keep && Rleb min_score s0); [now constructor|assumption].
Qed.

Lemma collect_total self h min_score filters sims : forall i,
  (i + length sims <= length (metadatas self))%nat ->
  exists results, collect self h min_score filters i sims = Ok results.
Proof.
  induction sims as [|s0 sims IH]; intros i Hlen; cbn [collect].
  - eauto.
  - cbn in Hlen. destruct (IH (S i) ltac:(lia)) as [rs Hrs].
    destruct (lookup_lt_is_Some_2 (metadatas self) i ltac:(lia)) as [l Hl].
    unfold item. rewrite Hl, Hrs. destruct (truthy filters); cbn; eauto.
Qed.

Lemma descending_app {A : Type} (key : A -> R) (l1 l2 : list A) x y :
  descending key (l1 ++ l2) -> x ∈ l1 -> y ∈ l2 -> key y <= key x.
Proof.
  induction l1 as [|a l1 IH]; intros Hd Hx Hy; [inversion Hx|].
  apply elem_of_cons in Hx as [->|Hx].
  - apply (descending_head key a (l1 ++ l2)); [exact Hd|].
    apply elem_of_cons. right. apply elem_of_app. now right.
  - apply IH; try assumption.
    unfold descending in *. cbn in Hd. now apply Sorted_inv in Hd as [Hd _].
Qed.

(** The pairs that [similarity_search] ranks, and what they are. *)
Lemma similarity_search_ranked self h q k min_score filters results :
  similarity_search self h q k min_score filters = Ok results ->
  embeddings self = [] /\ results = []
  \/ exists collected n,
       (forall idx s, (idx, s) ∈ collected
                      <-> candidate self h q min_score filters idx s)
       /\ (n = Z.to_nat (norm_index (len (sort_desc snd collected)) k))
       /\ to_results self 0 (take n (sort_desc snd collected)) = Ok results.
Proof.
  unfold similarity_search.
  destruct (embeddings self) as [|e0 es] eqn:Hemb; cbn [Chunking.nonempty negb].
  - intros [= <-]. now left.
  - rewrite <- Hemb. intros Hs. right.
    unfold np_matvec in Hs.
    destruct (forallb _ (embeddings self)) eqn:Hshape; cbn in Hs;
      [|discriminate].
    destruct (collect self h min_score filters 0 _) as [collected| |] eqn:Hc;
      cbn in Hs; try discriminate.
    rewrite slice_to_prefix in Hs.
    exists collected, (Z.to_nat (norm_index (len (sort_desc snd collected)) k)).
    split; [|split; [reflexivity|exact Hs]].
    intros idx s. rewrite (collect_sound _ _ _ _ _ _ _ Hc idx s).
    unfold candidate. split.
    + intros (j & -> & Hj & Hms & Hp). cbn in *.
      rewrite list_lookup_fmap in Hj.
      destruct (embeddings self !! j) as [e|] eqn:He; [|discriminate].
      cbn in Hj. injection Hj as <-. exists e. repeat split; assumption.
    + intros (e & He & -> & Hms & Hp). exists idx. cbn.
      split; [reflexivity|]. split; [|split; assumption].
      rewrite list_lookup_fmap, He. reflexivity.
Qed.

(** ** A store whose records carry a flag *)

(** What the filter of the flagged store admits: the flags [True] and [1]
    equal the [1] of the filter, the flag [0] does not. *)
Lemma flag_matches :
  matches (default ∅ (Some Examples2.flag_filter))
    (default ∅ (Examples2.flagged_heap !! (1%positive : loc))) = true
  /\ matches (default ∅ (Some Examples2.flag_filter))
       (default ∅ (Examples2.flagged_heap !! (2%positive : loc))) = false
  /\ matches (default ∅ (Some Examples2.flag_filter))
       (default ∅ (Examples2.flagged_heap !! (3%positive : loc))) = true
  /\ truthy (Some Examples2.flag_filter) = true.
Proof. vm_compute. auto. Qed.

(** A search of the list store with a filter: the second record has the
    second best similarity and is left out by the filter, the first
    matches it with [True == 1]. *)
Lemma flagged_search :
  MemoryVectorStore.similarity_search Examples2.flagged_store
    Examples2.flagged_heap [9 / 10; 5 / 10; 2 / 10] 5 (15 / 100)
    (Some Examples2.flag_filter)
  = Ok [mkSearchResult (Chunking.mkTextChunk (lit "one") 1%positive 0 3 0)
          (dot [1; 0; 0] [9 / 10; 5 / 10; 2 / 10]);
        mkSearchResult (Chunking.mkTextChunk (lit "three") 3%positive 0 5 1)
          (dot [0; 0; 1] [9 / 10; 5 / 10; 2 / 10])].
Proof.
  destruct flag_matches as (H1 & H2 & H3 & Ht).
  unfold MemoryVectorStore.similarity_search.
  rewrite np_matvec_Ok by (repeat constructor).
  cbn [Examples2.flagged_store MemoryVectorStore.embeddings Chunking.nonempty
       negb map mbind result_bind bind MemoryVectorStore.collect].
  rewrite Ht.
  change (item (MemoryVectorStore.metadatas Examples2.flagged_store) 0)
    with (Ok 1%positive : result loc).
  change (item (MemoryVectorStore.metadatas Examples2.flagged_store) 1)
    with (Ok 2%positive : result loc).
  change (item (MemoryVectorStore.metadatas Examples2.flagged_store) 2)
    with (Ok 3%positive : result loc).
  cbn [mbind result_bind bind].
  rewrite H1, H2, H3. clear H1 H2 H3 Ht.
  eval_R. reflexivity.
Qed.


Lemma ranked_in_collected {A : Type} (key : A -> R) (collected : list A) n x :
  x ∈ take n (sort_desc key collected) -> x ∈ collected.
Proof.
  intros Hin. rewrite <- (sort_desc_perm key collected).
  eapply elem_of_sublist; [exact Hin|apply sublist_take].
Qed.

Lemma similarity_search_total self h q k min_score filters :
  aligned_for self q ->
  exists results, similarity_search self h q k min_score filters = Ok results.
Proof.
  intros (Hshape & Htexts & Hmds). unfold similarity_search.
  destruct (negb (Chunking.nonempty (embeddings self))); [eauto|].
  rewrite (np_matvec_Ok _ _ Hshape). cbn.
  destruct (collect_total self h min_score filters
              (map (fun row => dot row q) (embeddings self)) 0)
    as [collected Hc]; [rewrite length_map; cbn; lia|].
  rewrite Hc. cbn. rewrite slice_to_prefix.
  destruct (to_results_total self
              (take (Z.to_nat (norm_index (len (sort_desc snd collected)) k))
                 (sort_desc snd collected)) 0) as (results & Hr & _);
    [|eauto].
  apply Forall_forall. intros [idx s] Hin. cbn.
  apply ranked_in_collected in Hin.
  apply (collect_sound _ _ _ _ _ _ _ Hc) in Hin as (j & -> & Hj & _).
  apply lookup_lt_Some in Hj. rewrite length_map in Hj. cbn. lia.
Qed.

(** Where the results of a search come from. *)
Lemma similarity_search_sound self h q k min_score filters results :
  similarity_search self h q k min_score filters = Ok results ->
  Forall (fun sr =>
            exists idx,
              candidate self h q min_score filters idx (score sr)
              /\ texts self !! idx = Some (Chunking.text (chunk sr))
              /\ metadatas self !! idx = Some (Chunking.metadata (chunk sr)))
    results.
Proof.
  intros Hs.
  destruct (similarity_search_ranked _ _ _ _ _ _ _ Hs)
    as [[_ ->]|(collected & n & Hcand & _ & Hr)]; [constructor|].
  apply Forall_lookup. intros j sr Hj.
  destruct (to_results_spec _ _ _ _ Hr j sr Hj)
    as (idx & sc & t & l & Hrank & Ht & Hl & ->).
  exists idx. cbn. split; [|split; assumption].
  apply Hcand. eapply ranked_in_collected.
  eapply list_elem_of_lookup_2. exact Hrank.
Qed.

Lemma similarity_search_length self h q k min_score filters results :
  similarity_search self h q k min_score filters = Ok results ->
  (0 <= k)%Z -> (len results <= k)%Z.
Proof.
  intros Hs Hk.
  destruct (similarity_search_ranked _ _ _ _ _ _ _ Hs)
    as [[_ ->]|(collected & n & _ & Hn & Hr)]; [exact Hk|].
  apply to_results_scores in Hr.
  apply (f_equal (@length R)) in Hr. rewrite !length_map, length_take in Hr.
  unfold len. rewrite Hr. subst n. unfold norm_index, len.
  destruct (k <? 0)%Z eqn:E; lia.
Qed.

(** X19.  When the three lists of the store are aligned and every
    embedding has the length of the query, [similarity_search] returns:
    at most [k] results for [k >= 0], best score first; each result is a
    record of the store, scored with the dot product of its embedding and
    the query, not below [min_score], and matching a non-empty filter:
    for every key of the filter its metadata has a value equal (Python's
    [==], so [True] equals [1]) to the filter's. *)
Theorem similarity_search_meets_the_request self h q k min_score filters :
  aligned_for self q ->
  exists results,
    similarity_search self h q k min_score filters = Ok results
    /\ ((0 <= k)%Z -> (len results <= k)%Z)
    /\ descending score results
    /\ Forall (fun sr =>
                 exists idx,
                   candidate self h q min_score filters idx (score sr)
                   /\ texts self !! idx = Some (Chunking.text (chunk sr))
                   /\ metadatas self !! idx
                      = Some (Chunking.metadata (chunk sr)))
         results.
Proof.
  intros Ha.
  destruct (similarity_search_total self h q k min_score filters Ha)
    as [results Hs].
  exists results. split; [exact Hs|]. split; [|split].
  - now apply (similarity_search_length self h q k min_score filters).
  - now apply (memory_search_descending self h q k min_score filters).
  - now apply (similarity_search_sound self h q k min_score filters).
Qed.

Lemma similarity_search_meets_the_request_witness :
  let self := Examples2.flagged_store in
  let h := Examples2.flagged_heap in
  let q := [9 / 10; 5 / 10; 2 / 10] in
  let filters := Some Examples2.flag_filter in
  exists results,
    similarity_search self h q 5 (15 / 100) filters = Ok results
    /\ ((0 <= 5)%Z -> (len results <= 5)%Z)
    /\ descending score results
    /\ Forall (fun sr =>
                 exists idx,
                   candidate self h q (15 / 100) filters idx (score sr)
                   /\ texts self !! idx = Some (Chunking.text (chunk sr))
                   /\ metadatas self !! idx
                      = Some (Chunking.metadata (chunk sr)))
         results.
Proof.
  apply (similarity_search_meets_the_request Examples2.flagged_store
           Examples2.flagged_heap [9 / 10; 5 / 10; 2 / 10] 5%Z (15 / 100)
           (Some Examples2.flag_filter)).
  repeat split; repeat constructor.
Defined.

(** X20.  [similarity_search] never leaves out a better candidate: a
    record whose similarity to the query is not below [min_score] and
    which matches the filter (values compared with Python's [==]) is
    either among the results, with that similarity, or scores no more
    than every result. *)
Theorem similarity_search_keeps_the_best self h q k min_score filters results
    idx s :
  similarity_search self h q k min_score filters = Ok results ->
  candidate self h q min_score filters idx s ->
  (exists sr, sr ∈ results /\ score sr = s
              /\ texts self !! idx = Some (Chunking.text (chunk sr))
              /\ metadatas self !! idx = Some (Chunking.metadata (chunk sr)))
  \/ (forall sr, sr ∈ results -> s <= score sr).
Proof.
  intros Hs Hcand.
  destruct (similarity_search_ranked _ _ _ _ _ _ _ Hs)
    as [[Hemp _]|(collected & n & Hc & _ & Hr)].
  { destruct Hcand as (e & He & _). rewrite Hemp in He. discriminate. }
  apply Hc in Hcand. rewrite <- (sort_desc_perm snd collected) in Hcand.
  set (sorted := sort_desc snd collected) in *.
  pose proof (sort_desc_sorted snd collected) as Hsorted. fold sorted in Hsorted.
  rewrite <- (take_drop n sorted) in Hcand, Hsorted.
  apply elem_of_app in Hcand as [Hin|Hout].
  - left. apply list_elem_of_lookup_1 in Hin as [j Hj].
    pose proof (to_results_scores _ _ _ _ Hr) as Hlen.
    apply (f_equal (@length R)) in Hlen. rewrite !length_map in Hlen.
    destruct (lookup_lt_is_Some_2 results j) as [sr Hsr].
    { rewrite Hlen. now apply lookup_lt_Some in Hj. }
    destruct (to_results_spec _ _ _ _ Hr j sr Hsr)
      as (idx' & sc & t & l & Hrank & Ht & Hl & ->).
    rewrite Hj in Hrank. injection Hrank as <- <-.
    exists (mkSearchResult (Chunking.mkTextChunk t l 0 (len t) (Z.of_nat (0 + j))) s).
    cbn. repeat split; try assumption.
    eapply list_elem_of_lookup_2. exact Hsr.
  - right. intros sr Hsr. apply list_elem_of_lookup_1 in Hsr as [j Hj].
    destruct (to_results_spec _ _ _ _ Hr j sr Hj)
      as (idx' & sc & t & l & Hrank & _ & _ & ->).
    cbn. apply list_elem_of_lookup_2 in Hrank.
    exact (descending_app snd _ _ (idx', sc) (idx, s) Hsorted Hrank Hout).
Qed.

Lemma similarity_search_keeps_the_best_witness :
  let self := Examples2.flagged_store in
  let q := [9 / 10; 5 / 10; 2 / 10] in
  let results :=
    [mkSearchResult (Chunking.mkTextChunk (lit "one") 1%positive 0 3 0)
       (dot [1; 0; 0] q);
     mkSearchResult (Chunking.mkTextChunk (lit "three") 3%positive 0 5 1)
       (dot [0; 0; 1] q)] in
  let s := dot [0; 0; 1] q in
  (exists sr, sr ∈ results /\ score sr = s
              /\ texts self !! 2%nat = Some (Chunking.text (chunk sr))
              /\ metadatas self !! 2%nat = Some (Chunking.metadata (chunk sr)))
  \/ (forall sr, sr ∈ results -> s <= score sr).
Proof.
  apply (similarity_search_keeps_the_best Examples2.flagged_store
           Examples2.flagged_heap [9 / 10; 5 / 10; 2 / 10] 5%Z (15 / 100)
           (Some Examples2.flag_filter)).
  - exact flagged_search.
  - exists [0; 0; 1]. split; [reflexivity|]. split; [reflexivity|].
    split; [cbn; lra|]. intros _. exists 3%positive.
    split; [reflexivity|]. exact (proj1 (proj2 (proj2 flag_matches))).
Defined.

(** ** Which record a search returns first *)



End MemoryVectorStoreExtras.

(** * The claims about the vector index *)

Module VectorIndexClaims.
Import Py PyFacts Np NpSpec NpFacts VectorStoreBase.
Import MemoryStoreSpec MemoryStoreFacts MemoryVectorStoreFacts Examples.
Open Scope R_scope.

Lemma norm_2_0_0 : norm [2; 0; 0] = 2.
Proof.
  unfold norm. cbn. replace (2 * 2 + (0 * 0 + (0 * 0 + 0))) with (2 * 2) by ring.
  apply sqrt_square. lra.
Qed.

Lemma norm_0_0 : norm [0; 0] = 0.
Proof.
  unfold norm. cbn. replace (0 * 0 + (0 * 0 + 0)) with 0 by ring. apply sqrt_0.
Qed.

(** C3, as stated, fails.  The list store keeps the supplied embedding
    [2, 0, 0] as it is, with norm 2; the dictionary store keeps the
    supplied zero embedding as it is, with norm 0. *)
Lemma unit_norm_insertion_counterexample :
  (exists self' h',
      MemoryVectorStore.add_text empty_list_store ∅ (lit "a") None
        (Some [2; 0; 0]) = Ok (self', h')
      /\ MemoryVectorStore.embeddings self' = [[2; 0; 0]]
      /\ norm [2; 0; 0] <> 1)
  /\ (let self' :=
        fst (MemoryStore.add_texts (MemoryStore.empty cosine_config)
               [lit "a"] [[0; 0]] None (Some ["a"%string]) (fun _ => ""%string)) in
      MemoryStore.od_get (MemoryStore._embeddings self') "a" = Some [0; 0]
      /\ norm [0; 0] <> 1).
Proof.
  split.
  - destruct (add_text_as_given empty_list_store ∅ (lit "a") None [2; 0; 0])
      as (l & h' & ->).
    eexists _, _. split; [reflexivity|]. split; [reflexivity|].
    rewrite norm_2_0_0. lra.
  - cbv zeta. split; [|rewrite norm_0_0; lra].
    cbn. unfold MemoryStore.normalized. rewrite norm_0_0.
    rewrite Rltb_false by lra. reflexivity.
Qed.

(** C3, amended.  After any sequence of [add_texts] calls on the
    dictionary store every stored embedding is the stored form of an
    embedding that was supplied to one of the calls: the supplied array
    divided by its computed norm when that norm is positive, and the
    supplied array itself otherwise.  Nothing is said of the norm of the
    quotient, which floating-point division brings to 1 only up to
    rounding.  The list store appends the supplied embeddings as they
    are. *)
Theorem stored_embeddings_are_normalized_inputs :
  (forall config given self,
     MemoryStoreSpec2.supplied config given self ->
     forall id e, MemoryStore.od_get (MemoryStore._embeddings self) id = Some e ->
       exists e0, e0 ∈ given /\ e = MemoryStore.normalized e0)
  /\ (forall e, 0 < norm e -> MemoryStore.normalized e = div e (norm e))
  /\ (forall e, ~ 0 < norm e -> MemoryStore.normalized e = e)
  /\ (forall self h text metadata e,
        exists self' h',
          MemoryVectorStore.add_text self h text metadata (Some e) = Ok (self', h')
          /\ MemoryVectorStore.embeddings self'
             = MemoryVectorStore.embeddings self ++ [e])
  /\ (forall self h texts metadatas es,
        exists self' h',
          MemoryVectorStore.add_texts self h texts metadatas (Some es)
          = Ok (self', h')
          /\ MemoryVectorStore.embeddings self'
             = MemoryVectorStore.embeddings self ++ es).
Proof.
  split; [|split; [|split; [|split]]].
  - intros config given self Hs id e Hget.
    exact (od_get_Forall
             (fun e => exists e0, e0 ∈ given /\ e = MemoryStore.normalized e0)
             _ id e (MemoryStoreExtras.supplied_stored _ _ _ Hs) Hget).
  - intros e Hn. unfold MemoryStore.normalized.
    now rewrite Rltb_true by assumption.
  - intros e Hn. unfold MemoryStore.normalized.
    now rewrite Rltb_false by assumption.
  - intros self h text metadata e.
    destruct (add_text_as_given self h text metadata e) as (l & h' & ->).
    eexists _, _. split; reflexivity.
  - intros self h texts metadatas es. unfold MemoryVectorStore.add_texts. cbn.
    destruct metadatas as [ms|].
    + eexists _, _. split; reflexivity.
    + destruct (MemoryVectorStore.alloc_empty h (length texts)) as [ms h'].
      eexists _, _. split; reflexivity.
Qed.

Lemma stored_embeddings_are_normalized_inputs_witness :
  exists e0,
    e0 ∈ [[3; 4]; [0; 0]] ++ [[1; 2]]
    /\ MemoryStore.normalized [1; 2] = MemoryStore.normalized e0.
Proof.
  refine (proj1 stored_embeddings_are_normalized_inputs cosine_config
            ([[3; 4]; [0; 0]] ++ [[1; 2]])
            (fst (MemoryStore.add_texts
                    (fst (MemoryStore.add_texts (MemoryStore.empty cosine_config)
                            [lit "a"; lit "b"] [[3; 4]; [0; 0]] None
                            (Some ["a"; "b"]%string) (fun _ => "u"%string)))
                    [lit "c"] [[1; 2]] None (Some ["a"]%string)
                    (fun _ => "u"%string)))
            _ "a"%string _ _).
  - apply MemoryStoreSpec2.supplied_add.
    exact (MemoryStoreSpec2.supplied_add cosine_config [] _ _ _ _ _ _
             (MemoryStoreSpec2.supplied_empty cosine_config)).
  - reflexivity.
Defined.

(** C8, as stated, fails.  With two texts and one embedding the dictionary
    store raises nothing: it returns two identifiers and holds one record.
    The list store raises nothing either and holds two texts with one
    embedding. *)
Lemma mismatched_lengths_counterexample :
  let uuid4 := fun i : nat => match i with O => "id-0" | _ => "id-1" end%string in
  MemoryStore.add_texts (MemoryStore.empty cosine_config)
    [lit "a"; lit "b"] [[1]] None None uuid4
  = (MemoryStore.mkMemoryStore cosine_config
       [("id-0"%string, lit "a")]
       [("id-0"%string, MemoryStore.normalized [1])]
       [("id-0"%string, ∅)],
     Ok ["id-0"; "id-1"]%string)
  /\ MemoryVectorStore.add_texts empty_list_store ∅ [lit "a"; lit "b"]
       (Some [1%positive; 2%positive]) (Some [[1]])
     = Ok (MemoryVectorStore.mkMemoryVectorStore no_provider
             [lit "a"; lit "b"] [[1]] [1%positive; 2%positive], ∅).
Proof. split; reflexivity. Qed.

(** C8, amended.  [MemoryStore.add_texts] without [ids] raises nothing
    whatever the two lengths are: it returns one generated identifier for
    each text, and stores the text and the normalized embedding of each of
    the first [min (len texts) (len embeddings)] positions (the identifiers
    of these positions being distinct) and nothing under any other
    identifier.  [MemoryVectorStore.add_texts] with explicit embeddings and
    metadatas appends the three lists as they are given. *)
Theorem mismatched_lengths_are_truncated :
  (forall self texts embeddings metadata (uuid4 : nat -> string),
     let n := Nat.min (length texts) (length embeddings) in
     (forall i j, (i < j < n)%nat -> uuid4 i <> uuid4 j) ->
     exists self',
       MemoryStore.add_texts self texts embeddings metadata None uuid4
       = (self', Ok (map uuid4 (seq 0 (length texts))))
       /\ (forall i text e,
             texts !! i = Some text -> embeddings !! i = Some e ->
             MemoryStore.od_get (MemoryStore._texts self') (uuid4 i) = Some text
             /\ MemoryStore.od_get (MemoryStore._embeddings self') (uuid4 i)
                = Some (MemoryStore.normalized e))
       /\ (forall id, (forall i, (i < n)%nat -> uuid4 i <> id) ->
             same_at self self' id))
  /\ (forall self h texts metadatas embeddings,
        MemoryVectorStore.add_texts self h texts (Some metadatas) (Some embeddings)
        = Ok (MemoryVectorStore.mkMemoryVectorStore
                (MemoryVectorStore.embeddings_provider self)
                (MemoryVectorStore.texts self ++ texts)
                (MemoryVectorStore.embeddings self ++ embeddings)
                (MemoryVectorStore.metadatas self ++ metadatas), h)).
Proof.
  split; [|intros; reflexivity].
  intros self texts embeddings metadata uuid4 n Hinj.
  set (ids := map uuid4 (seq 0 (length texts))).
  assert (Hids : forall i, (i < length texts)%nat -> ids !! i = Some (uuid4 i)).
  { intros i Hi. unfold ids. rewrite list_lookup_fmap, lookup_seq_lt by lia.
    reflexivity. }
  assert (Hzip : length (zip texts embeddings) = n).
  { unfold n. apply length_zip_with. }
  destruct (add_loop_spec (zip texts embeddings) self 0 metadata ids)
    as (self' & Hloop & Hstored & Hsame).
  { unfold ids. rewrite length_map, length_seq, Hzip. unfold n. lia. }
  exists self'. unfold MemoryStore.add_texts. fold ids. rewrite Hloop.
  split; [reflexivity|]. split.
  - intros i text e Ht He.
    assert (Hi : (i < n)%nat).
    { apply lookup_lt_Some in Ht, He. unfold n. lia. }
    apply (Hstored i text e (uuid4 i)).
    + rewrite lookup_zip_with, Ht, He. reflexivity.
    + cbn. apply Hids. unfold n in Hi. lia.
    + intros j' Hj'. rewrite Hzip in Hj'. cbn.
      rewrite Hids by (unfold n in Hj'; lia).
      intros [= Heq]. apply (Hinj i j'); [lia|]. now symmetry.
  - intros id Hfresh. apply Hsame. intros j Hj. rewrite Hzip in Hj. cbn.
    rewrite Hids by (unfold n in Hj; lia). intros [= Heq]. now apply (Hfresh j).
Qed.

Lemma mismatched_lengths_are_truncated_witness :
  let uuid4 := fun i : nat => match i with O => "id-0" | _ => "id-1" end%string in
  exists self',
    MemoryStore.add_texts (MemoryStore.empty cosine_config)
      [lit "a"; lit "b"] [[1]] None None uuid4
    = (self', Ok (map uuid4 (seq 0 2)))
    /\ (forall i text e,
          [lit "a"; lit "b"] !! i = Some text -> [[1]] !! i = Some e ->
          MemoryStore.od_get (MemoryStore._texts self') (uuid4 i) = Some text
          /\ MemoryStore.od_get (MemoryStore._embeddings self') (uuid4 i)
             = Some (MemoryStore.normalized e))
    /\ (forall id, (forall i, (i < 1)%nat -> uuid4 i <> id) ->
          same_at (MemoryStore.empty cosine_config) self' id).
Proof.
  intros uuid4.
  refine (proj1 mismatched_lengths_are_truncated
            (MemoryStore.empty cosine_config) [lit "a"; lit "b"] [[1]] None
            uuid4 _).
  cbn. intros i j Hij. lia.
Defined.







End VectorIndexClaims.

(** * Properties of retrieval *)

Module RetrievalFacts.
Import Py PyFacts Np NpSpec NpFacts VectorStoreBase Retrieval RetrievalSpec.
Open Scope R_scope.

Section Greedy.
Context {S : Type} `{VectorStore S}.
Variable vector_store : S.
Variable config : RetrievalConfig.

#[local] Abbreviation unit_embedding :=
  (RetrievalSpec.unit_embedding vector_store).
#[local] Abbreviation spec_greedy_filter :=
  (RetrievalSpec.spec_greedy_filter vector_store config).
#[local] Abbreviation embeddable := (RetrievalSpec.embeddable vector_store).

Lemma spec_greedy_filter_sublist accepted chunks out :
  spec_greedy_filter accepted chunks out -> out `sublist_of` chunks.
Proof.
  induction 1; [constructor|now apply sublist_cons|now apply sublist_skip].
Qed.

Lemma unit_embedding_length d c :
  embeddable d c -> length (unit_embedding c) = d.
Proof.
  intros (e & He & Hd). unfold unit_embedding. rewrite He.
  now rewrite length_div.
Qed.

Lemma is_duplicate_spec ce seen :
  Forall (fun s => length s = length ce) seen ->
  exists b,
    is_duplicate config ce seen = Ok b
    /\ (b = true <->
        exists a, a ∈ seen /\ duplicate_threshold config < dot ce a).
Proof.
  induction 1 as [|s seen Hs _ IH]; cbn.
  - exists false. split; [reflexivity|]. split; [discriminate|].
    intros (a & Ha & _). now apply elem_of_nil in Ha.
  - unfold np_dot. destruct (decide (length ce = length s)) as [_|Hne];
      [|congruence]. cbn.
    destruct (Rltb (duplicate_threshold config) (dot ce s)) eqn:E.
    + exists true. split; [reflexivity|]. split; [|reflexivity].
      intros _. exists s. split; [left|]. now apply Rltb_spec.
    + destruct IH as (b & Hb & Hiff). exists b. split; [exact Hb|].
      rewrite Hiff. split.
      * intros (a & Ha & Hlt). exists a. split; [now right|assumption].
      * intros (a & Ha & Hlt). apply elem_of_cons in Ha as [->|Ha].
        -- apply Rltb_true in Hlt. congruence.
        -- eauto.
Qed.

Lemma filter_loop_greedy d chunks : forall seen,
  Forall (embeddable d) chunks ->
  Forall (fun s => length s = d) seen ->
  exists out,
    filter_loop vector_store config chunks seen = Ok out
    /\ spec_greedy_filter seen chunks out.
Proof.
  induction chunks as [|c chunks IH]; intros seen Hemb Hseen; cbn.
  - exists []. split; [reflexivity|constructor].
  - apply Forall_cons in Hemb as [Hc Hemb].
    pose proof (unit_embedding_length d c Hc) as Hlen.
    destruct Hc as (e & He & Hd).
    assert (Hu : unit_embedding c = div e (norm e)).
    { unfold unit_embedding. now rewrite He. }
    rewrite He. cbn. rewrite <- Hu.
    destruct (is_duplicate_spec (unit_embedding c) seen) as (b & -> & Hb).
    { eapply Forall_impl; [exact Hseen|]. cbn. intros s ->. now rewrite Hlen. }
    cbn. destruct b.
    + destruct (IH seen Hemb Hseen) as (out & -> & Hout).
      exists out. split; [reflexivity|].
      apply greedy_drop; [now apply Hb|assumption].
    + destruct (IH (seen ++ [unit_embedding c]) Hemb) as (out & -> & Hout).
      { apply Forall_app. split; [assumption|]. now repeat constructor. }
      cbn. exists (c :: out). split; [reflexivity|].
      apply greedy_keep; [|assumption].
      intros Hex. apply Hb in Hex. discriminate.
Qed.

Lemma filter_duplicates_greedy d chunks :
  Forall (embeddable d) chunks ->
  exists out,
    _filter_duplicates vector_store config chunks = Ok out
    /\ spec_greedy_filter [] chunks out
    /\ out `sublist_of` chunks.
Proof.
  intros Hemb. unfold _filter_duplicates.
  destruct chunks as [|c chunks]; cbn [Chunking.nonempty negb].
  - exists []. repeat split; constructor.
  - destruct (filter_loop_greedy d (c :: chunks) [] Hemb ltac:(constructor))
      as (out & Hout & Hg).
    exists out. split; [assumption|]. split; [assumption|].
    now apply spec_greedy_filter_sublist in Hg.
Qed.

(** Of two candidates that are too similar only the first is kept. *)
Lemma filter_duplicates_pair d c1 c2 :
  embeddable d c1 -> embeddable d c2 ->
  duplicate_threshold config < dot (unit_embedding c2) (unit_embedding c1) ->
  _filter_duplicates vector_store config [c1; c2] = Ok [c1].
Proof.
  intros H1 H2 Hsim.
  destruct (filter_duplicates_greedy d [c1; c2]) as (out & -> & Hg & _).
  { now repeat constructor. }
  f_equal.
  inversion Hg as [|? ? ? ? (a & Ha & _) _|? ? ? ? _ Hg1]; subst;
    [now apply elem_of_nil in Ha|].
  inversion Hg1 as [|? ? ? ? _ Hg2|? ? ? ? Hno _]; subst.
  - now inversion Hg2.
  - exfalso. apply Hno. exists (unit_embedding c1). split; [|assumption].
    cbn. left.
Qed.

#[local] Arguments _filter_duplicates : simpl never.

(** The pipeline on two candidates that are too similar. *)
Lemma retrieve_pair provider d query filters qe more r1 r2 :
  let c1 := mkRetrievedChunk (VectorStoreBase.chunk r1) (score r1) 1 in
  let c2 := mkRetrievedChunk (VectorStoreBase.chunk r2) (score r2) 2 in
  provider [query] = Some (qe :: more) ->
  filter_duplicates config = true ->
  (1 <= top_k config)%Z ->
  similarity_search vector_store qe (top_k config * 2)%Z
    (min_similarity config) filters = Ok [r1; r2] ->
  embeddable d c1 -> embeddable d c2 ->
  duplicate_threshold config < dot (unit_embedding c2) (unit_embedding c1) ->
  retrieve vector_store provider config query filters = Ok [c1].
Proof.
  intros c1 c2 Hp Hfd Hk Hs H1 H2 Hsim.
  unfold retrieve, Embeddings.call. rewrite Hp. cbn.
  rewrite Hfd, Hs. cbn.
  change (_filter_duplicates vector_store config _)
    with (_filter_duplicates vector_store config [c1; c2]).
  rewrite (filter_duplicates_pair d c1 c2 H1 H2 Hsim). cbn.
  assert (Hslice : forall x : RetrievedChunk, slice_to [x] (top_k config) = [x]).
  { intros x. rewrite slice_to_take by lia.
    destruct (Z.to_nat (top_k config)) as [|[|n]] eqn:E; [lia| |]; reflexivity. }
  destruct (rerank_results config); cbn; now rewrite Hslice.
Qed.

Lemma update_ranks_similarity chunks :
  map similarity (update_ranks chunks) = map similarity chunks.
Proof.
  unfold update_ranks. generalize 0%Z.
  induction chunks as [|c chunks IH]; intros i; cbn; [reflexivity|].
  now rewrite IH.
Qed.

Lemma update_ranks_idem chunks :
  update_ranks (update_ranks chunks) = update_ranks chunks.
Proof.
  unfold update_ranks. generalize 0%Z.
  induction chunks as [|c chunks IH]; intros i; cbn; [reflexivity|].
  now rewrite IH.
Qed.

Lemma candidates_similarity results :
  map similarity (candidates results) = map score results.
Proof.
  unfold candidates.
  enough (Hg : forall (g : nat -> Z) rs,
            map similarity
              (imap (fun i result =>
                       mkRetrievedChunk (VectorStoreBase.chunk result)
                         (score result) (g i)) rs)
            = map score rs) by apply (Hg (fun i => (Z.of_nat i + 1)%Z)).
  intros g rs. revert g. induction rs as [|r rs IH]; intros g; [reflexivity|].
  cbn. f_equal. exact (IH (fun i => g (Datatypes.S i))).
Qed.

(** The pipeline with duplicate filtering: what is returned is the
    accepted candidates in their order, with ranks counted from 1, cut to
    [top_k].  Reranking, a stable sort by similarity, does not move them
    when the index returned its results best first. *)
Lemma retrieve_filtered provider d query filters qe more results :
  provider [query] = Some (qe :: more) ->
  filter_duplicates config = true ->
  similarity_search vector_store qe (top_k config * 2)%Z
    (min_similarity config) filters = Ok results ->
  Forall (embeddable d) (candidates results) ->
  rerank_results config = false \/ descending score results ->
  exists out,
    spec_greedy_filter [] (candidates results) out
    /\ out `sublist_of` candidates results
    /\ retrieve vector_store provider config query filters
       = Ok (slice_to (update_ranks out) (top_k config)).
Proof.
  intros Hp Hfd Hs Hemb Horder.
  destruct (filter_duplicates_greedy d (candidates results) Hemb)
    as (out & Hout & Hg & Hsub).
  exists out. split; [assumption|]. split; [assumption|].
  unfold retrieve, Embeddings.call. rewrite Hp. cbn.
  rewrite Hfd, Hs. cbn. fold (candidates results). rewrite Hout. cbn.
  destruct (rerank_results config) eqn:Hrr; [|reflexivity].
  destruct Horder as [?|Hdesc]; [discriminate|].
  unfold _rerank_results. rewrite sort_desc_id, !update_ranks_idem; [reflexivity|].
  eapply descending_map; [apply update_ranks_similarity|].
  eapply descending_sublist; [exact Hsub|].
  eapply descending_map; [apply candidates_similarity|exact Hdesc].
Qed.

End Greedy.

(** ** No configuration error after construction *)

Lemma no_config_error_Ok {A : Type} (a : A) : no_config_error (Ok a).
Proof. intros msg. discriminate. Qed.

Lemma no_config_error_bind {A B : Type} (r : result A) (k : A -> result B) :
  no_config_error r -> (forall a, no_config_error (k a)) ->
  no_config_error (r ≫= k).
Proof.
  intros Hr Hk msg. destruct r as [a|e|]; cbn.
  - apply Hk.
  - intros [= ->]. now apply (Hr msg).
  - discriminate.
Qed.

Create HintDb noerr.
#[local] Hint Resolve no_config_error_Ok : noerr.

Ltac noerr :=
  repeat first
    [ apply no_config_error_Ok
    | apply no_config_error_bind; [|intros ?] ];
  auto with noerr.

Lemma item_no_config_error {A : Type} (l : list A) i :
  no_config_error (item l i).
Proof. unfold item. destruct (l !! i); intros msg; discriminate. Qed.

Lemma call_no_config_error p texts :
  no_config_error (Embeddings.call p texts).
Proof. unfold Embeddings.call. destruct (p texts); intros msg; discriminate. Qed.

Lemma np_matvec_no_config_error rows q : no_config_error (np_matvec rows q).
Proof. unfold np_matvec. destruct (forallb _ _); intros msg; discriminate. Qed.

Lemma np_dot_no_config_error a b : no_config_error (np_dot a b).
Proof. unfold np_dot. destruct (decide _); intros msg; discriminate. Qed.

#[local] Hint Resolve item_no_config_error call_no_config_error
  np_matvec_no_config_error np_dot_no_config_error : noerr.

Lemma collect_no_config_error self h min_score filters sims : forall i,
  no_config_error (MemoryVectorStore.collect self h min_score filters i sims).
Proof.
  induction sims as [|s sims IH]; intros i; cbn; [noerr|].
  apply no_config_error_bind.
  - destruct (truthy filters); noerr.
  - intros keep. apply no_config_error_bind; [apply IH|intros; noerr].
Qed.

Lemma to_results_no_config_error self ranked : forall i,
  no_config_error (MemoryVectorStore.to_results self i ranked).
Proof.
  induction ranked as [|[idx sc] ranked IH]; intros i; cbn; [noerr|].
  apply no_config_error_bind; [noerr|intros t].
  apply no_config_error_bind; [noerr|intros l].
  apply no_config_error_bind; [apply IH|intros; noerr].
Qed.

Lemma memory_similarity_search_no_config_error self h q k min_score filters :
  no_config_error
    (MemoryVectorStore.similarity_search self h q k min_score filters).
Proof.
  unfold MemoryVectorStore.similarity_search. destruct (negb _); [noerr|].
  apply no_config_error_bind; [noerr|intros sims].
  apply no_config_error_bind; [apply collect_no_config_error|intros res].
  apply to_results_no_config_error.
Qed.

Lemma memory_get_embedding_no_config_error self t :
  no_config_error (MemoryVectorStore.get_embedding self t).
Proof. unfold MemoryVectorStore.get_embedding. noerr. Qed.

Section NoConfigError.
Context {S : Type} `{VectorStore S}.
Variable vector_store : S.
Variable provider : Embeddings.provider.
Variable config : RetrievalConfig.
Hypothesis search_ok : forall q k min_score filters,
  no_config_error (similarity_search vector_store q k min_score filters).
Hypothesis embed_ok : forall t, no_config_error (get_embedding vector_store t).

Lemma is_duplicate_no_config_error ce seen :
  no_config_error (is_duplicate config ce seen).
Proof.
  induction seen as [|s seen IH]; cbn; [noerr|].
  apply no_config_error_bind; [noerr|intros sim].
  destruct (Rltb _ _); [noerr|apply IH].
Qed.

Lemma filter_loop_no_config_error chunks : forall seen,
  no_config_error (filter_loop vector_store config chunks seen).
Proof.
  induction chunks as [|c chunks IH]; intros seen; cbn; [noerr|].
  apply no_config_error_bind; [apply embed_ok|intros e].
  apply no_config_error_bind; [apply is_duplicate_no_config_error|intros b].
  destruct b; [apply IH|].
  apply no_config_error_bind; [apply IH|intros; noerr].
Qed.

Lemma retrieve_no_config_error query filters :
  no_config_error (retrieve vector_store provider config query filters).
Proof.
  unfold retrieve.
  apply no_config_error_bind; [noerr|intros qes].
  apply no_config_error_bind; [noerr|intros qe].
  apply no_config_error_bind; [apply search_ok|intros results].
  apply no_config_error_bind; [|intros; noerr].
  destruct (filter_duplicates config); [|noerr].
  apply no_config_error_bind; [|intros; noerr].
  unfold _filter_duplicates. destruct (negb _); [noerr|].
  apply filter_loop_no_config_error.
Qed.

End NoConfigError.

Lemma memory_retrieve_no_config_error self h provider config query filters :
  no_config_error
    (retrieve (self, h) provider config query filters).
Proof.
  apply retrieve_no_config_error.
  - intros. apply memory_similarity_search_no_config_error.
  - intros. apply memory_get_embedding_no_config_error.
Qed.

(** What [RetrievalConfig.__post_init__] rejects. *)
Lemma new_RetrievalConfig_invalid tk ms rr fd dt :
  (tk <= 0)%Z \/ ms < 0 \/ 1 < ms \/ dt < 0 \/ 1 < dt ->
  is_ValueError (new_RetrievalConfig tk ms rr fd dt).
Proof.
  intros Hbad. unfold new_RetrievalConfig, __post_init__, is_ValueError. cbn.
  destruct (tk <=? 0)%Z eqn:E1; [eauto|].
  destruct (Rleb 0 ms && Rleb ms 1) eqn:E2; cbn; [|eauto].
  destruct (Rleb 0 dt && Rleb dt 1) eqn:E3; cbn; [|eauto].
  apply andb_true_iff in E2 as [E2a E2b], E3 as [E3a E3b].
  apply Rleb_spec in E2a, E2b, E3a, E3b.
  destruct Hbad as [?|[?|[?|[?|?]]]]; try lia; lra.
Qed.

End RetrievalFacts.

(** * The claims about retrieval and configuration *)

Module RetrievalClaims.
Import Py PyFacts Np NpSpec NpFacts VectorStoreBase Retrieval RetrievalSpec.
Import RetrievalFacts MemoryVectorStoreFacts Examples.
Open Scope R_scope.

(** C5.  With duplicate filtering, the candidates are visited in the
    order the index returned them; a candidate is dropped exactly when the
    dot product of its normalized embedding with the normalized embedding
    of a candidate accepted before it is strictly above
    [duplicate_threshold]; the accepted candidates are returned in their
    original order: [retrieve] returns them with ranks counted from 1,
    cut to [top_k] (reranking being off, or the index having returned its
    results best first).  In particular, when the index returns two candidates
    whose normalized embeddings have cosine similarity 0.99 and the
    threshold is 0.95, [retrieve] returns the first one only. *)
Theorem duplicates_filtered_greedily {S : Type} `{VectorStore S}
    (vector_store : S) (provider : Embeddings.provider)
    (config : RetrievalConfig) :
  (forall d chunks,
     Forall (embeddable vector_store d) chunks ->
     exists out,
       _filter_duplicates vector_store config chunks = Ok out
       /\ spec_greedy_filter vector_store config [] chunks out
       /\ out `sublist_of` chunks)
  /\ (forall d query filters qe more results,
        provider [query] = Some (qe :: more) ->
        filter_duplicates config = true ->
        similarity_search vector_store qe (top_k config * 2)%Z
          (min_similarity config) filters = Ok results ->
        Forall (embeddable vector_store d) (candidates results) ->
        rerank_results config = false \/ descending score results ->
        exists out,
          spec_greedy_filter vector_store config [] (candidates results) out
          /\ out `sublist_of` candidates results
          /\ retrieve vector_store provider config query filters
             = Ok (slice_to (update_ranks out) (top_k config)))
  /\ (forall d query filters qe more r1 r2,
        let c1 := mkRetrievedChunk (VectorStoreBase.chunk r1) (score r1) 1 in
        let c2 := mkRetrievedChunk (VectorStoreBase.chunk r2) (score r2) 2 in
        provider [query] = Some (qe :: more) ->
        filter_duplicates config = true ->
        (1 <= top_k config)%Z ->
        similarity_search vector_store qe (top_k config * 2)%Z
          (min_similarity config) filters = Ok [r1; r2] ->
        embeddable vector_store d c1 -> embeddable vector_store d c2 ->
        duplicate_threshold config = 95 / 100 ->
        dot (unit_embedding vector_store c2) (unit_embedding vector_store c1)
        = 99 / 100 ->
        retrieve vector_store provider config query filters = Ok [c1]).
Proof.
  split; [|split].
  - intros d chunks Hemb. now apply (filter_duplicates_greedy _ _ d).
  - intros d query filters qe more results Hp Hfd Hs Hemb Horder.
    now apply (retrieve_filtered vector_store config provider d query filters
                 qe more results).
  - intros d query filters qe more r1 r2 c1 c2 Hp Hfd Hk Hs H1 H2 Hthr Hcos.
    apply (retrieve_pair vector_store config provider d query filters qe more
             r1 r2 Hp Hfd Hk Hs H1 H2).
    fold c1 c2. rewrite Hthr, Hcos. lra.
Qed.

Lemma near_search :
  similarity_search (near_store, (∅ : heap)) [1; 0] (1 * 2)%Z (6 / 10) None
  = Ok [near_1; near_2].
Proof. eval_R. reflexivity. Qed.

Lemma norm_1_0 : norm [1; 0] = 1.
Proof.
  unfold norm. cbn. replace (1 * 1 + (0 * 0 + 0)) with 1 by ring. apply sqrt_1.
Qed.

Lemma norm_near_2 : norm [99 / 100; sqrt 199 / 100] = 1.
Proof.
  unfold norm. cbn.
  replace (99 / 100 * (99 / 100) + (sqrt 199 / 100 * (sqrt 199 / 100) + 0))
    with ((9801 + sqrt 199 * sqrt 199) / 10000) by field.
  rewrite sqrt_sqrt by lra.
  replace ((9801 + 199) / 10000) with 1 by field. apply sqrt_1.
Qed.

Lemma near_cosine :
  let c1 := mkRetrievedChunk (VectorStoreBase.chunk near_1) (score near_1) 1 in
  let c2 := mkRetrievedChunk (VectorStoreBase.chunk near_2) (score near_2) 2 in
  dot (unit_embedding (near_store, (∅ : heap)) c2)
      (unit_embedding (near_store, (∅ : heap)) c1) = 99 / 100.
Proof.
  cbv zeta.
  change (dot (div [99 / 100; sqrt 199 / 100] (norm [99 / 100; sqrt 199 / 100]))
              (div [1; 0] (norm [1; 0])) = 99 / 100).
  rewrite dot_div, norm_near_2, norm_1_0. cbn. field.
Qed.

Lemma duplicates_filtered_greedily_witness :
  retrieve (near_store, (∅ : heap)) near_provider near_config
    (lit "test query") None
  = Ok [mkRetrievedChunk (VectorStoreBase.chunk near_1) (score near_1) 1].
Proof.
  refine (proj2 (proj2 (duplicates_filtered_greedily (near_store, (∅ : heap))
                          near_provider near_config))
            2%nat (lit "test query") None [1; 0] [] near_1 near_2
            _ _ _ _ _ _ _ _).
  - reflexivity.
  - reflexivity.
  - cbn. lia.
  - exact near_search.
  - exists [1; 0]. split; reflexivity.
  - exists [99 / 100; sqrt 199 / 100]. split; reflexivity.
  - reflexivity.
  - exact near_cosine.
Defined.

(** C7.  Construction of [ChunkConfig] fails with a [ValueError] whenever
    [chunk_size <= 0], [chunk_overlap < 0], [chunk_overlap >= chunk_size],
    [min_chunk_size <= 0] or [min_chunk_size > chunk_size], in particular
    for [ChunkConfig(chunk_size=0)],
    [ChunkConfig(chunk_size=100, chunk_overlap=100)] and
    [ChunkConfig(chunk_size=100, min_chunk_size=101)]; construction of
    [RetrievalConfig] fails whenever [top_k <= 0] or [min_similarity] or
    [duplicate_threshold] is outside [0, 1]; with a configuration that
    passed construction both [chunk_text] return their chunks, and
    [retrieve] on the in-memory store raises no [ValueError]. *)
Theorem configuration_checked_at_construction :
  (forall cs co mn sn rs,
     (cs <= 0 \/ co < 0 \/ co >= cs \/ mn <= 0 \/ mn > cs)%Z ->
     is_ValueError (Chunking.new_ChunkConfig cs co mn sn rs))
  /\ is_ValueError
       (Chunking.new_ChunkConfig 0 Chunking.default_chunk_overlap
          Chunking.default_min_chunk_size Chunking.default_split_on_newline
          Chunking.default_respect_sentences)
  /\ is_ValueError
       (Chunking.new_ChunkConfig 100 100
          Chunking.default_min_chunk_size Chunking.default_split_on_newline
          Chunking.default_respect_sentences)
  /\ is_ValueError
       (Chunking.new_ChunkConfig 100 Chunking.default_chunk_overlap
          101 Chunking.default_split_on_newline
          Chunking.default_respect_sentences)
  /\ (forall tk ms rr fd dt,
        (tk <= 0)%Z \/ ms < 0 \/ 1 < ms \/ dt < 0 \/ 1 < dt ->
        is_ValueError (new_RetrievalConfig tk ms rr fd dt))
  /\ (forall cs co mn sn rs config text metadata,
        Chunking.new_ChunkConfig cs co mn sn rs = Ok config ->
        (exists chunks,
            Chunking.SimpleChunker.chunk_text config text metadata = Ok chunks)
        /\ (exists chunks,
            Chunking.RecursiveChunker.chunk_text config text metadata
            = Ok chunks))
  /\ (forall tk ms rr fd dt config self h provider query filters,
        new_RetrievalConfig tk ms rr fd dt = Ok config ->
        forall msg,
          retrieve (self, h) provider config query filters
          <> Raise (ValueError msg)).
Proof.
  assert (Hchunk : forall cs co mn sn rs,
            (cs <= 0 \/ co < 0 \/ co >= cs \/ mn <= 0 \/ mn > cs)%Z ->
            is_ValueError (Chunking.new_ChunkConfig cs co mn sn rs)).
  { intros cs co mn sn rs Hbad.
    unfold Chunking.new_ChunkConfig, Chunking.__post_init__, is_ValueError. cbn.
    destruct (cs <=? 0)%Z eqn:E1; [eauto|].
    destruct (co <? 0)%Z eqn:E2; [eauto|].
    destruct (co >=? cs)%Z eqn:E3; [eauto|].
    destruct (mn <=? 0)%Z eqn:E4; [eauto|].
    destruct (mn >? cs)%Z eqn:E5; [eauto|].
    lia. }
  split; [exact Hchunk|].
  split; [apply Hchunk; lia|].
  split; [apply Hchunk; unfold Chunking.default_min_chunk_size; lia|].
  split; [apply Hchunk; unfold Chunking.default_chunk_overlap; lia|].
  split; [exact new_RetrievalConfig_invalid|].
  split.
  - intros cs co mn sn rs config text metadata Hc.
    apply ChunkingFacts.new_ChunkConfig_Ok in Hc as [_ Hv]. split.
    + destruct (ChunkingFacts.simple_chunk_text_total config text metadata Hv)
        as (chunks & Hcs & _). eauto.
    + destruct (ChunkingFacts.recursive_chunk_text_total config text metadata Hv)
        as (chunks & Hcs & _). eauto.
  - intros tk ms rr fd dt config self h provider query filters _.
    apply memory_retrieve_no_config_error.
Qed.

Lemma configuration_checked_at_construction_witness :
  is_ValueError (Chunking.new_ChunkConfig 100 (-1) 20 true true)
  /\ is_ValueError (new_RetrievalConfig 5 (15 / 10) true true (95 / 100))
  /\ (exists chunks,
        Chunking.SimpleChunker.chunk_text (Chunking.mkChunkConfig 100 10 20 true true)
          (lit "This is a small text.") None = Ok chunks)
  /\ (forall msg,
        retrieve (near_store, (∅ : heap)) near_provider near_config
          (lit "test query") None <> Raise (ValueError msg)).
Proof.
  destruct configuration_checked_at_construction
    as (H1 & _ & _ & _ & H5 & H6 & H7).
  split; [apply H1; lia|].
  split; [apply H5; lra|].
  split; [apply (H6 100 10 20 true true _ _ None eq_refl)%Z|].
  refine (H7 1%Z (6 / 10) false true (95 / 100) near_config _ _ _ _ _ _).
  unfold new_RetrievalConfig, __post_init__. cbn.
  rewrite !Rleb_true by lra. reflexivity.
Defined.

End RetrievalClaims.

(** * Further properties of the string helpers *)

Module PyFacts2.
Import Py PyFacts ChunkingSpec ChunkingSpec2.

Lemma lstrip_idem s : lstrip (lstrip s) = lstrip s.
Proof.
  induction s as [|c s IH]; cbn; [reflexivity|].
  destruct (isspace c) eqn:E; [exact IH|]. cbn. now rewrite E.
Qed.

Lemma lstrip_snoc l h : isspace h = false -> lstrip (l ++ [h]) = lstrip l ++ [h].
Proof.
  intros Hh. induction l as [|c l IH]; cbn; [now rewrite Hh|].
  destruct (isspace c); [exact IH|reflexivity].
Qed.

Lemma rstrip_idem s : rstrip (rstrip s) = rstrip s.
Proof. unfold rstrip. now rewrite rev_involutive, lstrip_idem. Qed.

(** Stripping the right end of a left-stripped text leaves it
    left-stripped. *)
Lemma lstrip_rstrip_lstrip s : lstrip (rstrip (lstrip s)) = rstrip (lstrip s).
Proof.
  assert (Hx : forall x, lstrip x = x -> lstrip (rstrip x) = rstrip x).
  { intros [|h t] Hx; [reflexivity|].
    cbn in Hx. destruct (isspace h) eqn:Eh.
    - exfalso. destruct (lstrip_suffix t) as [pre Hpre].
      rewrite Hx in Hpre. apply (f_equal (@length _)) in Hpre.
      rewrite length_app in Hpre. cbn in Hpre. lia.
    - unfold rstrip. cbn [rev]. rewrite lstrip_snoc by assumption.
      rewrite rev_app_distr. cbn. now rewrite Eh. }
  apply Hx, lstrip_idem.
Qed.

Lemma strip_idem s : strip (strip s) = strip s.
Proof.
  unfold strip. rewrite lstrip_rstrip_lstrip. apply rstrip_idem.
Qed.

Lemma lstrip_all_space s : Forall (fun c => isspace c = true) s -> lstrip s = [].
Proof. induction 1 as [|c s Hc _ IH]; cbn; [reflexivity|]. now rewrite Hc. Qed.

Lemma strip_all_space s : Forall (fun c => isspace c = true) s -> strip s = [].
Proof. intros Hs. unfold strip. now rewrite lstrip_all_space. Qed.

Lemma lstrip_no_space s : Forall (fun c => isspace c = false) s -> lstrip s = s.
Proof. destruct 1 as [|c s Hc _]; cbn; [reflexivity|]. now rewrite Hc. Qed.

Lemma strip_no_space s : Forall (fun c => isspace c = false) s -> strip s = s.
Proof.
  intros Hs. unfold strip, rstrip. rewrite (lstrip_no_space s Hs).
  rewrite lstrip_no_space; [apply rev_involutive|].
  now apply Forall_rev.
Qed.

(** ** The characters that are not white space *)

Lemma non_space_app a b : non_space (a ++ b) = non_space a ++ non_space b.
Proof. apply List.filter_app. Qed.

Lemma non_space_lstrip s : non_space (lstrip s) = non_space s.
Proof.
  induction s as [|c s IH]; cbn; [reflexivity|].
  destruct (isspace c) eqn:E; cbn; [exact IH|]. now rewrite E.
Qed.

Lemma non_space_rev s : non_space (rev s) = rev (non_space s).
Proof.
  unfold non_space. induction s as [|c s IH]; cbn; [reflexivity|].
  rewrite List.filter_app, IH. cbn. destruct (negb (isspace c)); cbn;
    [reflexivity|now rewrite app_nil_r].
Qed.

Lemma non_space_strip s : non_space (strip s) = non_space s.
Proof.
  unfold strip, rstrip.
  now rewrite non_space_rev, non_space_lstrip, non_space_rev, rev_involutive,
    non_space_lstrip.
Qed.

(** Splitting on newlines and reading the pieces one after the other
    loses newlines only. *)
Lemma non_space_cons c s : non_space (c :: s) = non_space [c] ++ non_space s.
Proof. apply (non_space_app [c] s). Qed.

Lemma non_space_split_nl s : non_space (concat (split_nl s)) = non_space s.
Proof.
  induction s as [|c s IH]; [reflexivity|]. cbn [split_nl].
  destruct (c =? nl)%N eqn:E.
  - apply N.eqb_eq in E as ->. cbn [concat app].
    change (non_space (nl :: s)) with (non_space s). exact IH.
  - rewrite (non_space_cons c s), <- IH.
    destruct (split_nl s) as [|p ps]; cbn [concat app].
    + now rewrite app_nil_r.
    + now rewrite (non_space_cons c (p ++ concat ps)).
Qed.

End PyFacts2.

(** * Further properties of the chunkers *)

Module ChunkingExtras.
Import Py PyFacts PyFacts2 Chunking ChunkingSpec ChunkingSpec2 ChunkingFacts.

(** ** A property of the emitter that every append keeps *)

Section SimpleInvariant.
Variable config : ChunkConfig.
Variable text : str.
Variable md : dict.
Variable I : emitter -> Prop.
Hypothesis I_append : forall y start e,
  nonempty (strip y) = true -> I e -> I (append_chunk md (strip y) start e).

Lemma simple_emit_lines_inv pos lines : forall e,
  I e -> I (SimpleChunker.emit_lines text md pos lines e).
Proof.
  unfold SimpleChunker.emit_lines.
  induction lines as [|l lines IH]; intros e He; cbn; [assumption|].
  apply IH. destruct (nonempty _) eqn:Hn; auto.
Qed.

Lemma simple_emit_window_inv pos chunk_end e :
  I e -> I (SimpleChunker.emit_window config text md pos chunk_end e).
Proof.
  intros He. unfold SimpleChunker.emit_window.
  destruct (nonempty (strip (slice text pos chunk_end))) eqn:Hn; [|assumption].
  destruct (_ && _).
  - destruct (nonempty (strip (List.last _ _))) eqn:Hl;
      auto using simple_emit_lines_inv.
  - rewrite Hn. auto.
Qed.

Lemma simple_chunk_loop_inv fuel : forall pos e e',
  I e -> SimpleChunker.chunk_loop config fuel text md pos e = Ok e' -> I e'.
Proof.
  induction fuel as [|fuel IH]; intros pos e e' He; cbn.
  - destruct (negb _); [intros [= <-]; assumption|discriminate].
  - destruct (negb _); [intros [= <-]; assumption|].
    apply IH. now apply simple_emit_window_inv.
Qed.

End SimpleInvariant.

Section RecursiveInvariant.
Variable config : ChunkConfig.
Variable text : str.
Variable md : dict.
Variable I : emitter -> Prop.
Hypothesis I_append : forall t start e, I e -> I (append_chunk md t start e).

#[local] Abbreviation acc_inv a := (I (RecursiveChunker.out a)).

Lemma recursive_hard_split_inv sentence a a' :
  acc_inv a ->
  RecursiveChunker.hard_split config text md sentence a = Ok a' -> acc_inv a'.
Proof.
  intros Ha. unfold RecursiveChunker.hard_split.
  destruct (range0 _ _) as [offs| |]; cbn; try discriminate.
  intros [= <-]. revert a Ha.
  induction offs as [|i offs IH]; intros a Ha; cbn; [assumption|].
  apply IH. cbn. auto.
Qed.

Lemma recursive_sentence_loop_inv sentences : forall a a',
  acc_inv a ->
  RecursiveChunker.sentence_loop config text md sentences a = Ok a' ->
  acc_inv a'.
Proof.
  induction sentences as [|s ss IH]; intros a a' Ha; cbn.
  - now intros [= <-].
  - destruct (RecursiveChunker.sentence_step config text md s a)
      as [a1| |] eqn:Hs; cbn; try discriminate.
    apply IH. unfold RecursiveChunker.sentence_step in Hs.
    destruct (_ >? _).
    + eapply recursive_hard_split_inv; eassumption.
    + injection Hs as <-. destruct (_ >? _); cbn; auto.
Qed.

Lemma recursive_subsection_loop_inv subsections : forall a a',
  acc_inv a ->
  RecursiveChunker.subsection_loop config text md subsections a = Ok a' ->
  acc_inv a'.
Proof.
  induction subsections as [|s ss IH]; intros a a' Ha; cbn.
  - now intros [= <-].
  - destruct (RecursiveChunker.subsection_step config text md s a)
      as [a1| |] eqn:Hs; cbn; try discriminate.
    apply IH. unfold RecursiveChunker.subsection_step in Hs.
    destruct (negb _); [now injection Hs as <-|].
    set (a0 := if _ && _ then _ else a) in Hs.
    assert (Ha0 : acc_inv a0) by (subst a0; destruct (_ && _); cbn; auto).
    clearbody a0. destruct (_ >? _).
    + eapply recursive_sentence_loop_inv; eassumption.
    + now injection Hs as <-.
Qed.

Lemma recursive_section_loop_inv sections : forall e e',
  I e ->
  RecursiveChunker.section_loop config text md sections e = Ok e' -> I e'.
Proof.
  induction sections as [|s ss IH]; intros e e' He; cbn.
  - now intros [= <-].
  - destruct (RecursiveChunker.section_step config text md s e)
      as [e1| |] eqn:Hs; cbn; try discriminate.
    apply IH. unfold RecursiveChunker.section_step in Hs.
    destruct (negb _); [now injection Hs as <-|].
    destruct (_ <=? _); [injection Hs as <-; auto|].
    destruct (RecursiveChunker.subsection_loop _ _ _ _ _) as [a| |] eqn:Hl;
      cbn in Hs; try discriminate.
    injection Hs as <-.
    apply recursive_subsection_loop_inv in Hl; [|exact He].
    destruct (nonempty _); cbn; auto.
Qed.

End RecursiveInvariant.

(** X1.  With a configuration that passed construction, every chunk of
    [SimpleChunker.chunk_text] has at most [chunk_size] characters. *)
Theorem simple_chunks_within_size cs co mn sn rs config text metadata :
  new_ChunkConfig cs co mn sn rs = Ok config ->
  exists chunks,
    SimpleChunker.chunk_text config text metadata = Ok chunks
    /\ Forall (fun c => len (Chunking.text c) <= chunk_size config) chunks.
Proof.
  intros Hc. apply new_ChunkConfig_Ok in Hc as [_ Hv].
  destruct (simple_chunk_text_total config text metadata Hv) as (chunks & Hs & _).
  exists chunks. split; [exact Hs|].
  eapply Forall_impl; [exact (simple_chunks_sound config text metadata chunks Hv Hs)|].
  intros c [Hw _]. exact Hw.
Qed.

Lemma simple_chunks_within_size_witness :
  exists chunks,
    SimpleChunker.chunk_text (mkChunkConfig 12 3 2 true true)
      (lit "Alpha beta. Gamma" ++ [nl] ++ lit "delta epsilon zeta") None
    = Ok chunks
    /\ Forall (fun c => len (Chunking.text c) <= 12) chunks.
Proof.
  exact (simple_chunks_within_size 12 3 2 true true _ _ None eq_refl).
Defined.

(** X2.  With a configuration that passed construction, every chunk [c] of
    [SimpleChunker.chunk_text] on [text] has
    [0 <= start_char <= end_char <= len(text)] and
    [text[start_char:end_char] == c.text]. *)
Theorem simple_chunks_located cs co mn sn rs config text metadata :
  new_ChunkConfig cs co mn sn rs = Ok config ->
  exists chunks,
    SimpleChunker.chunk_text config text metadata = Ok chunks
    /\ Forall (fun c =>
                 0 <= start_char c <= end_char c /\ end_char c <= len text
                 /\ slice text (start_char c) (end_char c) = Chunking.text c)
         chunks.
Proof.
  intros Hc. apply new_ChunkConfig_Ok in Hc as [_ Hv].
  destruct (simple_chunk_text_total config text metadata Hv) as (chunks & Hs & _).
  exists chunks. split; [exact Hs|].
  eapply Forall_impl; [exact (simple_chunks_sound config text metadata chunks Hv Hs)|].
  intros c [_ Hl]. exact Hl.
Qed.

Lemma simple_chunks_located_witness :
  let text := lit "Alpha beta. Gamma" ++ [nl] ++ lit "delta epsilon zeta" in
  exists chunks,
    SimpleChunker.chunk_text (mkChunkConfig 12 3 2 true true) text None
    = Ok chunks
    /\ Forall (fun c =>
                 0 <= start_char c <= end_char c /\ end_char c <= len text
                 /\ slice text (start_char c) (end_char c) = Chunking.text c)
         chunks.
Proof.
  exact (simple_chunks_located 12 3 2 true true _ _ None eq_refl).
Defined.

(** X3.  Every chunk that [chunk_text] returns, of either strategy,
    carries the metadata mapping that was passed, and the empty mapping
    when none was. *)
Theorem chunks_carry_metadata config text metadata :
  (forall chunks,
     SimpleChunker.chunk_text config text metadata = Ok chunks ->
     Forall (fun c => Chunking.metadata c = metadata_or_empty metadata) chunks)
  /\ (forall chunks,
        RecursiveChunker.chunk_text config text metadata = Ok chunks ->
        Forall (fun c => Chunking.metadata c = metadata_or_empty metadata)
          chunks).
Proof.
  set (md := metadata_or_empty metadata).
  set (I := fun e => Forall (fun c => Chunking.metadata c = md) (chunks e)).
  assert (HI : forall t start e, I e -> I (append_chunk md t start e)).
  { intros t start e He. unfold I. cbn. apply Forall_app. split; [exact He|].
    now repeat constructor. }
  split; intros chunks.
  - unfold SimpleChunker.chunk_text.
    destruct (negb _); [intros [= <-]; constructor|].
    destruct (SimpleChunker.chunk_loop _ _ _ _ _ _) as [e| |] eqn:Hl; cbn;
      try discriminate.
    intros [= <-].
    apply (simple_chunk_loop_inv config text md I) in Hl;
      [exact Hl|intros; now apply HI|constructor].
  - unfold RecursiveChunker.chunk_text.
    destruct (negb _); [intros [= <-]; constructor|].
    destruct (RecursiveChunker.section_loop _ _ _ _ _) as [e| |] eqn:Hl; cbn;
      try discriminate.
    intros [= <-].
    apply (recursive_section_loop_inv config text md I HI) in Hl;
      [exact Hl|constructor].
Qed.

Lemma chunks_carry_metadata_witness :
  let md : dict := {[ "source"%string := PStr "test" ]} in
  exists chunks,
    RecursiveChunker.chunk_text (mkChunkConfig 12 3 2 true true)
      (lit "Alpha beta. Gamma" ++ [nl; nl] ++ lit "delta epsilon zeta")
      (Some md) = Ok chunks
    /\ Forall (fun c => Chunking.metadata c = md) chunks.
Proof.
  intros md. eexists. split; [vm_compute; reflexivity|].
  apply (proj2 (chunks_carry_metadata (mkChunkConfig 12 3 2 true true)
                  (lit "Alpha beta. Gamma" ++ [nl; nl] ++ lit "delta epsilon zeta")
                  (Some md))).
  vm_compute. reflexivity.
Defined.

(** ** Shapes of the texts of the chunks *)

Lemma nonempty_true {A : Type} (l : list A) : nonempty l = true <-> l <> [].
Proof. destruct l; cbn; split; congruence. Qed.

Lemma trimmed_strip y : nonempty (strip y) = true -> trimmed (strip y).
Proof.
  intros H. split; [now apply nonempty_true|apply strip_idem].
Qed.

Lemma is_prefix_refl s : is_prefix s s = true.
Proof. apply is_prefix_spec. exists []. now rewrite app_nil_r. Qed.

Lemma find_from_self t : find_from t t 0 = 0.
Proof.
  unfold find_from. change (0 <? 0) with false. cbn iota.
  destruct (Z.ltb_spec (len t) 0) as [H|_]; [unfold len in H; lia|].
  change (skipn (Z.to_nat 0) t) with t.
  destruct t; cbn; [reflexivity|].
  now rewrite N.eqb_refl, is_prefix_refl.
Qed.

Lemma slice_nat {A : Type} (s : list A) (a b : Z) :
  0 <= a <= b ->
  slice s a b = take (Z.to_nat b - Z.to_nat a) (drop (Z.to_nat a) s).
Proof.
  intros H. unfold slice, norm_index, len.
  destruct (a <? 0) eqn:Ha; [lia|]. destruct (b <? 0) eqn:Hb; [lia|].
  change (@firstn A) with (@take A). change (@skipn A) with (@drop A).
  destruct (Z.le_gt_cases a (Z.of_nat (length s))) as [Han|Han].
  - rewrite (Z.min_l a) by lia.
    destruct (Z.le_gt_cases b (Z.of_nat (length s))) as [Hbn|Hbn].
    + rewrite (Z.min_l b) by lia. f_equal. lia.
    + rewrite (Z.min_r b) by lia.
      rewrite !take_ge; [reflexivity| |]; rewrite length_drop; lia.
  - rewrite !Z.min_r by lia. rewrite Z.sub_diag. cbn.
    rewrite (drop_ge s (Z.to_nat a)) by lia. now rewrite take_nil.
Qed.

Lemma slice_full {A : Type} (s : list A) : slice s 0 (len s) = s.
Proof.
  rewrite slice_nat by (unfold len; lia). cbn.
  rewrite Nat.sub_0_r. apply take_ge. unfold len. lia.
Qed.

Lemma slice_all_space s a b :
  Forall (fun c => isspace c = true) s ->
  Forall (fun c => isspace c = true) (slice s a b).
Proof.
  intros H. unfold slice.
  change (@firstn char) with (@take char). change (@skipn char) with (@drop char).
  now apply Forall_take, Forall_drop.
Qed.

Lemma split_blank_lines_go_plain s : forall cur,
  Forall (fun c => c <> nl) s -> split_blank_lines_go s cur Plain = [cur ++ s].
Proof.
  induction s as [|c s IH]; intros cur H; cbn.
  - now rewrite app_nil_r.
  - inversion H as [|? ? Hc Hs]; subst.
    destruct (N.eqb_spec c nl) as [->|_]; [contradiction|].
    rewrite IH by assumption. now rewrite <- app_assoc.
Qed.

Lemma split_blank_lines_go_all_space s : forall cur st,
  all_space s -> all_space cur -> blank_state_all_space st ->
  Forall all_space (split_blank_lines_go s cur st).
Proof.
  unfold all_space.
  induction s as [|c s IH]; intros cur st Hs Hcur Hst.
  - destruct st; cbn in *;
      repeat first [assumption | apply Forall_nil_2 | apply Forall_app_2
                   | apply Forall_cons_2 | reflexivity].
  - inversion Hs as [|? ? Hc Hs']; subst.
    destruct st as [|ws|after]; cbn in *;
      destruct (c =? nl)%N; try rewrite Hc; apply IH; cbn;
      repeat first [assumption | exact I | apply Forall_nil_2
                   | apply Forall_app_2 | apply Forall_cons_2 | reflexivity].
Qed.

Lemma section_loop_all_space config text md sections : forall e,
  Forall all_space sections ->
  RecursiveChunker.section_loop config text md sections e = Ok e.
Proof.
  induction sections as [|s ss IH]; intros e H; cbn; [reflexivity|].
  inversion H as [|? ? Hs Hss]; subst.
  unfold RecursiveChunker.section_step.
  rewrite (strip_all_space s Hs). cbn. now apply IH.
Qed.

Lemma simple_emit_window_all_space config text md pos chunk_end e :
  all_space text ->
  SimpleChunker.emit_window config text md pos chunk_end e = e.
Proof.
  intros H. unfold SimpleChunker.emit_window.
  now rewrite (strip_all_space _ (slice_all_space text pos chunk_end H)).
Qed.

Lemma simple_chunk_loop_all_space config text md fuel : forall pos e e',
  all_space text ->
  SimpleChunker.chunk_loop config fuel text md pos e = Ok e' -> e' = e.
Proof.
  induction fuel as [|fuel IH]; intros pos e e' H; cbn.
  - destruct (negb _); [now intros [= <-]|discriminate].
  - destruct (negb _); [now intros [= <-]|].
    rewrite simple_emit_window_all_space by assumption. now apply IH.
Qed.

(** X4.  The text of every chunk of [SimpleChunker.chunk_text] is not
    empty and has no white space at either end. *)
Theorem simple_chunks_trimmed config text metadata chunks :
  SimpleChunker.chunk_text config text metadata = Ok chunks ->
  Forall (fun c => Chunking.text c <> [] /\ strip (Chunking.text c) = Chunking.text c)
    chunks.
Proof.
  unfold SimpleChunker.chunk_text.
  destruct (negb _); [intros [= <-]; constructor|].
  destruct (SimpleChunker.chunk_loop _ _ _ _ _ _) as [e| |] eqn:Hl; cbn;
    try discriminate.
  intros [= <-].
  eapply (simple_chunk_loop_inv config text (metadata_or_empty metadata)
            (fun e => Forall (fun c => trimmed (Chunking.text c)) (Chunking.chunks e)));
    [| |exact Hl]; [|apply Forall_nil_2].
  intros y start e0 Hy He0. cbn. apply Forall_app. split; [exact He0|].
  repeat constructor; now apply trimmed_strip.
Qed.

Lemma simple_chunks_trimmed_witness :
  exists chunks,
    SimpleChunker.chunk_text (mkChunkConfig 12 3 2 true true)
      (lit "  Alpha beta.   Gamma " ++ [nl] ++ lit " delta  epsilon zeta ") None
    = Ok chunks
    /\ Forall (fun c => Chunking.text c <> []
                        /\ strip (Chunking.text c) = Chunking.text c) chunks.
Proof.
  eexists. split; [vm_compute; reflexivity|].
  apply (simple_chunks_trimmed (mkChunkConfig 12 3 2 true true)
           (lit "  Alpha beta.   Gamma " ++ [nl] ++ lit " delta  epsilon zeta ")
           None).
  vm_compute. reflexivity.
Defined.

(** X5.  A text that is not empty, has no white space at either end and
    has at most [chunk_size] characters is returned by
    [SimpleChunker.chunk_text] as one chunk: the whole text, from offset 0
    to its length, with index 0. *)
Theorem simple_small_text_is_one_chunk config text metadata :
  text <> [] -> strip text = text -> len text <= chunk_size config ->
  SimpleChunker.chunk_text config text metadata
  = Ok [mkTextChunk text (metadata_or_empty metadata) 0 (len text) 0].
Proof.
  intros Hne Hst Hlen. unfold SimpleChunker.chunk_text.
  apply nonempty_true in Hne as Hn. rewrite Hn. cbn [negb].
  assert (Hpos : (0 <? len text) = true).
  { apply Z.ltb_lt. destruct text; [discriminate|]. unfold len. cbn [length]. lia. }
  destruct (length text) as [|fuel] eqn:Hfuel.
  { destruct text; [discriminate|]. discriminate. }
  cbn [SimpleChunker.chunk_loop]. rewrite Hpos. cbn [negb].
  rewrite advance_is_chunk_end.
  assert (Hwe : SimpleChunker.window_end config text 0 = len text).
  { unfold SimpleChunker.window_end. cbn [Z.add].
    rewrite Z.min_r by lia. cbv zeta.
    rewrite Z.ltb_irrefl, andb_false_r. cbv iota.
    rewrite Z.ltb_irrefl. reflexivity. }
  rewrite Hwe.
  assert (Hem : SimpleChunker.emit_window config text (metadata_or_empty metadata)
                  0 (len text) (mkEmitter [] 0)
                = append_chunk (metadata_or_empty metadata) text 0 (mkEmitter [] 0)).
  { unfold SimpleChunker.emit_window.
    rewrite slice_full, Hst, Hn, Z.ltb_irrefl, andb_false_r, Hn, find_from_self.
    reflexivity. }
  rewrite Hem.
  assert (Hstop : forall e, SimpleChunker.chunk_loop config fuel text
                              (metadata_or_empty metadata) (len text) e = Ok e).
  { intros e. destruct fuel; cbn; now rewrite Z.ltb_irrefl. }
  rewrite Hstop. reflexivity.
Qed.

Lemma simple_small_text_is_one_chunk_witness :
  SimpleChunker.chunk_text (mkChunkConfig 512 50 20 true true)
    (lit "Small text.") None
  = Ok [mkTextChunk (lit "Small text.") ∅ 0 11 0].
Proof.
  apply (simple_small_text_is_one_chunk (mkChunkConfig 512 50 20 true true)
           (lit "Small text.") None).
  - discriminate.
  - reflexivity.
  - vm_compute. discriminate.
Defined.

(** X6.  A one-line text (no newline) that is not empty, has no white
    space at either end and has at most [chunk_size] characters is
    returned by [RecursiveChunker.chunk_text] as one chunk: the whole
    text, from offset 0 to its length, with index 0. *)
Theorem recursive_small_text_is_one_chunk config text metadata :
  text <> [] -> strip text = text -> Forall (fun c => c <> nl) text ->
  len text <= chunk_size config ->
  RecursiveChunker.chunk_text config text metadata
  = Ok [mkTextChunk text (metadata_or_empty metadata) 0 (len text) 0].
Proof.
  intros Hne Hst Hnl Hlen. unfold RecursiveChunker.chunk_text.
  apply nonempty_true in Hne as Hn. rewrite Hn. cbn [negb].
  unfold split_blank_lines. rewrite split_blank_lines_go_plain by assumption.
  cbn [app RecursiveChunker.section_loop].
  unfold RecursiveChunker.section_step. rewrite Hst, Hn. cbn [negb].
  destruct (Z.leb_spec (len text) (chunk_size config)) as [_|]; [|lia].
  unfold find. rewrite find_from_self. reflexivity.
Qed.

Lemma recursive_small_text_is_one_chunk_witness :
  RecursiveChunker.chunk_text (mkChunkConfig 512 50 20 true true)
    (lit "Small text.") None
  = Ok [mkTextChunk (lit "Small text.") ∅ 0 11 0].
Proof.
  apply (recursive_small_text_is_one_chunk (mkChunkConfig 512 50 20 true true)
           (lit "Small text.") None).
  - discriminate.
  - reflexivity.
  - repeat constructor; discriminate.
  - vm_compute. discriminate.
Defined.

(** X7.  A text of white space only gives no chunk: with a configuration
    that passed construction [SimpleChunker.chunk_text] returns the empty
    list, and [RecursiveChunker.chunk_text] returns it with every
    configuration. *)
Theorem blank_text_has_no_chunks config text metadata :
  Forall (fun c => isspace c = true) text ->
  (valid config -> SimpleChunker.chunk_text config text metadata = Ok [])
  /\ RecursiveChunker.chunk_text config text metadata = Ok [].
Proof.
  intros Hsp. split.
  - intros Hv. unfold SimpleChunker.chunk_text.
    destruct (negb _); [reflexivity|].
    destruct (chunk_loop_terminates config (length text) text
                (metadata_or_empty metadata) 0 (mkEmitter [] 0)) as [e' He'];
      [unfold valid in Hv; lia..|unfold len; lia|].
    rewrite He'. cbn.
    now apply simple_chunk_loop_all_space in He' as ->.
  - unfold RecursiveChunker.chunk_text.
    destruct (negb _); [reflexivity|].
    rewrite section_loop_all_space; [reflexivity|].
    apply split_blank_lines_go_all_space; cbn; auto. constructor.
Qed.

Lemma blank_text_has_no_chunks_witness :
  SimpleChunker.chunk_text (mkChunkConfig 4 1 2 true true)
    (lit "   " ++ [nl; nl] ++ lit "    ") None = Ok []
  /\ RecursiveChunker.chunk_text (mkChunkConfig 4 1 2 true true)
       (lit "   " ++ [nl; nl] ++ lit "    ") None = Ok [].
Proof.
  destruct (blank_text_has_no_chunks (mkChunkConfig 4 1 2 true true)
              (lit "   " ++ [nl; nl] ++ lit "    ") None) as [Hs Hr].
  - repeat constructor.
  - split; [apply Hs; unfold valid; cbn; lia|exact Hr].
Defined.

(** ** What the chunks keep of the text *)

Lemma texts_of_append md t start e :
  texts_of (chunks (append_chunk md t start e)) = texts_of (chunks e) ++ t.
Proof.
  unfold texts_of. cbn. rewrite map_app, concat_app. cbn.
  now rewrite app_nil_r.
Qed.

Lemma non_space_nil_strip y : nonempty (strip y) = false -> non_space y = [].
Proof.
  intros H. rewrite <- non_space_strip. now destruct (strip y).
Qed.

Lemma simple_emit_piece_texts md y start e :
  non_space
    (texts_of (chunks (if nonempty (strip y)
                       then append_chunk md (strip y) start e else e)))
  = non_space (texts_of (chunks e)) ++ non_space y.
Proof.
  destruct (nonempty (strip y)) eqn:Hn.
  - now rewrite texts_of_append, non_space_app, non_space_strip.
  - now rewrite (non_space_nil_strip y Hn), app_nil_r.
Qed.

Lemma simple_emit_lines_texts text md pos lines : forall e,
  non_space (texts_of (chunks (SimpleChunker.emit_lines text md pos lines e)))
  = non_space (texts_of (chunks e)) ++ non_space (concat lines).
Proof.
  unfold SimpleChunker.emit_lines.
  induction lines as [|l lines IH]; intros e; cbn [fold_left concat].
  - now rewrite app_nil_r.
  - rewrite IH. cbv beta zeta.
    rewrite simple_emit_piece_texts, non_space_app. now rewrite app_assoc.
Qed.

Lemma concat_removelast_last (lines : list str) :
  lines <> [] -> concat (removelast lines) ++ List.last lines [] = concat lines.
Proof.
  intros H. rewrite (app_removelast_last [] H) at 3.
  rewrite concat_app. cbn. now rewrite app_nil_r.
Qed.

Lemma split_nl_nonempty s : split_nl s <> [].
Proof.
  destruct s as [|c s]; cbn; [discriminate|].
  destruct (c =? nl)%N; [discriminate|]. now destruct (split_nl s).
Qed.

Lemma simple_emit_window_texts config text md pos chunk_end e :
  non_space
    (texts_of (chunks (SimpleChunker.emit_window config text md pos chunk_end e)))
  = non_space (texts_of (chunks e)) ++ non_space (slice text pos chunk_end).
Proof.
  unfold SimpleChunker.emit_window.
  set (w := slice text pos chunk_end).
  destruct (nonempty (strip w)) eqn:Hn.
  - destruct (_ && _); cbv beta iota zeta.
    + rewrite simple_emit_piece_texts, simple_emit_lines_texts.
      rewrite <- app_assoc, <- non_space_app.
      rewrite concat_removelast_last by apply split_nl_nonempty.
      now rewrite non_space_split_nl, non_space_strip.
    + rewrite Hn. now rewrite texts_of_append, non_space_app, non_space_strip.
  - now rewrite (non_space_nil_strip w Hn), app_nil_r.
Qed.

Lemma take_plus_drop {A : Type} (a k : nat) : forall s : list A,
  take a s ++ take k (drop a s) = take (a + k) s.
Proof.
  induction a as [|a IH]; intros s; [reflexivity|].
  destruct s as [|x s]; cbn; [now rewrite take_nil|].
  now rewrite IH.
Qed.

Lemma take_slice {A : Type} (s : list A) (a b : Z) :
  0 <= a <= b ->
  take (Z.to_nat a) s ++ slice s a b = take (Z.to_nat b) s.
Proof.
  intros H. rewrite slice_nat by assumption. rewrite take_plus_drop.
  f_equal. lia.
Qed.

Lemma slice_drop {A : Type} (s : list A) (a b : Z) :
  0 <= a <= b ->
  slice s a b ++ drop (Z.to_nat b) s = drop (Z.to_nat a) s.
Proof.
  intros H. rewrite slice_nat by assumption.
  assert (drop (Z.to_nat b) s
          = drop (Z.to_nat b - Z.to_nat a) (drop (Z.to_nat a) s)) as ->
    by (rewrite drop_drop; f_equal; lia).
  apply take_drop.
Qed.

Lemma slice_len {A : Type} (s : list A) (a b : Z) :
  0 <= a <= b -> len (slice s a b) = Z.min (b - a) (Z.max (len s - a) 0).
Proof.
  intros H. rewrite slice_nat by assumption. unfold len.
  rewrite length_take, length_drop. lia.
Qed.

Lemma simple_chunk_loop_texts config fuel text md : forall pos e e',
  0 < chunk_size config -> 0 <= min_chunk_size config -> 0 <= pos ->
  non_space (texts_of (chunks e)) = non_space (take (Z.to_nat pos) text) ->
  SimpleChunker.chunk_loop config fuel text md pos e = Ok e' ->
  non_space (texts_of (chunks e')) = non_space text.
Proof.
  assert (Hstop : forall pos e, 0 <= pos -> (pos <? len text) = false ->
            non_space (texts_of (chunks e)) = non_space (take (Z.to_nat pos) text) ->
            non_space (texts_of (chunks e)) = non_space text).
  { intros pos e Hpos Hc ->. rewrite take_ge; [reflexivity|].
    apply Z.ltb_ge in Hc. unfold len in Hc. lia. }
  induction fuel as [|fuel IH]; intros pos e e' Hcs Hmn Hpos He; cbn.
  - destruct (pos <? len text) eqn:Hc; cbn; [discriminate|].
    intros [= <-]. eauto.
  - destruct (pos <? len text) eqn:Hc; cbn; [|intros [= <-]; eauto].
    apply Z.ltb_lt in Hc.
    pose proof (window_end_progress config text pos Hcs Hmn Hc) as Hprog.
    rewrite advance_is_chunk_end.
    apply IH; try lia.
    rewrite simple_emit_window_texts, He, <- non_space_app.
    now rewrite take_slice by lia.
Qed.

(** X8.  With a configuration that passed construction,
    [SimpleChunker.chunk_text] keeps every character of the text that is
    not white space exactly once and in order: the texts of the chunks,
    read one after the other and without their white space, are the text
    without its white space (so no chunk repeats a part of another). *)
Theorem simple_chunks_keep_the_text cs co mn sn rs config text metadata :
  new_ChunkConfig cs co mn sn rs = Ok config ->
  exists chunks,
    SimpleChunker.chunk_text config text metadata = Ok chunks
    /\ non_space (texts_of chunks) = non_space text.
Proof.
  intros Hc. apply new_ChunkConfig_Ok in Hc as [_ Hv].
  destruct (simple_chunk_text_total config text metadata Hv) as (cks & Hs & _).
  exists cks. split; [exact Hs|].
  unfold SimpleChunker.chunk_text in Hs.
  destruct (nonempty text) eqn:Hn; cbn in Hs.
  - destruct (SimpleChunker.chunk_loop _ _ _ _ _ _) as [e| |] eqn:Hl; cbn in Hs;
      try discriminate.
    injection Hs as <-. unfold valid in Hv.
    eapply (simple_chunk_loop_texts config _ text _ 0); [..|exact Hl];
      try lia. reflexivity.
  - injection Hs as <-. now destruct text.
Qed.

Lemma simple_chunks_keep_the_text_witness :
  let text := lit "Alpha beta. Gamma" ++ [nl] ++ lit "delta epsilon zeta" in
  exists chunks,
    SimpleChunker.chunk_text (mkChunkConfig 12 3 2 true true) text None
    = Ok chunks
    /\ non_space (texts_of chunks) = non_space text.
Proof.
  exact (simple_chunks_keep_the_text 12 3 2 true true _ _ None eq_refl).
Defined.

(** ** A text without white space, cut by the recursive chunker *)

Lemma split_nl_no_nl s : Forall (fun c => c <> nl) s -> split_nl s = [s].
Proof.
  induction s as [|c s IH]; intros H; cbn; [reflexivity|].
  inversion H as [|? ? Hc Hs]; subst.
  destruct (N.eqb_spec c nl) as [->|_]; [contradiction|].
  now rewrite IH.
Qed.

Lemma split_sentences_go_no_space s : forall cur prev_term,
  Forall (fun c => isspace c = false) s ->
  split_sentences_go s cur prev_term false = [cur ++ s].
Proof.
  induction s as [|c s IH]; intros cur pt H; cbn.
  - now rewrite app_nil_r.
  - inversion H as [|? ? Hc Hs]; subst. rewrite Hc. cbn.
    rewrite IH by assumption. now rewrite <- app_assoc.
Qed.

Lemma no_space_no_nl s :
  Forall (fun c => isspace c = false) s -> Forall (fun c => c <> nl) s.
Proof.
  intros H. eapply Forall_impl; [exact H|]. intros c Hc ->. discriminate.
Qed.

Lemma range_go_slices {A : Type} (s : list A) (step : Z) :
  0 < step ->
  forall fuel i, 0 <= i -> len s - i <= Z.of_nat fuel ->
    concat (map (fun j => slice s j (j + step)) (range_go fuel i (len s) step))
    = drop (Z.to_nat i) s
    /\ Forall (fun j => 0 < len (slice s j (j + step)) <= step)
         (range_go fuel i (len s) step).
Proof.
  intros Hstep. induction fuel as [|fuel IH]; intros i Hi Hf; cbn.
  - split; [|constructor]. rewrite drop_ge; [reflexivity|]. unfold len in Hf. lia.
  - destruct (Z.ltb_spec i (len s)) as [Hlt|Hge].
    + destruct (IH (i + step)) as [Hc Hl]; [lia..|].
      cbn. rewrite Hc. split; [apply slice_drop; lia|].
      constructor; [|exact Hl]. rewrite slice_len by lia. lia.
    + split; [|constructor]. rewrite drop_ge; [reflexivity|].
      unfold len in Hge. lia.
Qed.

Lemma hard_split_fold config text md sentence offs : forall a,
  let a' :=
    fold_left
      (fun a i =>
         let chunk_text := slice sentence i (i + chunk_size config) in
         let start_char := find text chunk_text in
         RecursiveChunker.mkAcc
           (append_chunk md chunk_text start_char (RecursiveChunker.out a))
           (RecursiveChunker.current_chunk a)
           (RecursiveChunker.current_length a))
      offs a in
  map Chunking.text (chunks (RecursiveChunker.out a'))
  = map Chunking.text (chunks (RecursiveChunker.out a))
    ++ map (fun i => slice sentence i (i + chunk_size config)) offs
  /\ RecursiveChunker.current_chunk a' = RecursiveChunker.current_chunk a.
Proof.
  induction offs as [|i offs IH]; intros a; cbn.
  - now rewrite app_nil_r.
  - destruct (IH (RecursiveChunker.mkAcc
                    (append_chunk md (slice sentence i (i + chunk_size config))
                       (find text (slice sentence i (i + chunk_size config)))
                       (RecursiveChunker.out a))
                    (RecursiveChunker.current_chunk a)
                    (RecursiveChunker.current_length a))) as [H1 H2].
    cbn in H1, H2. rewrite H1, H2. rewrite map_app. cbn.
    now rewrite <- app_assoc.
Qed.

(** X9.  A text without any white space that is longer than a positive
    [chunk_size] is cut by [RecursiveChunker.chunk_text] into pieces that,
    read one after the other, are the text; no piece is empty and none has
    more than [chunk_size] characters. *)
Theorem recursive_unbroken_text_is_cut config text metadata :
  0 < chunk_size config ->
  Forall (fun c => isspace c = false) text ->
  chunk_size config < len text ->
  exists chunks,
    RecursiveChunker.chunk_text config text metadata = Ok chunks
    /\ texts_of chunks = text
    /\ Forall (fun c => 0 < len (Chunking.text c) <= chunk_size config) chunks.
Proof.
  intros Hcs Hsp Hlen.
  pose proof (no_space_no_nl text Hsp) as Hnl.
  assert (Hn : nonempty text = true).
  { destruct text; [unfold len in Hlen; cbn in Hlen; lia|reflexivity]. }
  destruct (range_go_slices text (chunk_size config) Hcs
              (Z.to_nat (len text)) 0) as [Hcat Hall];
    [lia|unfold len; lia|].
  set (offs := range_go (Z.to_nat (len text)) 0 (len text) (chunk_size config))
    in *.
  set (md := metadata_or_empty metadata).
  destruct (hard_split_fold config text md text offs
              (RecursiveChunker.mkAcc (mkEmitter [] 0) [] 0)) as [Hmap Hcur].
  cbn zeta in Hmap, Hcur. cbn [RecursiveChunker.out RecursiveChunker.current_chunk
                                 chunks app] in Hmap, Hcur.
  eexists. split.
  - unfold RecursiveChunker.chunk_text. rewrite Hn. cbn [negb].
    unfold split_blank_lines. rewrite split_blank_lines_go_plain by assumption.
    cbn [app RecursiveChunker.section_loop].
    unfold RecursiveChunker.section_step.
    rewrite (strip_no_space text Hsp), Hn. cbn [negb].
    destruct (Z.leb_spec (len text) (chunk_size config)) as [|_]; [lia|].
    rewrite split_nl_no_nl by assumption.
    cbn [RecursiveChunker.subsection_loop].
    unfold RecursiveChunker.subsection_step.
    rewrite (strip_no_space text Hsp), Hn.
    cbn [negb RecursiveChunker.current_chunk nonempty andb].
    rewrite andb_false_r.
    destruct (Z.gtb_spec (len text) (chunk_size config)) as [_|]; [|lia].
    unfold split_sentences. rewrite split_sentences_go_no_space by assumption.
    cbn [app RecursiveChunker.sentence_loop].
    unfold RecursiveChunker.sentence_step.
    destruct (Z.gtb_spec (len text) (chunk_size config)) as [_|]; [|lia].
    unfold RecursiveChunker.hard_split, range0.
    destruct (Z.eqb_spec (chunk_size config) 0) as [|_]; [lia|].
    destruct (Z.ltb_spec (chunk_size config) 0) as [|_]; [lia|].
    fold offs. fold md. cbn [mbind result_bind bind].
    rewrite Hcur. cbn [nonempty]. reflexivity.
  - unfold texts_of. rewrite Hmap. split; [exact Hcat|].
    rewrite <- Forall_map with (f := Chunking.text)
      (P := fun t => 0 < len t <= chunk_size config).
    rewrite Hmap. now apply Forall_map.
Qed.

Lemma recursive_unbroken_text_is_cut_witness :
  exists chunks,
    RecursiveChunker.chunk_text (mkChunkConfig 4 1 2 true true)
      (lit "abcdefghij") None = Ok chunks
    /\ texts_of chunks = lit "abcdefghij"
    /\ Forall (fun c => 0 < len (Chunking.text c) <= 4) chunks.
Proof.
  apply (recursive_unbroken_text_is_cut (mkChunkConfig 4 1 2 true true)
           (lit "abcdefghij") None).
  - cbn. lia.
  - repeat constructor.
  - vm_compute. reflexivity.
Defined.

(** ** What the recursive chunker keeps of the text *)

Lemma non_space_nl_cons s : non_space (nl :: s) = non_space s.
Proof. reflexivity. Qed.

Lemma non_space_join_nl parts :
  non_space (join_nl parts) = non_space (concat parts).
Proof.
  induction parts as [|p parts IH]; [reflexivity|].
  destruct parts as [|p' parts].
  - cbn. now rewrite app_nil_r.
  - change (join_nl (p :: p' :: parts)) with (p ++ nl :: join_nl (p' :: parts)).
    change (concat (p :: p' :: parts)) with (p ++ concat (p' :: parts)).
    now rewrite !non_space_app, non_space_nl_cons, IH.
Qed.

Lemma non_space_all_space s : all_space s -> non_space s = [].
Proof.
  induction 1 as [|c s Hc Hs IH]; [reflexivity|].
  rewrite non_space_cons, IH. unfold non_space. cbn. now rewrite Hc.
Qed.

Lemma non_space_one_space c : isspace c = true -> non_space [c] = [].
Proof. intros H. unfold non_space. cbn. now rewrite H. Qed.

Lemma all_space_snoc ws c : all_space ws -> isspace c = true -> all_space (ws ++ [c]).
Proof.
  intros Hws Hc. apply Forall_app. split; [exact Hws|]. now repeat constructor.
Qed.

Lemma non_space_split_blank_lines_go s : forall cur st,
  blank_state_all_space st ->
  non_space (concat (split_blank_lines_go s cur st))
  = non_space cur ++ non_space s.
Proof.
  induction s as [|c s IH]; intros cur st Hst.
  - destruct st as [|ws|after]; cbn [split_blank_lines_go concat];
      cbn [blank_state_all_space] in Hst;
      rewrite ?app_nil_r, ?non_space_app, ?non_space_nl_cons,
        ?(non_space_all_space _ Hst), ?app_nil_r;
      reflexivity.
  - rewrite (non_space_cons c s).
    destruct st as [|ws|after]; cbn [split_blank_lines_go];
      cbn [blank_state_all_space] in Hst.
    + destruct (N.eqb_spec c nl) as [->|_].
      * rewrite IH by constructor. reflexivity.
      * rewrite IH by exact I. now rewrite non_space_app, <- app_assoc.
    + destruct (N.eqb_spec c nl) as [->|_]; [|destruct (isspace c) eqn:Hc].
      * rewrite IH by constructor. reflexivity.
      * rewrite IH by now apply all_space_snoc.
        now rewrite (non_space_one_space c Hc).
      * rewrite IH by exact I.
        rewrite !non_space_app, non_space_nl_cons, non_space_app.
        rewrite (non_space_all_space _ Hst). cbn [app].
        now rewrite <- app_assoc.
    + destruct (N.eqb_spec c nl) as [->|_]; [|destruct (isspace c) eqn:Hc].
      * rewrite IH by constructor. reflexivity.
      * rewrite IH by now apply all_space_snoc.
        now rewrite (non_space_one_space c Hc).
      * cbn [concat]. rewrite non_space_app, IH by exact I.
        rewrite non_space_app, (non_space_all_space _ Hst). reflexivity.
Qed.

Lemma non_space_split_blank_lines s :
  non_space (concat (split_blank_lines s)) = non_space s.
Proof.
  unfold split_blank_lines.
  now rewrite non_space_split_blank_lines_go by exact I.
Qed.

Lemma non_space_split_sentences_go s : forall cur prev_term insep,
  non_space (concat (split_sentences_go s cur prev_term insep))
  = non_space cur ++ non_space s.
Proof.
  induction s as [|c s IH]; intros cur pt insep.
  - cbn. now rewrite !app_nil_r.
  - rewrite (non_space_cons c s). cbn [split_sentences_go].
    destruct (isspace c && (insep || pt)) eqn:E.
    + apply andb_true_iff in E as [Hc _].
      rewrite (non_space_one_space c Hc). cbn [app].
      destruct insep; [apply IH|].
      cbn [concat]. rewrite non_space_app, IH. reflexivity.
    + rewrite IH, non_space_app. now rewrite <- app_assoc.
Qed.

Lemma non_space_split_sentences s :
  non_space (concat (split_sentences s)) = non_space s.
Proof. unfold split_sentences. now rewrite non_space_split_sentences_go. Qed.

Section RecursiveKeeps.
Variable config : ChunkConfig.
Variable text : str.
Variable md : dict.
Hypothesis chunk_size_pos : 0 < chunk_size config.

Lemma kept_flush a : kept (RecursiveChunker.flush text md a) = kept a.
Proof.
  unfold kept, RecursiveChunker.flush.
  cbn [RecursiveChunker.out RecursiveChunker.current_chunk concat].
  now rewrite texts_of_append, non_space_app, non_space_join_nl, app_nil_r.
Qed.

Lemma kept_buffer piece a :
  kept (RecursiveChunker.buffer piece a) = kept a ++ non_space piece.
Proof.
  unfold kept, RecursiveChunker.buffer.
  cbn [RecursiveChunker.out RecursiveChunker.current_chunk].
  rewrite concat_app, non_space_app. cbn [concat].
  now rewrite app_nil_r, app_assoc.
Qed.

Lemma kept_hard_split sentence a a' :
  RecursiveChunker.hard_split config text md sentence a = Ok a' ->
  kept a' ≡ₚ kept a ++ non_space sentence.
Proof.
  unfold RecursiveChunker.hard_split, range0.
  destruct (Z.eqb_spec (chunk_size config) 0) as [|_]; [lia|].
  destruct (Z.ltb_spec (chunk_size config) 0) as [|_]; [lia|].
  cbn [mbind result_bind bind]. intros [= <-].
  destruct (range_go_slices sentence (chunk_size config) chunk_size_pos
              (Z.to_nat (len sentence)) 0) as [Hcat _];
    [lia|unfold len; lia|].
  match goal with
  | |- context [fold_left ?f ?offs a] =>
      destruct (hard_split_fold config text md sentence offs a) as [Hmap Hcur]
  end.
  cbv zeta in Hmap, Hcur. unfold kept, texts_of.
  rewrite Hmap, Hcur, concat_app, Hcat. cbn [drop Z.to_nat].
  rewrite !non_space_app, <- !app_assoc.
  apply Permutation_app_head, Permutation_app_comm.
Qed.

Lemma kept_sentence_step sentence a a' :
  RecursiveChunker.sentence_step config text md sentence a = Ok a' ->
  kept a' ≡ₚ kept a ++ non_space sentence.
Proof.
  unfold RecursiveChunker.sentence_step. destruct (_ >? _).
  - apply kept_hard_split.
  - intros [= <-]. destruct (_ >? _); rewrite ?kept_flush, kept_buffer;
      reflexivity.
Qed.

Lemma kept_sentence_loop sentences : forall a a',
  RecursiveChunker.sentence_loop config text md sentences a = Ok a' ->
  kept a' ≡ₚ kept a ++ non_space (concat sentences).
Proof.
  induction sentences as [|s ss IH]; intros a a'; cbn.
  - intros [= <-]. now rewrite app_nil_r.
  - destruct (RecursiveChunker.sentence_step config text md s a) as [a1| |]
      eqn:Hs; cbn; try discriminate.
    intros Hl. rewrite (IH _ _ Hl), (kept_sentence_step _ _ _ Hs).
    now rewrite non_space_app, app_assoc.
Qed.

Lemma kept_subsection_step subsection a a' :
  RecursiveChunker.subsection_step config text md subsection a = Ok a' ->
  kept a' ≡ₚ kept a ++ non_space subsection.
Proof.
  unfold RecursiveChunker.subsection_step.
  destruct (nonempty (strip subsection)) eqn:Hn; cbn [negb].
  - set (a0 := if _ && _ then _ else a).
    assert (Ha0 : kept a0 = kept a)
      by (subst a0; destruct (_ && _); [apply kept_flush|reflexivity]).
    clearbody a0. rewrite <- Ha0, <- (non_space_strip subsection).
    destruct (_ >? _).
    + intros Hl. rewrite (kept_sentence_loop _ _ _ Hl).
      now rewrite non_space_split_sentences.
    + intros [= <-]. now rewrite kept_buffer.
  - intros [= <-]. now rewrite (non_space_nil_strip _ Hn), app_nil_r.
Qed.

Lemma kept_subsection_loop subsections : forall a a',
  RecursiveChunker.subsection_loop config text md subsections a = Ok a' ->
  kept a' ≡ₚ kept a ++ non_space (concat subsections).
Proof.
  induction subsections as [|s ss IH]; intros a a'; cbn.
  - intros [= <-]. now rewrite app_nil_r.
  - destruct (RecursiveChunker.subsection_step config text md s a) as [a1| |]
      eqn:Hs; cbn; try discriminate.
    intros Hl. rewrite (IH _ _ Hl), (kept_subsection_step _ _ _ Hs).
    now rewrite non_space_app, app_assoc.
Qed.

Lemma kept_section_step section e e' :
  RecursiveChunker.section_step config text md section e = Ok e' ->
  non_space (texts_of (chunks e'))
  ≡ₚ non_space (texts_of (chunks e)) ++ non_space section.
Proof.
  unfold RecursiveChunker.section_step.
  destruct (nonempty (strip section)) eqn:Hn; cbn [negb].
  - rewrite <- (non_space_strip section). destruct (_ <=? _).
    + intros [= <-]. now rewrite texts_of_append, non_space_app.
    + destruct (RecursiveChunker.subsection_loop _ _ _ _ _) as [a| |] eqn:Hl;
        cbn; try discriminate.
      intros [= <-]. apply kept_subsection_loop in Hl.
      rewrite non_space_split_nl in Hl.
      unfold kept in Hl.
      cbn [RecursiveChunker.out RecursiveChunker.current_chunk concat chunks]
        in Hl.
      change (non_space []) with (@nil char) in Hl.
      rewrite app_nil_r in Hl. rewrite <- Hl.
      destruct (nonempty (RecursiveChunker.current_chunk a)) eqn:Hcur.
      * pose proof (kept_flush a) as Hf. unfold kept in Hf.
        change (RecursiveChunker.current_chunk (RecursiveChunker.flush text md a))
          with (@nil str) in Hf.
        cbn [concat] in Hf. change (non_space []) with (@nil char) in Hf.
        rewrite app_nil_r in Hf. now rewrite Hf.
      * destruct (RecursiveChunker.current_chunk a); [|discriminate].
        cbn [concat]. change (non_space []) with (@nil char).
        now rewrite app_nil_r.
  - intros [= <-]. now rewrite (non_space_nil_strip _ Hn), app_nil_r.
Qed.

Lemma kept_section_loop sections : forall e e',
  RecursiveChunker.section_loop config text md sections e = Ok e' ->
  non_space (texts_of (chunks e'))
  ≡ₚ non_space (texts_of (chunks e)) ++ non_space (concat sections).
Proof.
  induction sections as [|s ss IH]; intros e e'; cbn.
  - intros [= <-]. now rewrite app_nil_r.
  - destruct (RecursiveChunker.section_step config text md s e) as [e1| |]
      eqn:Hs; cbn; try discriminate.
    intros Hl. rewrite (IH _ _ Hl), (kept_section_step _ _ _ Hs).
    now rewrite non_space_app, app_assoc.
Qed.

End RecursiveKeeps.

(** X10.  With a configuration that passed construction,
    [RecursiveChunker.chunk_text] returns chunks that hold every character
    of the text that is not white space exactly once: the texts of the
    chunks without their white space are a rearrangement of the text
    without its white space. *)
Theorem recursive_chunks_keep_the_text cs co mn sn rs config text metadata :
  new_ChunkConfig cs co mn sn rs = Ok config ->
  exists chunks,
    RecursiveChunker.chunk_text config text metadata = Ok chunks
    /\ non_space (texts_of chunks) ≡ₚ non_space text.
Proof.
  intros Hc. apply new_ChunkConfig_Ok in Hc as [_ Hv].
  destruct (recursive_chunk_text_total config text metadata Hv)
    as (cks & Hs & _).
  exists cks. split; [exact Hs|].
  unfold RecursiveChunker.chunk_text in Hs.
  destruct (nonempty text) eqn:Hn; cbn in Hs.
  - destruct (RecursiveChunker.section_loop _ _ _ _ _) as [e| |] eqn:Hl;
      cbn in Hs; try discriminate.
    injection Hs as <-.
    apply kept_section_loop in Hl; [|apply Hv].
    now rewrite non_space_split_blank_lines in Hl.
  - injection Hs as <-. now destruct text.
Qed.

Lemma recursive_chunks_keep_the_text_witness :
  let text := lit "Hi. Abcdefghijklmnop" ++ [nl; nl] ++ lit "delta epsilon" in
  exists chunks,
    RecursiveChunker.chunk_text (mkChunkConfig 6 1 2 true true) text None
    = Ok chunks
    /\ non_space (texts_of chunks) ≡ₚ non_space text.
Proof.
  exact (recursive_chunks_keep_the_text 6 1 2 true true _ _ None eq_refl).
Defined.

End ChunkingExtras.

(** * Further properties of retrieval *)

Module RetrievalExtras.
Import Py PyFacts Np NpSpec NpFacts VectorStoreBase Retrieval RetrievalSpec.
Import RetrievalFacts MemoryVectorStoreFacts RetrievalSpec2.
Open Scope R_scope.

Lemma sublist_map {A B : Type} (f : A -> B) (l k : list A) :
  l `sublist_of` k -> map f l `sublist_of` map f k.
Proof.
  induction 1; cbn; [constructor|now apply sublist_skip|now apply sublist_cons].
Qed.

(** ** Ranks *)

Lemma ranks_from_content chunks : forall i,
  map content (ranks_from i chunks) = map content chunks.
Proof.
  induction chunks as [|c chunks IH]; intros i; cbn; [reflexivity|].
  now rewrite IH.
Qed.

Lemma length_ranks_from chunks : forall i,
  length (ranks_from i chunks) = length chunks.
Proof.
  induction chunks as [|c chunks IH]; intros i; cbn; [reflexivity|].
  now rewrite IH.
Qed.

Lemma ranks_from_rank chunks : forall i,
  map rank (ranks_from i chunks)
  = map (fun j => (i + Z.of_nat j + 1)%Z) (seq 0 (length chunks)).
Proof.
  induction chunks as [|c chunks IH]; intros i; cbn; [reflexivity|].
  f_equal; [lia|]. rewrite IH, <- seq_shift, map_map.
  apply map_ext. intros j. lia.
Qed.

Lemma update_ranks_ranked chunks : ranked (update_ranks chunks).
Proof.
  unfold ranked, update_ranks. rewrite ranks_from_rank, length_ranks_from.
  apply map_ext. intros j. lia.
Qed.

Lemma update_ranks_content chunks :
  map content (update_ranks chunks) = map content chunks.
Proof. apply ranks_from_content. Qed.

Lemma imap_rank (g : nat -> Z) (results : list SearchResult) :
  map rank
    (imap (fun i result =>
             mkRetrievedChunk (VectorStoreBase.chunk result) (score result) (g i))
       results)
  = map g (seq 0 (length results)).
Proof.
  revert g. induction results as [|r rs IH]; intros g; [reflexivity|].
  cbn. f_equal. rewrite <- seq_shift, map_map.
  exact (IH (fun i => g (Datatypes.S i))).
Qed.

Lemma imap_content (g : nat -> Z) (results : list SearchResult) :
  map content
    (imap (fun i result =>
             mkRetrievedChunk (VectorStoreBase.chunk result) (score result) (g i))
       results)
  = map result_content results.
Proof.
  revert g. induction results as [|r rs IH]; intros g; [reflexivity|].
  cbn. f_equal. exact (IH (fun i => g (Datatypes.S i))).
Qed.

Lemma candidates_ranked results : ranked (candidates results).
Proof.
  unfold ranked, candidates. rewrite imap_rank. now rewrite length_imap.
Qed.

Lemma candidates_content results :
  map content (candidates results) = map result_content results.
Proof. apply imap_content. Qed.

Lemma ranked_take chunks n : ranked chunks -> ranked (take n chunks).
Proof.
  unfold ranked. intros H.
  rewrite <- firstn_map, H, firstn_map, take_seq, length_take.
  reflexivity.
Qed.

Lemma ranked_slice_to chunks k : ranked chunks -> ranked (slice_to chunks k).
Proof. rewrite slice_to_prefix. apply ranked_take. Qed.

Lemma slice_to_len_le {A : Type} (l : list A) k :
  (0 <= k)%Z -> (len (slice_to l k) <= k)%Z.
Proof.
  intros Hk. rewrite slice_to_prefix. unfold len. rewrite length_take.
  unfold norm_index, len. destruct (k <? 0)%Z eqn:E; lia.
Qed.

Lemma rerank_content chunks :
  map content (_rerank_results chunks) ≡ₚ map content chunks.
Proof.
  unfold _rerank_results. rewrite update_ranks_content.
  apply Permutation_map, sort_desc_perm.
Qed.

Lemma content_similarity chunks :
  map similarity chunks = map snd (map content chunks).
Proof. rewrite map_map. reflexivity. Qed.

Lemma descending_content chunks chunks' :
  map content chunks = map content chunks' ->
  descending similarity chunks' -> descending similarity chunks.
Proof.
  intros H. apply descending_map.
  now rewrite !content_similarity, H.
Qed.

Lemma rerank_descending chunks : descending similarity (_rerank_results chunks).
Proof.
  unfold _rerank_results.
  apply (descending_content _ (sort_desc similarity chunks));
    [apply update_ranks_content|apply sort_desc_sorted].
Qed.

(** ** The stages of [retrieve] *)

Section Stages.
Context {S : Type} `{VectorStore S}.
Variable vector_store : S.
Variable provider : Embeddings.provider.
Variable config : RetrievalConfig.

Lemma filter_loop_sublist chunks : forall seen out,
  filter_loop vector_store config chunks seen = Ok out ->
  out `sublist_of` chunks.
Proof.
  induction chunks as [|c chunks IH]; intros seen out; cbn.
  - intros [= <-]. constructor.
  - destruct (get_embedding vector_store _) as [e| |]; cbn; try discriminate.
    destruct (is_duplicate config _ seen) as [[|]| |]; cbn; try discriminate.
    + intros Hl. apply sublist_cons. now apply (IH seen).
    + destruct (filter_loop vector_store config chunks _) as [out'| |] eqn:Hl;
        cbn; try discriminate.
      intros [= <-]. apply sublist_skip. now apply (IH _ _ Hl).
Qed.

Lemma filter_duplicates_sublist chunks out :
  _filter_duplicates vector_store config chunks = Ok out ->
  out `sublist_of` chunks.
Proof.
  unfold _filter_duplicates. destruct (negb _).
  - now intros [= <-].
  - apply filter_loop_sublist.
Qed.

Lemma filter_loop_idem chunks : forall seen out,
  filter_loop vector_store config chunks seen = Ok out ->
  filter_loop vector_store config out seen = Ok out.
Proof.
  induction chunks as [|c chunks IH]; intros seen out; cbn.
  - now intros [= <-].
  - destruct (get_embedding vector_store _) as [e| |] eqn:He; cbn;
      try discriminate.
    destruct (is_duplicate config _ seen) as [[|]| |] eqn:Hd; cbn;
      try discriminate.
    + apply IH.
    + destruct (filter_loop vector_store config chunks _) as [out'| |] eqn:Hl;
        cbn; try discriminate.
      intros [= <-]. cbn. rewrite He. cbn. rewrite Hd. cbn.
      now rewrite (IH _ _ Hl).
Qed.

(** The stages a successful [retrieve] went through. *)
Lemma retrieve_stages query filters chunks :
  retrieve vector_store provider config query filters = Ok chunks ->
  exists embeddings qe results mid,
    provider [query] = Some embeddings
    /\ embeddings !! 0%nat = Some qe
    /\ similarity_search vector_store qe (requested config)
         (min_similarity config) filters = Ok results
    /\ (if filter_duplicates config
        then exists out,
               _filter_duplicates vector_store config (candidates results)
               = Ok out
               /\ mid = update_ranks out
        else mid = candidates results)
    /\ chunks
       = slice_to (if rerank_results config
                   then update_ranks (_rerank_results mid) else mid)
           (top_k config).
Proof.
  unfold retrieve, Embeddings.call, item, requested.
  destruct (provider [query]) as [embeddings|]; cbn; [|discriminate].
  destruct (embeddings !! 0%nat) as [qe|] eqn:Hqe; cbn; [|discriminate].
  destruct (similarity_search vector_store qe _ _ filters) as [results| |]
    eqn:Hs; cbn; try discriminate.
  fold (candidates results).
  destruct (filter_duplicates config) eqn:Hfd.
  - destruct (_filter_duplicates vector_store config (candidates results))
      as [out| |] eqn:Hf; cbn; try discriminate.
    intros [= <-]. exists embeddings, qe, results, (update_ranks out).
    repeat split; try assumption. eauto.
  - cbn. intros [= <-]. exists embeddings, qe, results, (candidates results).
    repeat split; assumption.
Qed.

Lemma stages_ranked results mid :
  (if filter_duplicates config
   then exists out,
          _filter_duplicates vector_store config (candidates results) = Ok out
          /\ mid = update_ranks out
   else mid = candidates results) ->
  ranked mid /\ map content mid `sublist_of` map result_content results.
Proof.
  destruct (filter_duplicates config).
  - intros (out & Hf & ->). split; [apply update_ranks_ranked|].
    rewrite update_ranks_content, <- candidates_content.
    apply sublist_map. now apply filter_duplicates_sublist.
  - intros ->. split; [apply candidates_ranked|].
    now rewrite candidates_content.
Qed.

End Stages.

Section Pipeline.
Context {S : Type} `{VectorStore S}.
Variable vector_store : S.
Variable provider : Embeddings.provider.
Variable config : RetrievalConfig.

(** What [retrieve] returns is cut from a list that is ranked and whose
    contents are, up to order, among those of the results of the index. *)
Lemma retrieve_spec query filters chunks :
  retrieve vector_store provider config query filters = Ok chunks ->
  exists embeddings qe results mid,
    provider [query] = Some embeddings
    /\ embeddings !! 0%nat = Some qe
    /\ similarity_search vector_store qe (requested config)
         (min_similarity config) filters = Ok results
    /\ ranked mid
    /\ map content mid `sublist_of` map result_content results
    /\ chunks
       = slice_to (if rerank_results config
                   then update_ranks (_rerank_results mid) else mid)
           (top_k config).
Proof.
  intros Hr.
  destruct (retrieve_stages vector_store provider config query filters chunks Hr)
    as (embeddings & qe & results & mid & Hp & Hqe & Hs & Hmid & Hchunks).
  destruct (stages_ranked vector_store config results mid Hmid) as [Hrk Hsub].
  exists embeddings, qe, results, mid. repeat split; assumption.
Qed.

Lemma retrieve_contents query filters chunks :
  retrieve vector_store provider config query filters = Ok chunks ->
  exists embeddings qe results,
    provider [query] = Some embeddings
    /\ embeddings !! 0%nat = Some qe
    /\ similarity_search vector_store qe (requested config)
         (min_similarity config) filters = Ok results
    /\ map content chunks ⊆+ map result_content results.
Proof.
  intros Hr.
  destruct (retrieve_spec query filters chunks Hr)
    as (embeddings & qe & results & mid & Hp & Hqe & Hs & _ & Hsub & ->).
  exists embeddings, qe, results. repeat split; try assumption.
  rewrite slice_to_prefix, <- firstn_map.
  etransitivity; [apply sublist_submseteq, sublist_take|].
  etransitivity; [|apply sublist_submseteq, Hsub].
  destruct (rerank_results config); [|reflexivity].
  apply Permutation_submseteq.
  rewrite update_ranks_content. apply rerank_content.
Qed.

(** X21.  The chunks that [retrieve] returns carry the ranks 1, 2, ... in
    the order of the list, and there are at most [top_k] of them (for
    [top_k >= 0], which construction of the configuration ensures). *)
Theorem retrieved_chunks_are_ranked query filters chunks :
  retrieve vector_store provider config query filters = Ok chunks ->
  map rank chunks = map (fun i => (Z.of_nat i + 1)%Z) (seq 0 (length chunks))
  /\ ((0 <= top_k config)%Z -> (len chunks <= top_k config)%Z).
Proof.
  intros Hr.
  destruct (retrieve_spec query filters chunks Hr)
    as (embeddings & qe & results & mid & _ & _ & _ & Hrk & _ & ->).
  split; [|apply slice_to_len_le].
  apply ranked_slice_to.
  destruct (rerank_results config); [apply update_ranks_ranked|exact Hrk].
Qed.

(** X22.  Every chunk that [retrieve] returns is made from a result of
    the search of the index with the embedding of the query (for twice
    [top_k] results when duplicates are filtered, [top_k] otherwise): it
    has the chunk and, as similarity, the score of that result, and no
    result is used twice. *)
Theorem retrieved_chunks_come_from_the_index query filters chunks :
  retrieve vector_store provider config query filters = Ok chunks ->
  exists embeddings qe results,
    provider [query] = Some embeddings
    /\ embeddings !! 0%nat = Some qe
    /\ similarity_search vector_store qe
         (if filter_duplicates config then top_k config * 2 else top_k config)%Z
         (min_similarity config) filters = Ok results
    /\ map (fun c => (chunk c, similarity c)) chunks
       ⊆+ map (fun sr => (VectorStoreBase.chunk sr, score sr)) results.
Proof. apply retrieve_contents. Qed.

(** X23.  [retrieve] returns its chunks best similarity first whenever
    reranking is on, and also without reranking when the index returns
    its results best first. *)
Theorem retrieved_chunks_are_best_first query filters chunks :
  retrieve vector_store provider config query filters = Ok chunks ->
  rerank_results config = true
  \/ (forall qe k min_score filters results,
        similarity_search vector_store qe k min_score filters = Ok results ->
        descending score results) ->
  descending similarity chunks.
Proof.
  intros Hr Horder.
  destruct (retrieve_spec query filters chunks Hr)
    as (embeddings & qe & results & mid & _ & _ & Hs & _ & Hsub & ->).
  rewrite slice_to_prefix. apply descending_take.
  destruct (rerank_results config) eqn:Hrr.
  - apply (descending_content _ (_rerank_results mid));
      [apply update_ranks_content|apply rerank_descending].
  - destruct Horder as [|Hstore]; [discriminate|].
    apply (descending_map similarity snd mid (map content mid));
      [apply content_similarity|].
    apply (descending_sublist snd (map result_content results)); [exact Hsub|].
    apply (descending_map snd score (map result_content results) results);
      [now rewrite map_map|].
    exact (Hstore _ _ _ _ _ Hs).
Qed.

(** X24.  [_filter_duplicates] is idempotent: run on a list it returned,
    it returns that list. *)
Theorem filter_duplicates_is_idempotent chunks out :
  _filter_duplicates vector_store config chunks = Ok out ->
  _filter_duplicates vector_store config out = Ok out.
Proof.
  unfold _filter_duplicates.
  destruct chunks as [|c chunks]; cbn [Chunking.nonempty negb].
  - now intros [= <-].
  - intros Hl. apply filter_loop_idem in Hl.
    destruct out; [reflexivity|exact Hl].
Qed.

(** X25.  [_rerank_results] returns the chunks it was given, with their
    similarities, best similarity first and with the ranks 1, 2, ... in
    that order. *)
Theorem rerank_sorts_and_ranks chunks :
  map (fun c => (chunk c, similarity c)) (_rerank_results chunks)
  ≡ₚ map (fun c => (chunk c, similarity c)) chunks
  /\ descending similarity (_rerank_results chunks)
  /\ map rank (_rerank_results chunks)
     = map (fun i => (Z.of_nat i + 1)%Z) (seq 0 (length chunks)).
Proof.
  split; [apply rerank_content|]. split; [apply rerank_descending|].
  unfold _rerank_results.
  rewrite (update_ranks_ranked (sort_desc similarity chunks)).
  unfold update_ranks. rewrite length_ranks_from.
  now rewrite (Permutation_length (sort_desc_perm similarity chunks)).
Qed.

End Pipeline.

(** ** Retrieval over the list store *)

(** X26.  Over the in-memory list store, every chunk that [retrieve]
    returns has the text and the metadata reference of a stored record
    that matches the filter (values compared with Python's [==]), and a
    similarity that is not below [min_similarity]. *)
Theorem memory_retrieve_respects_the_request self h provider config query
    filters chunks :
  retrieve (self, h) provider config query filters = Ok chunks ->
  Forall (fun c =>
            min_similarity config <= similarity c
            /\ exists idx,
                 MemoryVectorStore.texts self !! idx
                 = Some (Chunking.text (chunk c))
                 /\ MemoryVectorStore.metadatas self !! idx
                    = Some (Chunking.metadata (chunk c))
                 /\ MemoryVectorStoreSpec2.passes self h filters idx)
    chunks.
Proof.
  intros Hr.
  destruct (retrieve_contents (self, h) provider config query filters chunks Hr)
    as (embeddings & qe & results & _ & _ & Hs & Hsub).
  change (MemoryVectorStore.similarity_search self h qe (requested config)
            (min_similarity config) filters = Ok results) in Hs.
  apply MemoryVectorStoreExtras.similarity_search_sound in Hs.
  apply Forall_forall. intros c Hc.
  assert (Hin : content c ∈ map result_content results).
  { eapply elem_of_submseteq; [|exact Hsub].
    apply list_elem_of_In, in_map, list_elem_of_In, Hc. }
  apply list_elem_of_In, in_map_iff in Hin as (sr & Heq & Hsr).
  apply list_elem_of_In in Hsr.
  rewrite Forall_forall in Hs.
  destruct (Hs sr Hsr) as (idx & (e & _ & _ & Hmin & Hpass) & Ht & Hm).
  injection Heq as Hchunk Hscore. rewrite <- Hchunk, <- Hscore.
  split; [exact Hmin|]. exists idx. repeat split; assumption.
Qed.

(** The retrieval of the two near-duplicate chunks of the test suite. *)
Lemma near_retrieve :
  retrieve (Examples.near_store, (∅ : heap)) Examples.near_provider
    Examples.near_config (lit "test query") None
  = Ok [mkRetrievedChunk (VectorStoreBase.chunk Examples.near_1)
          (score Examples.near_1) 1].
Proof.
  apply (retrieve_pair (Examples.near_store, (∅ : heap)) Examples.near_config
           Examples.near_provider 2%nat (lit "test query") None [1; 0] []
           Examples.near_1 Examples.near_2).
  - reflexivity.
  - reflexivity.
  - cbn. lia.
  - exact RetrievalClaims.near_search.
  - exists [1; 0]. split; reflexivity.
  - exists [99 / 100; sqrt 199 / 100]. split; reflexivity.
  - apply (Rlt_le_trans _ (99 / 100)); [cbn; lra|].
    apply Req_le. symmetry. exact RetrievalClaims.near_cosine.
Qed.

(** The retrieval of the reranking test: the mock returns its results in
    non-optimal order, and two are wanted. *)
Lemma unordered_retrieve :
  retrieve Examples2.unordered_store Examples2.mock_provider
    Examples2.rerank_config (lit "test query") None
  = Ok [mkRetrievedChunk
          (Chunking.mkTextChunk (lit "Higher score") 2%positive 12 24 1)
          (9 / 10) 1;
        mkRetrievedChunk
          (Chunking.mkTextChunk (lit "Middle score") 3%positive 25 37 2)
          (8 / 10) 2].
Proof. eval_R. reflexivity. Qed.

Lemma flagged_retrieve :
  retrieve (Examples2.flagged_store, Examples2.flagged_heap)
    Examples2.flag_provider Examples2.flag_config (lit "test query")
    (Some Examples2.flag_filter)
  = Ok [mkRetrievedChunk (Chunking.mkTextChunk (lit "one") 1%positive 0 3 0)
          (dot [1; 0; 0] [9 / 10; 5 / 10; 2 / 10]) 1;
        mkRetrievedChunk (Chunking.mkTextChunk (lit "three") 3%positive 0 5 1)
          (dot [0; 0; 1] [9 / 10; 5 / 10; 2 / 10]) 2].
Proof.
  unfold retrieve.
  change (Embeddings.call Examples2.flag_provider [lit "test query"])
    with (Ok [[9 / 10; 5 / 10; 2 / 10]] : result (list vec)).
  cbn [mbind result_bind bind item lookup list_lookup Examples2.flag_config
       filter_duplicates top_k min_similarity rerank_results].
  change (similarity_search (Examples2.flagged_store, Examples2.flagged_heap))
    with (MemoryVectorStore.similarity_search Examples2.flagged_store
            Examples2.flagged_heap).
  rewrite MemoryVectorStoreExtras.flagged_search.
  eval_R. reflexivity.
Qed.

Lemma retrieved_chunks_are_ranked_witness :
  let chunks :=
    [mkRetrievedChunk
       (Chunking.mkTextChunk (lit "Higher score") 2%positive 12 24 1)
       (9 / 10) 1;
     mkRetrievedChunk
       (Chunking.mkTextChunk (lit "Middle score") 3%positive 25 37 2)
       (8 / 10) 2] in
  map rank chunks = map (fun i => (Z.of_nat i + 1)%Z) (seq 0 (length chunks))
  /\ ((0 <= top_k Examples2.rerank_config)%Z
      -> (len chunks <= top_k Examples2.rerank_config)%Z).
Proof.
  exact (retrieved_chunks_are_ranked Examples2.unordered_store
           Examples2.mock_provider Examples2.rerank_config (lit "test query")
           None _ unordered_retrieve).
Defined.

Lemma retrieved_chunks_come_from_the_index_witness :
  let chunks :=
    [mkRetrievedChunk (VectorStoreBase.chunk Examples.near_1)
       (score Examples.near_1) 1] in
  exists embeddings qe results,
    Examples.near_provider [lit "test query"] = Some embeddings
    /\ embeddings !! 0%nat = Some qe
    /\ similarity_search (Examples.near_store, (∅ : heap)) qe
         (if filter_duplicates Examples.near_config
          then top_k Examples.near_config * 2
          else top_k Examples.near_config)%Z
         (min_similarity Examples.near_config) None = Ok results
    /\ map (fun c => (chunk c, similarity c)) chunks
       ⊆+ map (fun sr => (VectorStoreBase.chunk sr, score sr)) results.
Proof.
  exact (retrieved_chunks_come_from_the_index
           (Examples.near_store, (∅ : heap)) Examples.near_provider
           Examples.near_config (lit "test query") None _ near_retrieve).
Defined.

Lemma retrieved_chunks_are_best_first_witness :
  descending similarity
    [mkRetrievedChunk
       (Chunking.mkTextChunk (lit "Higher score") 2%positive 12 24 1)
       (9 / 10) 1;
     mkRetrievedChunk
       (Chunking.mkTextChunk (lit "Middle score") 3%positive 25 37 2)
       (8 / 10) 2].
Proof.
  apply (retrieved_chunks_are_best_first Examples2.unordered_store
           Examples2.mock_provider Examples2.rerank_config (lit "test query")
           None _ unordered_retrieve).
  left. reflexivity.
Defined.

Lemma filter_duplicates_is_idempotent_witness :
  let c1 := mkRetrievedChunk (VectorStoreBase.chunk Examples.near_1)
              (score Examples.near_1) 1 in
  _filter_duplicates (Examples.near_store, (∅ : heap)) Examples.near_config [c1]
  = Ok [c1].
Proof.
  intros c1.
  apply (filter_duplicates_is_idempotent (Examples.near_store, (∅ : heap))
           Examples.near_config
           [c1; mkRetrievedChunk (VectorStoreBase.chunk Examples.near_2)
                  (score Examples.near_2) 2]).
  apply (filter_duplicates_pair (Examples.near_store, (∅ : heap))
           Examples.near_config 2%nat).
  - exists [1; 0]. split; reflexivity.
  - exists [99 / 100; sqrt 199 / 100]. split; reflexivity.
  - apply (Rlt_le_trans _ (99 / 100)); [cbn; lra|].
    apply Req_le. symmetry. exact RetrievalClaims.near_cosine.
Defined.

Lemma memory_retrieve_respects_the_request_witness :
  Forall (fun c =>
            min_similarity Examples2.flag_config <= similarity c
            /\ exists idx,
                 MemoryVectorStore.texts Examples2.flagged_store !! idx
                 = Some (Chunking.text (chunk c))
                 /\ MemoryVectorStore.metadatas Examples2.flagged_store !! idx
                    = Some (Chunking.metadata (chunk c))
                 /\ MemoryVectorStoreSpec2.passes Examples2.flagged_store
                      Examples2.flagged_heap (Some Examples2.flag_filter) idx)
    [mkRetrievedChunk (Chunking.mkTextChunk (lit "one") 1%positive 0 3 0)
       (dot [1; 0; 0] [9 / 10; 5 / 10; 2 / 10]) 1;
     mkRetrievedChunk (Chunking.mkTextChunk (lit "three") 3%positive 0 5 1)
       (dot [0; 0; 1] [9 / 10; 5 / 10; 2 / 10]) 2].
Proof.
  exact (memory_retrieve_respects_the_request Examples2.flagged_store
           Examples2.flagged_heap Examples2.flag_provider Examples2.flag_config
           (lit "test query") (Some Examples2.flag_filter) _ flagged_retrieve).
Defined.

End RetrievalExtras.
